(** * Episodic model-based RL client: scheduling and task lifecycle

    A shallow embedding of [scripts/episodic_mbrl_client.py]: the two
    policy-optimisation functions [mc_pilco_polopt] and [http_polopt], the
    start-up code of the main block (output directory, task queue) and the
    scheduler loop, followed by the properties of the task lifecycle.

    The Python program keeps its data in shared mutable objects: the
    dictionaries [task_state] and [config['tasks']], the queue [tasks] and
    the module-level variable [state].  They are the fields of [World];
    every function of the script is a computation in the monad [M], which
    threads the world and may raise.  What is mutated before an exception
    stays mutated, as in Python. *)

From Stdlib Require Import ZArith Ascii String List Bool Lia.
From stdpp Require Import gmap strings list fin_maps.

Local Open Scope string_scope.
Local Open Scope Z_scope.
Local Open Scope list_scope.

(** ** Data *)

(** A policy parameter set, [pol.get_params(symbolic=False)]: a list of
    arrays, kept as a list of numbers.  Only [len(p)] is ever inspected. *)
Definition params := list Z.

(** What [apply_controller] returns for one episode (states, actions, costs
    and infos), kept abstract. *)
Definition trajectory := list Z.

(** [kusanagi.base.ExperienceDataset], through the interface the script
    uses: [append_episode], [n_episodes] and the attribute
    [policy_parameters]. *)
Record ExperienceDataset := {
  episodes : list trajectory;
  policy_parameters : list params
}.

Definition empty_experience : ExperienceDataset :=
  {| episodes := []; policy_parameters := [] |}.

Definition append_episode (exp : ExperienceDataset) (tr : trajectory)
    (pol_params : params) : ExperienceDataset :=
  {| episodes := episodes exp ++ [tr];
     policy_parameters := policy_parameters exp ++ [pol_params] |}.

Definition n_episodes (exp : ExperienceDataset) : nat := length (episodes exp).

(** The learned policy object [spec['policy']]: whether it carries a
    [params] attribute (line 328) and its current parameters. *)
Record Policy := {
  has_params : bool;
  pol_params : params
}.

(** The policy acting in an episode: [RandPolicy(...)] of line 301 or the
    task's own policy of line 309. *)
Inductive acting_policy := RandPolicy | LearnedPolicy.

(** The two functions a thread can be started on (lines 303 and 310). *)
Inductive polopt := Fn_mc_pilco_polopt | Fn_http_polopt.

(** One entry of [config['tasks']], with the keys the scheduler reads or
    writes.  [loss_fn] is [spec['optimizer'].loss_fn]; [extra_in] is the key
    written on line 103 and read on line 128. *)
Record TaskSpec := {
  experience : ExperienceDataset;
  policy : Policy;
  loss_fn : option unit;
  extra_in : option (list string);
  n_opt : Z;
  initial_random_trials : Z;
  polopt_fn : option polopt
}.

Definition with_experience (sp : TaskSpec) (e : ExperienceDataset) : TaskSpec :=
  {| experience := e; policy := policy sp; loss_fn := loss_fn sp;
     extra_in := extra_in sp; n_opt := n_opt sp;
     initial_random_trials := initial_random_trials sp;
     polopt_fn := polopt_fn sp |}.

Definition with_policy_params (sp : TaskSpec) (p : params) : TaskSpec :=
  {| experience := experience sp;
     policy := {| has_params := has_params (policy sp); pol_params := p |};
     loss_fn := loss_fn sp;
     extra_in := extra_in sp; n_opt := n_opt sp;
     initial_random_trials := initial_random_trials sp;
     polopt_fn := polopt_fn sp |}.

(** [task_spec['extra_in'] = ex_in], line 103 *)
Definition with_extra_in (sp : TaskSpec) (ex : list string) : TaskSpec :=
  {| experience := experience sp; policy := policy sp; loss_fn := loss_fn sp;
     extra_in := Some ex; n_opt := n_opt sp;
     initial_random_trials := initial_random_trials sp;
     polopt_fn := polopt_fn sp |}.

(** [optimizer.set_objective(...)], line 118: the optimizer now has a loss
    function. *)
Definition with_objective (sp : TaskSpec) : TaskSpec :=
  {| experience := experience sp; policy := policy sp; loss_fn := Some tt;
     extra_in := extra_in sp; n_opt := n_opt sp;
     initial_random_trials := initial_random_trials sp;
     polopt_fn := polopt_fn sp |}.

Definition with_initial_random_trials (sp : TaskSpec) (n : Z) : TaskSpec :=
  {| experience := experience sp; policy := policy sp; loss_fn := loss_fn sp;
     extra_in := extra_in sp; n_opt := n_opt sp;
     initial_random_trials := n;
     polopt_fn := polopt_fn sp |}.

(** Python exceptions the model can raise.  [ExternalError c] is any
    exception coming out of the external call [c]. *)
Inductive exn :=
| NameError (name : string)
| KeyError (key : string)
| TypeError (what : string)
| OSError (path : string)
| ExternalError (call : string).

(** What the program does to a task: [tasks.get] returns it, [tasks.put],
    an assignment to [task_state[name]], [env.init_params],
    [apply_controller], [train_dynamics], building the objective (lines
    106-120), [optimizer.minimize], the optimisation request, and the start
    of a thread. *)
Inductive op :=
| Get
| Put
| SetState (st : string)
| InitParams
| Episode (pol : acting_policy)
| Train
| Compile
| Minimize
| HttpOptimize
| Start (fn : polopt).

(** An event of the log: the task and what was done to it.  The log is
    ghost state: no function of the script reads it. *)
Definition event : Type := string * op.

Inductive main_status := Running | Finished | Crashed (e : exn).

(** The shared store.  A queue item [(name, spec)] always carries the dict
    [config['tasks'][name]] itself, so the queue holds names and the spec is
    read from [config_tasks].  [state] is the module-level variable assigned
    on lines 284 and 306 and read, as a global, on line 78; it is unbound
    until the first assignment.  [started] holds the threads that were
    started and have not run yet. *)
Record World := {
  tasks : list string;
  task_state : gmap string string;
  state : option string;
  config_tasks : gmap string TaskSpec;
  default_polopt_fn : option polopt;
  started : list (polopt * string);
  main : main_status;
  log : list event
}.

Definition set_tasks (w : World) (q : list string) : World :=
  {| tasks := q; task_state := task_state w; state := state w;
     config_tasks := config_tasks w; default_polopt_fn := default_polopt_fn w;
     started := started w; main := main w; log := log w |}.

Definition set_task_state (w : World) (m : gmap string string) : World :=
  {| tasks := tasks w; task_state := m; state := state w;
     config_tasks := config_tasks w; default_polopt_fn := default_polopt_fn w;
     started := started w; main := main w; log := log w |}.

Definition set_state (w : World) (s : option string) : World :=
  {| tasks := tasks w; task_state := task_state w; state := s;
     config_tasks := config_tasks w; default_polopt_fn := default_polopt_fn w;
     started := started w; main := main w; log := log w |}.

Definition set_config_tasks (w : World) (c : gmap string TaskSpec) : World :=
  {| tasks := tasks w; task_state := task_state w; state := state w;
     config_tasks := c; default_polopt_fn := default_polopt_fn w;
     started := started w; main := main w; log := log w |}.

Definition set_started (w : World) (t : list (polopt * string)) : World :=
  {| tasks := tasks w; task_state := task_state w; state := state w;
     config_tasks := config_tasks w; default_polopt_fn := default_polopt_fn w;
     started := t; main := main w; log := log w |}.

Definition set_main (w : World) (s : main_status) : World :=
  {| tasks := tasks w; task_state := task_state w; state := state w;
     config_tasks := config_tasks w; default_polopt_fn := default_polopt_fn w;
     started := started w; main := s; log := log w |}.

Definition set_log (w : World) (l : list event) : World :=
  {| tasks := tasks w; task_state := task_state w; state := state w;
     config_tasks := config_tasks w; default_polopt_fn := default_polopt_fn w;
     started := started w; main := main w; log := l |}.

(** ** The monad of the script: state and exceptions *)

Inductive result (A : Type) :=
| Ok (a : A)
| Raise (e : exn).
Arguments Ok {A} a.
Arguments Raise {A} e.

(** A computation over a store [S]: it returns or raises, and leaves a
    store either way. *)
Definition program (S A : Type) : Type := S -> result A * S.

Definition ret {S A} (a : A) : program S A := fun s => (Ok a, s).

Definition raise {S A} (e : exn) : program S A := fun s => (Raise e, s).

Definition bind {S A B} (m : program S A) (k : A -> program S B) : program S B :=
  fun s => match m s with
           | (Ok a, s') => k a s'
           | (Raise e, s') => (Raise e, s')
           end.

(** [try: m except Exception: h] *)
Definition try_except {S A} (m : program S A) (h : exn -> program S A) : program S A :=
  fun s => match m s with
           | (Ok a, s') => (Ok a, s')
           | (Raise e, s') => h e s'
           end.

(** The functions of the script run over the shared store. *)
Abbreviation M := (program World).

Declare Scope py_scope.
Delimit Scope py_scope with py.
Notation "'do' x <- m ; k" := (bind m (fun x => k))
  (at level 10, x name, m at level 99, k at level 200) : py_scope.
Notation "m ;; k" := (bind m (fun _ => k))
  (at level 100, k at level 200, only parsing, right associativity) : py_scope.
Local Open Scope py_scope.

Definition emit (name : string) (o : op) : M unit :=
  fun w => (Ok tt, set_log w (log w ++ [(name, o)])).

Definition when {S} (b : bool) (m : program S unit) : program S unit :=
  if b then m else ret tt.

(** [task_state[name] = st] *)
Definition write_task_state (name st : string) : M unit :=
  fun w => (Ok tt,
            set_log (set_task_state w (<[name := st]> (task_state w)))
                    (log w ++ [(name, SetState st)])).

(** [task_state[name]] *)
Definition read_task_state (name : string) : M string :=
  fun w => match task_state w !! name with
           | Some st => (Ok st, w)
           | None => (Raise (KeyError name), w)
           end.

(** The global [state], as an expression. *)
Definition read_state : M string :=
  fun w => match state w with
           | Some st => (Ok st, w)
           | None => (Raise (NameError "state"), w)
           end.

(** [state = st] at module level. *)
Definition assign_state (st : string) : M unit :=
  fun w => (Ok tt, set_state w (Some st)).

(** The spec object of a task; the queue item and the thread argument are
    references to it. *)
Definition read_spec (name : string) : M TaskSpec :=
  fun w => match config_tasks w !! name with
           | Some sp => (Ok sp, w)
           | None => (Raise (KeyError name), w)
           end.

Definition update_spec (name : string) (f : TaskSpec -> TaskSpec) : M unit :=
  fun w => match config_tasks w !! name with
           | Some sp => (Ok tt, set_config_tasks w (<[name := f sp]> (config_tasks w)))
           | None => (Raise (KeyError name), w)
           end.

(** [task_queue.put((task_name, task_spec))] *)
Definition queue_put (name : string) : M unit :=
  fun w => (Ok tt, set_log (set_tasks w (tasks w ++ [name])) (log w ++ [(name, Put)])).

(** An external call that either returns or raises. *)
Definition external {S} (call : string) (ok : bool) : program S unit :=
  if ok then ret tt else raise (ExternalError call).

(** ** External calls

    The robot, kusanagi's training and optimisation routines and the remote
    service are outside the script.  Each run of a function of the script is
    given what its external calls do on that run. *)

(** One run of [mc_pilco_polopt]: whether [train_dynamics] returns; the
    free tensor inputs found on lines 99-102; whether [mc_pilco.get_loss]
    and [optimizer.set_objective] return; and the policy parameters
    [optimizer.minimize] leaves in the policy ([None]: it raises). *)
Record local_run := {
  train_dynamics_ok : bool;
  extra_inputs : list string;
  set_objective_ok : bool;
  minimize : option params
}.

(** The body of the response to [POST /optimize/<task>]: the request itself
    fails, or [pickle.loads] raises on the text, or the text unpickles to a
    parameter set. *)
Inductive http_reply :=
| ConnectionError
| Malformed
| Pickled (p : params).

(** One run of [http_polopt]: the text of the status response, whether the
    task upload returns, and the reply of the optimisation request. *)
Record remote_run := {
  init_status : string;
  init_task_ok : bool;
  optimize_reply : http_reply
}.

(** One pass of the scheduler loop: whether [env.init_params] returns
    (line 296), what [apply_controller] returns (line 322; [None]: it
    raises), and whether [exp.save()] returns (line 332). *)
Record cycle_run := {
  init_params_ok : bool;
  apply_controller : option trajectory;
  save_ok : bool
}.

(** ** [mc_pilco_polopt], lines 65-151 *)

(** [len([p for p in exp.policy_parameters if len(p) > 0])], line 145 *)
Definition n_polopt_iters (exp : ExperienceDataset) : Z :=
  Z.of_nat (length (List.filter (fun p : params => (0 <? length p)%nat)
                                (policy_parameters exp))).

Definition mc_pilco_polopt (r : local_run) (task_name : string) : M unit :=
  do task_spec <- read_spec task_name;
  do st <- read_state;
  (if negb (st =? "init")%string then
     (* line 81 *)
     emit task_name Train;;
     external "train_dynamics" (train_dynamics_ok r);;
     (* lines 85-120 *)
     (match loss_fn task_spec with
      | None =>
          write_task_state task_name "compile_polopt";;
          update_spec task_name (fun sp => with_extra_in sp (extra_inputs r));;
          emit task_name Compile;;
          external "set_objective" (set_objective_ok r);;
          update_spec task_name with_objective
      | Some _ => ret tt
      end);;
     (* lines 123-142 *)
     write_task_state task_name "update_polopt";;
     do sp <- read_spec task_name;
     (match extra_in sp with
      | None => raise (TypeError "len(OrderedDict)")
      | Some _ => ret tt
      end);;
     emit task_name Minimize;;
     (match minimize r with
      | None => raise (ExternalError "minimize")
      | Some p => update_spec task_name (fun sp => with_policy_params sp p)
      end);;
     write_task_state task_name "ready"
   else ret tt);;
  (* lines 144-149 *)
  do sp <- read_spec task_name;
  when (n_opt sp <=? n_polopt_iters (experience sp))
       (write_task_state task_name "done");;
  queue_put task_name.

(** ** [http_polopt], lines 154-189 *)

Definition not_found_text (task_name : string) : string :=
  "get_task_init_status/" +:+ task_name +:+ ": NOT FOUND".

Definition http_polopt (r : remote_run) (task_name : string) : M unit :=
  do task_spec <- read_spec task_name;
  (* lines 163-168 *)
  when (init_status r =? not_found_text task_name)%string
       (external "init_task" (init_task_ok r));;
  (* lines 173-184 *)
  emit task_name HttpOptimize;;
  (* lines 186-187 *)
  (match optimize_reply r with
   | ConnectionError => raise (ExternalError "requests.post")
   | Malformed => raise (ExternalError "pickle.loads")
   | Pickled p => update_spec task_name (fun sp => with_policy_params sp p)
   end);;
  (* line 189 *)
  queue_put task_name.

Definition run_polopt (fn : polopt) (l : local_run) (r : remote_run)
    (task_name : string) : M unit :=
  match fn with
  | Fn_mc_pilco_polopt => mc_pilco_polopt l task_name
  | Fn_http_polopt => http_polopt r task_name
  end.

(** ** The scheduler loop, lines 272-339 *)

(** The loop condition of line 272.  Iterating over the dictionary
    [task_state] yields its keys. *)
Definition loop_guard (w : World) : bool :=
  negb (forallb (fun st => (st =? "done")%string) (map_to_list (task_state w)).*1).

(** The names bound at module level when the loop runs: those every module
    has, the imports, the functions and every variable the main block
    assigns (in Python 2 also the variable of a list comprehension).  A
    name that is not found here is looked up among the builtins, which
    have no [task_id]. *)
Definition module_globals : list string :=
  [ "__name__"; "__doc__"; "__file__"; "__package__"; "__builtins__";
    "argparse"; "np"; "os"; "rospy"; "threading"; "yaml"; "requests";
    "pickle"; "OrderedDict"; "partial"; "Queue"; "Empty"; "ROSPlant";
    "apply_controller"; "train_dynamics"; "preprocess_angles";
    "ExperienceDataset"; "mc_pilco"; "RandPolicy"; "utils";
    "numpy_code_constructor"; "include_constructor"; "default_config";
    "parse_config"; "mc_pilco_polopt"; "http_polopt";
    "parser"; "args"; "load_experience"; "config"; "output_directory"; "e";
    "dir_time"; "target_dir"; "plant_params"; "env"; "tasks"; "task_state";
    "polopt_threads"; "task_name"; "spec"; "exp"; "pol"; "st";
    "new_task_ready"; "name"; "state"; "H"; "preprocess"; "experience";
    "states"; "actions"; "costs"; "infos"; "info"; "ts"; "pol_params";
    "new_thread" ].

(** Evaluating a name that is not a local: found among the globals or
    [NameError]. *)
Definition lookup_global (g : list string) (x : string) : M unit :=
  if existsb (String.eqb x) g then ret tt else raise (NameError x).

(** [threading.Thread(name=name, target=polopt_fn, args=...).start()] *)
Definition start_thread (fn : polopt) (name : string) : M unit :=
  fun w => (Ok tt, set_log (set_started w (started w ++ [(fn, name)]))
                           (log w ++ [(name, Start fn)])).

(** [spec.get('polopt_fn', config.get('default_polopt_fn', http_polopt))] *)
Definition chosen_polopt (spec : TaskSpec) (config_default : option polopt) : polopt :=
  match polopt_fn spec with
  | Some fn => fn
  | None => match config_default with
            | Some fn => fn
            | None => Fn_http_polopt
            end
  end.

Definition choose_polopt (spec : TaskSpec) : M polopt :=
  fun w => (Ok (chosen_polopt spec (default_polopt_fn w)), w).

(** Lines 327-328.  kusanagi's [RandPolicy] has no attribute [params]. *)
Definition episode_pol_params (pol : acting_policy) (spec : TaskSpec) : params :=
  match pol with
  | RandPolicy => []
  | LearnedPolicy =>
      if has_params (policy spec) then pol_params (policy spec) else []
  end.

(** Lines 284-339: one pass of the loop on the dequeued task [name], after
    the log file has been set. *)
Definition cycle (c : cycle_run) (name : string) : M unit :=
  (* lines 284-285 *)
  do st <- read_task_state name;
  assign_state st;;
  do spec <- read_spec name;
  if (st =? "done")%string then
    (* lines 286-289: continue *)
    ret tt
  else
    (* line 296 *)
    emit name InitParams;;
    external "init_params" (init_params_ok c);;
    (* lines 299-312 *)
    do choice <-
      (if (st =? "init")%string && (0 <? initial_random_trials spec) then
         update_spec name
           (fun sp => with_initial_random_trials sp (initial_random_trials sp - 1));;
         when (initial_random_trials spec - 1 <? 1) (assign_state "ready");;
         ret (RandPolicy, Fn_mc_pilco_polopt)
       else
         do fn <- choose_polopt spec;
         ret (LearnedPolicy, fn));
    let '(pol, polopt_fn) := choice in
    (* line 322 *)
    emit name (Episode pol);;
    do tr <- (match apply_controller c with
              | Some tr => ret tr
              | None => raise (ExternalError "apply_controller")
              end);
    (* lines 325-333 *)
    update_spec name
      (fun sp => with_experience sp
                   (append_episode (experience sp) tr (episode_pol_params pol sp)));;
    (* line 332 *)
    external "exp.save" (save_ok c);;
    (* lines 336-339 *)
    start_thread polopt_fn name.

(** Lines 282-339: the body of the loop once [tasks.get] has returned
    [name].  Line 282 evaluates the name [task_id]. *)
Definition loop_body (g : list string) (c : cycle_run) (name : string) : M unit :=
  lookup_global g "task_id";;
  cycle c name.

(** One turn of the main thread.  With an empty queue [tasks.get] times out
    and is tried again, so the main thread does not move.  An exception
    that leaves the loop ends the main thread. *)
Definition main_step (g : list string) (c : cycle_run) (w : World) : option World :=
  match main w with
  | Running =>
      if loop_guard w then
        match tasks w with
        | [] => None
        | name :: q =>
            let w1 := set_log (set_tasks w q) (log w ++ [(name, Get)]) in
            match loop_body g c name w1 with
            | (Ok _, w2) => Some w2
            | (Raise e, w2) => Some (set_main w2 (Crashed e))
            end
        end
      else Some (set_main w Finished)
  | _ => None
  end.

(** A started thread runs its target to the end, or to the exception that
    kills it.  The run is one step, taken when the pass reads the variable
    [state] on line 78: apart from that variable a pass reads and writes
    only the entries of its own task, and its [tasks.put] comes last. *)
Definition thread_step (i : nat) (l : local_run) (r : remote_run) (w : World)
    : option World :=
  match started w !! i with
  | Some (fn, name) =>
      Some (run_polopt fn l r name (set_started w (delete i (started w)))).2
  | None => None
  end.

Inductive action :=
| MainLoop (c : cycle_run)
| RunThread (i : nat) (l : local_run) (r : remote_run).

Definition step (g : list string) (a : action) (w : World) : option World :=
  match a with
  | MainLoop c => main_step g c w
  | RunThread i l r => thread_step i l r w
  end.

(** A schedule is a list of actions; an action that is not enabled is
    skipped. *)
Fixpoint exec (g : list string) (sched : list action) (w : World) : World :=
  match sched with
  | [] => w
  | a :: sched' =>
      match step g a w with
      | Some w' => exec g sched' w'
      | None => exec g sched' w
      end
  end.

(** ** Populating the queue, lines 243-269 *)

(** An entry of [config['tasks']] as the configuration file gives it: the
    spec and whether it has the key [experience]. *)
Record task_entry := {
  entry_spec : TaskSpec;
  entry_has_experience : bool
}.

Fixpoint for_each {S A} (f : A -> program S unit) (l : list A) : program S unit :=
  match l with
  | [] => ret tt
  | x :: l' => f x;; for_each f l'
  end.

(** The body of the loop of line 248.  [disk name] is what [exp.load()]
    finds for a fresh dataset of that name ([None]: it raises, and the
    [except] of line 258 leaves the dataset empty). *)
Definition populate_task (disk : string -> option ExperienceDataset)
    (rs : string -> remote_run) (item : string * bool) : M unit :=
  let '(task_name, given) := item in
  (if given then ret tt
   else
     match disk task_name with
     | Some e =>
         update_spec task_name (fun sp => with_experience sp e);;
         match last (policy_parameters e) with
         | Some p => update_spec task_name (fun sp => with_policy_params sp p)
         | None => ret tt
         end
     | None => update_spec task_name (fun sp => with_experience sp empty_experience)
     end);;
  write_task_state task_name "init";;
  do spec <- read_spec task_name;
  if (0 <? length (policy_parameters (experience spec)))%nat then
    http_polopt (rs task_name) task_name
  else
    queue_put task_name.

Definition initial_world (cfg : gmap string task_entry) (default : option polopt)
    : World :=
  {| tasks := []; task_state := ∅; state := None;
     config_tasks := entry_spec <$> cfg; default_polopt_fn := default;
     started := []; main := Running; log := [] |}.

Definition populate (cfg : gmap string task_entry)
    (disk : string -> option ExperienceDataset) (rs : string -> remote_run) : M unit :=
  for_each (populate_task disk rs)
           (prod_map id entry_has_experience <$> map_to_list cfg).

(** The world in which the loop of line 272 starts.  An exception during
    start-up ends the main thread before the loop. *)
Definition boot (cfg : gmap string task_entry) (default : option polopt)
    (disk : string -> option ExperienceDataset) (rs : string -> remote_run) : World :=
  match populate cfg disk rs (initial_world cfg default) with
  | (Ok _, w) => w
  | (Raise e, w) => set_main w (Crashed e)
  end.

(** ** The output directory, lines 221-234 *)

(** A directory: its change time as [str(os.stat(d).st_ctime)] prints it,
    and the names it contains. *)
Record directory := {
  st_ctime : string;
  entries : list string
}.

(** The file system, by path.  The clock gives the change time of the next
    directory made. *)
Record FileSystem := {
  dirs : gmap string directory;
  clock : string
}.

Abbreviation F := (program FileSystem).

Definition os_mkdir (path : string) : F unit :=
  fun fs => match dirs fs !! path with
            | Some _ => (Raise (OSError path), fs)
            | None => (Ok tt, {| dirs := <[path := {| st_ctime := clock fs; entries := [] |}]> (dirs fs);
                                 clock := clock fs |})
            end.

Definition os_stat (path : string) : F directory :=
  fun fs => match dirs fs !! path with
            | Some d => (Ok d, fs)
            | None => (Raise (OSError path), fs)
            end.

(** [os.rename(src, dst)]: [src] must exist; an existing [dst] is replaced
    only if it is an empty directory.  The directory keeps its contents;
    the renaming is a change of the directory, so its change time is that
    of the renaming. *)
Definition os_rename (src dst : string) : F unit :=
  fun fs => match dirs fs !! src with
            | None => (Raise (OSError src), fs)
            | Some d =>
                match dirs fs !! dst with
                | Some {| entries := _ :: _ |} => (Raise (OSError dst), fs)
                | _ => (Ok tt,
                        {| dirs := <[dst := {| st_ctime := clock fs;
                                               entries := entries d |}]>
                                     (delete src (dirs fs));
                           clock := clock fs |})
                end
            end.

Definition is_slash (c : ascii) : bool := Ascii.eqb c "/"%char.

Fixpoint lstrip_slashes (l : list ascii) : list ascii :=
  match l with
  | c :: l' => if is_slash c then lstrip_slashes l' else l
  | [] => []
  end.

Fixpoint from_first_slash (l : list ascii) : list ascii :=
  match l with
  | c :: l' => if is_slash c then l else from_first_slash l'
  | [] => []
  end.

(** [posixpath.dirname]: the path up to and including its last slash, with
    the trailing slashes removed unless nothing else is left. *)
Definition dirname (p : string) : string :=
  let head := from_first_slash (rev (list_ascii_of_string p)) in
  match lstrip_slashes head with
  | [] => string_of_list_ascii (rev head)
  | stripped => string_of_list_ascii (rev stripped)
  end.

(** Line 229 *)
Definition target_dir (output_directory dir_time : string) : string :=
  dirname output_directory +:+ "_" +:+ dir_time.

Definition init_output_dir (load_experience : bool) (output_directory : string) : F unit :=
  try_except (os_mkdir output_directory)
    (fun e =>
       if negb load_experience then
         do d <- os_stat output_directory;
         os_rename output_directory (target_dir output_directory (st_ctime d));;
         os_mkdir output_directory
       else ret tt).


(** ** Reading the log *)

(** The operations on one task, in order. *)
Definition ops_of (name : string) (l : list event) : list op :=
  (List.filter (fun e : event => (e.1 =? name)%string) l).*2.

(** The values assigned to a recorded state, in order. *)
Definition write_of (o : op) : option string :=
  match o with
  | SetState st => Some st
  | _ => None
  end.

Definition op_writes (l : list op) : list string := omap write_of l.

(** The values written to [task_state[name]], in order. *)
Definition writes (name : string) (l : list event) : list string :=
  op_writes (ops_of name l).

(** The steps the recorded state of a task takes in the code: a pass of
    [mc_pilco_polopt] goes from [init] or [ready] through [compile_polopt]
    (line 87) and [update_polopt] (line 123) to [ready] (line 142), and
    from [init] or [ready] to [done] (line 147).  Nothing leaves [done]. *)
Definition transition (a b : string) : bool :=
  if ((a =? "init") || (a =? "ready"))%string then
    ((b =? "compile_polopt") || (b =? "update_polopt") || (b =? "done"))%string
  else if (a =? "compile_polopt")%string then (b =? "update_polopt")%string
  else if (a =? "update_polopt")%string then (b =? "ready")%string
  else false.

Fixpoint chain (l : list string) : bool :=
  match l with
  | a :: l' =>
      match l' with
      | b :: _ => transition a b && chain l'
      | [] => true
      end
  | [] => true
  end.

(** A history of recorded states: it starts at [init] (line 261) and every
    step is a [transition]. *)
Definition path_ok (l : list string) : bool :=
  match l with
  | [] => true
  | a :: _ => (a =? "init")%string && chain l
  end.

(** How often a name occurs in a list of names. *)
Definition occurrences (name : string) (l : list string) : nat :=
  length (List.filter (String.eqb name) l).

(** The queue items and started threads of a task. *)
Definition tokens (name : string) (w : World) : nat :=
  (occurrences name (tasks w) + occurrences name (started w).*2)%nat.

Definition is_compile (o : op) : bool :=
  match o with
  | Compile => true
  | _ => false
  end.

Definition op_compilations (l : list op) : nat := length (List.filter is_compile l).

(** How often lines 106-120 were entered for a task. *)
Definition compilations (name : string) (l : list event) : nat :=
  op_compilations (ops_of name l).

(** The operations on the robot: [env.init_params] and [apply_controller]. *)
Definition is_robot (o : op) : bool :=
  match o with
  | InitParams | Episode _ => true
  | _ => false
  end.

Definition is_start (o : op) : bool :=
  match o with
  | Start _ => true
  | _ => false
  end.

(** The acting policies of the episodes of a task, in order. *)
Definition episode_of (o : op) : option acting_policy :=
  match o with
  | Episode pol => Some pol
  | _ => None
  end.

Definition episodes_of (name : string) (l : list event) : list acting_policy :=
  omap episode_of (ops_of name l).

(** The experience of every task. *)
Definition experiences (w : World) : gmap string ExperienceDataset :=
  experience <$> config_tasks w.

(** ** A concrete task

    One task, [cartpole], with four random trials and one optimisation
    iteration to do; every external call returns. *)
Module Cartpole.

Definition spec (fn : option polopt) : TaskSpec :=
  {| experience := empty_experience;
     policy := {| has_params := true; pol_params := [1] |};
     loss_fn := None; extra_in := None; n_opt := 1;
     initial_random_trials := 4; polopt_fn := fn |}.

Definition cfg (fn : option polopt) : gmap string task_entry :=
  {[ "cartpole" := {| entry_spec := spec fn; entry_has_experience := false |} ]}.

Definition local_ok : local_run :=
  {| train_dynamics_ok := true; extra_inputs := []; set_objective_ok := true;
     minimize := Some [2] |}.

Definition remote_ok : remote_run :=
  {| init_status := "OK"; init_task_ok := true; optimize_reply := Pickled [3] |}.

Definition cycle_ok : cycle_run :=
  {| init_params_ok := true; apply_controller := Some [0]; save_ok := true |}.


Definition no_disk (_ : string) : option ExperienceDataset := None.

(** The world at line 272. *)
Definition start (fn : option polopt) : World :=
  boot (cfg fn) None no_disk (fun _ => remote_ok).

(** A pass of the loop followed by the thread it starts. *)
Definition round : list action := [MainLoop cycle_ok; RunThread 0 local_ok remote_ok].

Definition rounds (n : nat) : list action := concat (repeat round n).

(** The namespace of the script with the name [task_id] added. *)
Definition with_task_id : list string := "task_id" :: module_globals.

(** Four rounds under the local strategy, then the fifth pass of the loop:
    its thread is started and has not run. *)
Definition fifth_pass_started : World :=
  exec with_task_id (rounds 4 ++ [MainLoop cycle_ok])
       (start (Some Fn_mc_pilco_polopt)).

(** Five rounds under the local strategy: the task is [done] and on the
    queue. *)
Definition finished : World :=
  exec with_task_id (rounds 5) (start (Some Fn_mc_pilco_polopt)).

(** Experience of an earlier run on disk, with one set of policy
    parameters: the start-up optimises at once (line 267). *)
Definition stored (_ : string) : option ExperienceDataset :=
  Some {| episodes := [[0]]; policy_parameters := [[1]] |}.

Definition resumed : World :=
  boot (cfg None) None stored (fun _ => remote_ok).

(** The same start-up when the service sends a reply that [pickle.loads]
    cannot read. *)
Definition resumed_malformed : World :=
  boot (cfg None) None stored
       (fun _ => {| init_status := "OK"; init_task_ok := true;
                    optimize_reply := Malformed |}).

(** A pass in which [optimizer.minimize] raises. *)
Definition minimize_fails : local_run :=
  {| train_dynamics_ok := true; extra_inputs := []; set_objective_ok := true;
     minimize := None |}.

End Cartpole.

(** ** Two tasks

    [cartpole] and [pendulum], both under the local strategy; [cartpole]
    comes first in the queue. *)
Module TwoTasks.

Definition cfg : gmap string task_entry :=
  {[ "cartpole" := {| entry_spec := Cartpole.spec (Some Fn_mc_pilco_polopt);
                      entry_has_experience := false |};
     "pendulum" := {| entry_spec := Cartpole.spec (Some Fn_mc_pilco_polopt);
                      entry_has_experience := false |} ]}.

(** After the first pass of the loop: the thread of [cartpole] is started
    and has not run, [pendulum] waits in the queue. *)
Definition first_started : World :=
  exec Cartpole.with_task_id [MainLoop Cartpole.cycle_ok]
       (boot cfg None Cartpole.no_disk (fun _ => Cartpole.remote_ok)).

End TwoTasks.

(** ** The effect of a pass and the invariant of the scheduler *)

Definition is_ok {A} (r : result A) : bool :=
  match r with
  | Ok _ => true
  | Raise _ => false
  end.

(** The entries of all tasks but [n] are as before. *)
Definition others_kept (n : string) (w w' : World) : Prop :=
  forall m, m <> n ->
    task_state w' !! m = task_state w !! m /\
    config_tasks w' !! m = config_tasks w !! m.

(** The operations logged between two worlds. *)
Definition new_ops (w w' : World) : list op :=
  (drop (length (log w)) (log w')).*2.

(** What a run of a thread on task [n] does to the world: [ops] are the
    operations it logs, all on [n]; [r] is how it ends. *)
Record pass_effect (n : string) (w : World) (r : result unit) (w' : World)
    (ops : list op) : Prop := {
  pe_state : state w' = state w;
  pe_started : started w' = started w;
  pe_main : main w' = main w;
  pe_default : default_polopt_fn w' = default_polopt_fn w;
  pe_others : others_kept n w w';
  pe_log : log w' = log w ++ (pair n <$> ops);
  pe_tasks : tasks w' = tasks w ++ (if is_ok r then [n] else []);
  pe_quiet : forallb (fun o => negb (is_robot o) && negb (is_start o)) ops = true;
  pe_recorded :
    task_state w' !! n = from_option Some (task_state w !! n) (last (op_writes ops));
  pe_chain :
    forall s0, s0 = "init" \/ s0 = "ready" -> chain (s0 :: op_writes ops) = true;
  pe_final :
    is_ok r = true ->
    from_option (fun s => s = "ready" \/ s = "done") True (last (op_writes ops));
  pe_compile_once : (op_compilations ops <= 1)%nat;
  pe_compile_writes :
    occurrences "compile_polopt" (op_writes ops) = op_compilations ops;
  pe_spec :
    forall sp, config_tasks w !! n = Some sp ->
      exists sp', config_tasks w' !! n = Some sp' /\
        experience sp' = experience sp /\
        polopt_fn sp' = polopt_fn sp /\
        (extra_in sp <> None -> extra_in sp' <> None) /\
        (loss_fn sp <> None -> loss_fn sp' <> None /\ op_compilations ops = 0%nat);
  pe_compiled :
    op_compilations ops <> 0%nat -> is_ok r = true ->
    exists sp', config_tasks w' !! n = Some sp' /\
                loss_fn sp' <> None /\ extra_in sp' <> None
}.

(** What the body of the loop of line 248 does to the world, for task
    [n]. *)
Record populate_effect (n : string) (w : World) (r : result unit) (w' : World)
    (ops : list op) : Prop := {
  po_state : state w' = state w;
  po_started : started w' = started w;
  po_main : main w' = main w;
  po_others : others_kept n w w';
  po_log : log w' = log w ++ (pair n <$> ops);
  po_tasks : tasks w' = tasks w ++ (if is_ok r then [n] else []);
  po_quiet : forallb (fun o => negb (is_robot o) && negb (is_start o)) ops = true;
  po_writes : op_writes ops = [] /\ is_ok r = false \/ op_writes ops = ["init"];
  po_recorded :
    task_state w' !! n = from_option Some (task_state w !! n) (last (op_writes ops));
  po_compile : op_compilations ops = 0%nat
}.

(** A task the loop of line 248 has not come to yet. *)
Definition untouched (n : string) (w : World) : Prop :=
  tokens n w = 0%nat /\ ops_of n (log w) = [].

(** What lines 284-339 do to the world, for the dequeued task [n]. *)
Record cycle_effect (n : string) (w : World) (r : result unit) (w' : World)
    (ops : list op) : Prop := {
  ce_tasks : tasks w' = tasks w;
  ce_task_state : task_state w' = task_state w;
  ce_main : main w' = main w;
  ce_default : default_polopt_fn w' = default_polopt_fn w;
  ce_others : others_kept n w w';
  ce_log : log w' = log w ++ (pair n <$> ops);
  ce_quiet : op_writes ops = [] /\ op_compilations ops = 0%nat /\
             forallb (fun o => match o with Put | Get => false | _ => true end) ops = true;
  ce_started :
    started w' = started w \/
    (exists fn, started w' = started w ++ [(fn, n)] /\
       (task_state w !! n = Some "init" \/
        forall sp, config_tasks w !! n = Some sp ->
                   fn = chosen_polopt sp (default_polopt_fn w))) /\
    task_state w !! n <> Some "done" /\ is_Some (task_state w !! n) /\ is_ok r = true;
  ce_spec :
    forall sp, config_tasks w !! n = Some sp ->
      exists sp', config_tasks w' !! n = Some sp' /\
                  loss_fn sp' = loss_fn sp /\ extra_in sp' = extra_in sp /\
                  polopt_fn sp' = polopt_fn sp
}.

(** The invariant of a task: it has at most one queue item or started
    thread; the log agrees with its recorded state and is a path of the
    state machine; while it has a queue item or a thread its recorded state
    is [init], [ready] or [done], and not [done] while it has a thread; its
    objective was built at most once, and if it was built and the task is
    still scheduled, the optimiser has its loss function and the spec its
    key [extra_in]. *)
Record task_inv (n : string) (w : World) : Prop := {
  inv_tokens : (tokens n w <= 1)%nat;
  inv_recorded : last (writes n (log w)) = task_state w !! n;
  inv_path : path_ok (writes n (log w)) = true;
  inv_scheduled :
    (0 < tokens n w)%nat ->
    task_state w !! n = Some "init" \/ task_state w !! n = Some "ready" \/
    task_state w !! n = Some "done";
  inv_started : n ∈ (started w).*2 -> task_state w !! n <> Some "done";
  inv_compile_once : (compilations n (log w) <= 1)%nat;
  inv_compile_writes :
    occurrences "compile_polopt" (writes n (log w)) = compilations n (log w);
  inv_compiled :
    compilations n (log w) <> 0%nat -> (0 < tokens n w)%nat ->
    exists sp, config_tasks w !! n = Some sp /\
               loss_fn sp <> None /\ extra_in sp <> None
}.

Definition inv (w : World) : Prop := forall n, task_inv n w.

(** A task that is [ready] and has no strategy of its own, in a
    configuration without [default_polopt_fn]: line 310 picks
    [http_polopt] for it. *)
Record remote_only (n : string) (w : World) : Prop := {
  ro_ready : task_state w !! n = Some "ready";
  ro_default : default_polopt_fn w = None;
  ro_spec : exists sp, config_tasks w !! n = Some sp /\ polopt_fn sp = None;
  ro_threads : forall fn, (fn, n) ∈ started w -> fn = Fn_http_polopt
}.

(** ** Counting episodes and threads *)

Definition is_rand (p : acting_policy) : bool :=
  match p with
  | RandPolicy => true
  | LearnedPolicy => false
  end.

(** The episodes run under [RandPolicy]. *)
Definition op_rand_episodes (l : list op) : nat :=
  length (List.filter is_rand (omap episode_of l)).

Definition rand_episodes (name : string) (l : list event) : nat :=
  op_rand_episodes (ops_of name l).

(** The threads started. *)
Definition op_starts (l : list op) : nat := length (List.filter is_start l).

Definition starts (name : string) (l : list event) : nat :=
  op_starts (ops_of name l).

(** The books of a task: the random trials left plus the episodes begun
    under [RandPolicy]. *)
Definition books (n : string) (w : World) : option Z :=
  (fun sp => initial_random_trials sp + Z.of_nat (rand_episodes n (log w)))
  <$> config_tasks w !! n.


(** The operations on the robot for one task, in order. *)
Definition robot_ops (name : string) (l : list event) : list op :=
  List.filter is_robot (ops_of name l).

(** The episodes begun under the task's own policy (line 309). *)
Definition op_learned_episodes (l : list op) : nat :=
  length (List.filter (fun p => negb (is_rand p)) (omap episode_of l)).

Definition learned_episodes (name : string) (l : list event) : nat :=
  op_learned_episodes (ops_of name l).

(** ** What a scheduled task can rely on *)

(** A task with an item on the queue or a started thread. *)
Definition scheduled (n : string) (w : World) : Prop :=
  n ∈ tasks w \/ n ∈ (started w).*2.

(** Every scheduled task has a recorded state and a spec, and the variable
    [state] is bound while a thread waits to run. *)
Record wired (w : World) : Prop := {
  wired_keys :
    forall n, scheduled n w ->
      is_Some (task_state w !! n) /\ is_Some (config_tasks w !! n);
  wired_state : started w <> [] -> is_Some (state w)
}.

(** ** Two tasks and a late thread

    [cartpole] has one random trial and [pendulum] three, both under the
    local strategy with three iterations to do.  In [overtaken] the loop
    has started a thread for [cartpole], which is [ready], and has then
    taken [pendulum] off the queue before that thread ran. *)
Module Race.

Definition spec (trials : Z) : TaskSpec :=
  {| experience := empty_experience;
     policy := {| has_params := true; pol_params := [1] |};
     loss_fn := None; extra_in := None; n_opt := 3;
     initial_random_trials := trials;
     polopt_fn := Some Fn_mc_pilco_polopt |}.

Definition cfg : gmap string task_entry :=
  {[ "cartpole" := {| entry_spec := spec 1; entry_has_experience := false |};
     "pendulum" := {| entry_spec := spec 3; entry_has_experience := false |} ]}.

Definition overtaken : World :=
  exec Cartpole.with_task_id
       [ MainLoop Cartpole.cycle_ok;
         RunThread 0 Cartpole.local_ok Cartpole.remote_ok;
         MainLoop Cartpole.cycle_ok;
         RunThread 0 Cartpole.local_ok Cartpole.remote_ok;
         MainLoop Cartpole.cycle_ok;
         MainLoop Cartpole.cycle_ok ]
       (boot cfg None Cartpole.no_disk (fun _ => Cartpole.remote_ok)).

End Race.

(** ** The path of an included file, lines 33-37 *)

(** [os.path.isabs] *)
Definition isabs (p : string) : bool :=
  match p with
  | String c _ => is_slash c
  | EmptyString => false
  end.

(** [os.path.join] of two paths. *)
Definition path_join (a b : string) : string :=
  if isabs b then b
  else
    match last (list_ascii_of_string a) with
    | None => a +:+ b
    | Some c => if is_slash c then a +:+ b else a +:+ "/" +:+ b
    end.

(** [os.path.abspath]; [normpath] is [os.path.normpath] and [cwd] what
    [os.getcwd()] returns. *)
Definition abspath (normpath : string -> string) (cwd p : string) : string :=
  if isabs p then normpath p else normpath (path_join cwd p).

(** The file [include_constructor] opens for the scalar [filename] of a
    document read from the stream named [stream_name]. *)
Definition include_path (normpath : string -> string) (cwd stream_name filename : string)
    : string :=
  if negb (isabs filename) then
    abspath normpath cwd (path_join (dirname stream_name) filename)
  else filename.

(** ** The same functions, one operation at a time

    Between two operations of one thread the others may run.  To follow
    that, a function of the script is also given as the sequence of its
    operations: a [prog] is finished ([Ret]) or has a next operation and
    what follows it ([Act]). *)

Inductive prog (A : Type) : Type :=
| Ret (a : A)
| Act {X : Type} (m : M X) (k : X -> prog A).
Arguments Ret {A} a.
Arguments Act {A X} m k.

Fixpoint pbind {A B} (p : prog A) (f : A -> prog B) : prog B :=
  match p with
  | Ret a => f a
  | Act m k => Act m (fun x => pbind (k x) f)
  end.

(** One operation. *)
Definition act {X} (m : M X) : prog X := Act m Ret.

(** Running a sequence of operations without interruption. *)
Fixpoint run {A} (p : prog A) : M A :=
  match p with
  | Ret a => ret a
  | Act m k => bind m (fun x => run (k x))
  end.

Declare Scope steps_scope.
Delimit Scope steps_scope with steps.
Notation "'do' x <- m ; k" := (pbind m (fun x => k))
  (at level 10, x name, m at level 99, k at level 200) : steps_scope.
Notation "m ;; k" := (pbind m (fun _ => k))
  (at level 100, k at level 200, only parsing, right associativity) : steps_scope.

(** [mc_pilco_polopt], lines 65-151, operation by operation. *)
Definition mc_pilco_polopt_steps (r : local_run) (task_name : string) : prog unit :=
  (do task_spec <- act (read_spec task_name);
   do st <- act read_state;
   (if negb (st =? "init")%string then
      (* line 81 *)
      act (emit task_name Train);;
      act (external "train_dynamics" (train_dynamics_ok r));;
      (* lines 85-120 *)
      (match loss_fn task_spec with
       | None =>
           act (write_task_state task_name "compile_polopt");;
           act (update_spec task_name (fun sp => with_extra_in sp (extra_inputs r)));;
           act (emit task_name Compile);;
           act (external "set_objective" (set_objective_ok r));;
           act (update_spec task_name with_objective)
       | Some _ => Ret tt
       end);;
      (* lines 123-142 *)
      act (write_task_state task_name "update_polopt");;
      do sp <- act (read_spec task_name);
      act (match extra_in sp with
           | None => raise (TypeError "len(OrderedDict)")
           | Some _ => ret tt
           end);;
      act (emit task_name Minimize);;
      act (match minimize r with
           | None => raise (ExternalError "minimize")
           | Some p => update_spec task_name (fun sp => with_policy_params sp p)
           end);;
      act (write_task_state task_name "ready")
    else Ret tt);;
   (* lines 144-149 *)
   do sp <- act (read_spec task_name);
   act (when (n_opt sp <=? n_polopt_iters (experience sp))
             (write_task_state task_name "done"));;
   act (queue_put task_name))%steps.

(** [http_polopt], lines 154-189, operation by operation. *)
Definition http_polopt_steps (r : remote_run) (task_name : string) : prog unit :=
  (do task_spec <- act (read_spec task_name);
   act (when (init_status r =? not_found_text task_name)%string
             (external "init_task" (init_task_ok r)));;
   act (emit task_name HttpOptimize);;
   act (match optimize_reply r with
        | ConnectionError => raise (ExternalError "requests.post")
        | Malformed => raise (ExternalError "pickle.loads")
        | Pickled p => update_spec task_name (fun sp => with_policy_params sp p)
        end);;
   act (queue_put task_name))%steps.

Definition run_polopt_steps (fn : polopt) (l : local_run) (r : remote_run)
    (task_name : string) : prog unit :=
  match fn with
  | Fn_mc_pilco_polopt => mc_pilco_polopt_steps l task_name
  | Fn_http_polopt => http_polopt_steps r task_name
  end.

(** Lines 284-339, operation by operation. *)
Definition cycle_steps (c : cycle_run) (name : string) : prog unit :=
  (do st <- act (read_task_state name);
   act (assign_state st);;
   do spec <- act (read_spec name);
   if (st =? "done")%string then Ret tt
   else
     act (emit name InitParams);;
     act (external "init_params" (init_params_ok c));;
     do choice <-
       (if (st =? "init")%string && (0 <? initial_random_trials spec) then
          act (update_spec name
                 (fun sp => with_initial_random_trials sp
                              (initial_random_trials sp - 1)));;
          act (when (initial_random_trials spec - 1 <? 1) (assign_state "ready"));;
          Ret (RandPolicy, Fn_mc_pilco_polopt)
        else
          do fn <- act (choose_polopt spec);
          Ret (LearnedPolicy, fn));
     let '(pol, polopt_fn) := choice in
     act (emit name (Episode pol));;
     do tr <- act (match apply_controller c with
                   | Some tr => ret tr
                   | None => raise (ExternalError "apply_controller")
                   end);
     act (update_spec name
            (fun sp => with_experience sp
                         (append_episode (experience sp) tr
                                         (episode_pol_params pol sp))));;
     act (external "exp.save" (save_ok c));;
     act (start_thread polopt_fn name))%steps.

Definition loop_body_steps (g : list string) (c : cycle_run) (name : string)
    : prog unit :=
  (act (lookup_global g "task_id");; cycle_steps c name)%steps.

(** The script with its threads in flight.  [serving] is the task the main
    thread has taken off the queue and what is left of the body of the
    loop for it; [running] holds the threads that have begun, each with its
    task and what is left of its function.  A thread in [started] has not
    begun yet. *)
Record Conc := {
  shared : World;
  serving : option (string * prog unit);
  running : list (string * prog unit)
}.

(** What can happen next: the main thread takes its next step (a
    [tasks.get] that returns, the test of the loop condition, or the next
    operation of the body of the loop); a started thread begins; a thread
    that has begun performs its next operation. *)
Inductive micro :=
| MainTurn (c : cycle_run)
| ThreadBegin (i : nat) (l : local_run) (r : remote_run)
| ThreadAct (j : nat).

Definition main_turn (g : list string) (cr : cycle_run) (c : Conc) : option Conc :=
  let w := shared c in
  match main w with
  | Running =>
      match serving c with
      | None =>
          if loop_guard w then
            match tasks w with
            | [] => None
            | name :: q =>
                Some {| shared := set_log (set_tasks w q) (log w ++ [(name, Get)]);
                        serving := Some (name, loop_body_steps g cr name);
                        running := running c |}
            end
          else Some {| shared := set_main w Finished; serving := None;
                       running := running c |}
      | Some (name, Ret _) =>
          Some {| shared := w; serving := None; running := running c |}
      | Some (name, Act m k) =>
          match m w with
          | (Ok x, w') =>
              Some {| shared := w'; serving := Some (name, k x);
                      running := running c |}
          | (Raise e, w') =>
              Some {| shared := set_main w' (Crashed e); serving := None;
                      running := running c |}
          end
      end
  | _ => None
  end.

Definition thread_begin (i : nat) (l : local_run) (r : remote_run) (c : Conc)
    : option Conc :=
  let w := shared c in
  match started w !! i with
  | Some (fn, name) =>
      Some {| shared := set_started w (delete i (started w));
              serving := serving c;
              running := running c ++ [(name, run_polopt_steps fn l r name)] |}
  | None => None
  end.

Definition thread_act (j : nat) (c : Conc) : option Conc :=
  match running c !! j with
  | Some (name, Ret _) =>
      Some {| shared := shared c; serving := serving c;
              running := delete j (running c) |}
  | Some (name, Act m k) =>
      match m (shared c) with
      | (Ok x, w') =>
          Some {| shared := w'; serving := serving c;
                  running := <[j := (name, k x)]> (running c) |}
      | (Raise e, w') =>
          Some {| shared := w'; serving := serving c;
                  running := delete j (running c) |}
      end
  | None => None
  end.

Definition micro_step (g : list string) (a : micro) (c : Conc) : option Conc :=
  match a with
  | MainTurn cr => main_turn g cr c
  | ThreadBegin i l r => thread_begin i l r c
  | ThreadAct j => thread_act j c
  end.

Fixpoint interleave (g : list string) (sched : list micro) (c : Conc) : Conc :=
  match sched with
  | [] => c
  | a :: sched' =>
      match micro_step g a c with
      | Some c' => interleave g sched' c'
      | None => interleave g sched' c
      end
  end.

(** The script at line 272: no thread yet. *)
Definition boot_conc (cfg : gmap string task_entry) (default : option polopt)
    (disk : string -> option ExperienceDataset) (rs : string -> remote_run) : Conc :=
  {| shared := boot cfg default disk rs; serving := None; running := [] |}.

(** Whether a sequence of operations has an operation left. *)
Definition live {A} (p : prog A) : nat :=
  match p with
  | Ret _ => 0
  | Act _ _ => 1
  end.

(** The threads of a task that have begun and have an operation left. *)
Definition held (n : string) (l : list (string * prog unit)) : nat :=
  sum_list_with (fun x => if (x.1 =? n)%string then live x.2 else 0%nat) l.

Definition serving_on (n : string) (s : option (string * prog unit)) : nat :=
  match s with
  | Some (m, p) => if (m =? n)%string then live p else 0%nat
  | None => 0%nat
  end.

(** Who holds a task: its queue items, its started threads, its threads in
    flight and the main thread while it serves the task. *)
Definition holders (n : string) (c : Conc) : nat :=
  (occurrences n (tasks (shared c)) + occurrences n (started (shared c)).*2
   + held n (running c) + serving_on n (serving c))%nat.

(** The task the thread that takes a step is working on. *)
Definition actor (a : micro) (c : Conc) : option string :=
  match a with
  | MainTurn _ => fst <$> serving c
  | ThreadBegin _ _ _ => None
  | ThreadAct j => fst <$> running c !! j
  end.

(** What one operation on behalf of task [n] may do to the world: it
    leaves the queue, the threads and the entries of every other task
    alone, and logs operations on [n] only. *)
Record act_effect (n : string) (w w' : World) : Prop := {
  ae_tasks : tasks w' = tasks w;
  ae_started : started w' = started w;
  ae_main : main w' = main w;
  ae_others : others_kept n w w';
  ae_log : log w' = log w ++ (pair n <$> new_ops w w')
}.

(** An operation of the main thread between dequeue and thread start. *)
Definition main_private (n : string) {X} (m : M X) : Prop :=
  forall w, act_effect n w (m w).2.

(** An operation of a thread before its put: it also leaves the robot and
    the variable [state] alone and starts no thread. *)
Definition thread_private (n : string) {X} (m : M X) : Prop :=
  forall w, act_effect n w (m w).2 /\ state (m w).2 = state w /\
            forallb (fun o => negb (is_robot o) && negb (is_start o))
                    (new_ops w (m w).2) = true.

(** [tasks.put] of the task, and the start of a thread for it. *)
Definition is_put (n : string) {X} (m : M X) : Prop :=
  forall w, (m w).2 = set_log (set_tasks w (tasks w ++ [n])) (log w ++ [(n, Put)]).

Definition is_start_of (n : string) {X} (m : M X) : Prop :=
  forall w, exists fn,
    (m w).2 = set_log (set_started w (started w ++ [(fn, n)]))
                      (log w ++ [(n, Start fn)]).

(** A sequence of operations that keeps to itself and hands the task over
    with its last operation, if it gets there. *)
Fixpoint hands_over (private final : forall X, M X -> Prop) (p : prog unit) : Prop :=
  match p with
  | Ret _ => True
  | @Act _ X m k =>
      (private X m /\ forall x, hands_over private final (k x)) \/
      (final X m /\ forall x, k x = Ret tt)
  end.

Definition thread_shape (n : string) : prog unit -> Prop :=
  hands_over (@thread_private n) (@is_put n).

Definition main_shape (n : string) : prog unit -> Prop :=
  hands_over (@main_private n) (@is_start_of n).

(** Every part of a sequence keeps to itself. *)
Fixpoint all_private (private : forall X, M X -> Prop) {A} (p : prog A) : Prop :=
  match p with
  | Ret _ => True
  | @Act _ X m k => private X m /\ forall x, all_private private (k x)
  end.

(** The invariant of the script with its threads in flight. *)
Record conc_inv (c : Conc) : Prop := {
  ci_holders : forall n, (holders n c <= 1)%nat;
  ci_running : Forall (fun x => thread_shape x.1 x.2) (running c);
  ci_serving : forall n p, serving c = Some (n, p) -> main_shape n p
}.

(** ** Two threads at work

    [TwoTasks], operation by operation. *)
Module Overlap.

(** The first pass of the loop on [cartpole] up to the start of its thread;
    the thread begins; the main thread takes [pendulum] off the queue and
    is three operations into the body of the loop; the thread of
    [cartpole] has its put left. *)
Definition sched : list micro :=
  repeat (MainTurn Cartpole.cycle_ok) 15
  ++ [ThreadBegin 0 Cartpole.local_ok Cartpole.remote_ok]
  ++ repeat (MainTurn Cartpole.cycle_ok) 4
  ++ repeat (ThreadAct 0) 4.

Definition both_at_work : Conc :=
  interleave Cartpole.with_task_id sched
    (boot_conc TwoTasks.cfg None Cartpole.no_disk (fun _ => Cartpole.remote_ok)).

End Overlap.

(** * Properties *)

(** ** Running the code symbolically *)

Ltac unfold_ops :=
  unfold when, external, emit, write_task_state, read_task_state,
    read_state, assign_state, read_spec, update_spec, queue_put, start_thread,
    choose_polopt, lookup_global, try_except, bind, ret, raise.

Ltac atomic x :=
  lazymatch x with
  | context [match _ with _ => _ end] => fail
  | _ => idtac
  end.

Ltac reduce_world :=
  cbn beta iota delta
    [fst snd tasks task_state state config_tasks default_polopt_fn started
     main log set_tasks set_task_state set_state set_config_tasks
     set_started set_main set_log].

(** One step: a lookup of what was just stored, a test whose outcome is
    known, or a case distinction on the next test. *)
Ltac exec1 :=
  match goal with
  | |- context [ <[?n := _]> _ !! ?n ] => rewrite lookup_insert_eq
  | H : ?x = _ |- context [match ?x with _ => _ end] => rewrite H
  | |- context [match ?x with _ => _ end] => atomic x; destruct x eqn:?
  end; reduce_world.

Ltac exec_all := unfold_ops; reduce_world; repeat exec1.

(** ** The loop condition (C2) *)

Lemma loop_guard_false_iff (w : World) :
  loop_guard w = false <-> forall n, is_Some (task_state w !! n) -> n = "done".
Proof.
  unfold loop_guard. rewrite negb_false_iff, forallb_forall. split.
  - intros H n [s Hs]. apply String.eqb_eq, H, list_elem_of_In.
    apply list_elem_of_fmap. exists (n, s). split; [reflexivity|].
    by apply elem_of_map_to_list.
  - intros H n Hn. apply String.eqb_eq, H.
    apply list_elem_of_In, list_elem_of_fmap in Hn as [[k s] [-> Hks]].
    apply elem_of_map_to_list in Hks. by exists s.
Qed.

(** C2.  The loop condition of line 272 compares the task names, not the
    recorded states, with ['done'].  When the only task, [cartpole], is
    [done] the condition still holds and the loop goes on; when the only
    task is called [done] the condition fails at once, with the task still
    in state [init], and the main thread leaves the loop. *)
Theorem C2_loop_guard_compares_names :
  let all_done :=
    exec Cartpole.with_task_id (Cartpole.rounds 5)
         (Cartpole.start (Some Fn_mc_pilco_polopt)) in
  let named_done :=
    boot {[ "done" := {| entry_spec := Cartpole.spec None;
                         entry_has_experience := false |} ]}
         None Cartpole.no_disk (fun _ => Cartpole.remote_ok) in
  map_to_list (task_state all_done) = [("cartpole", "done")] /\
  loop_guard all_done = true /\
  map_to_list (task_state named_done) = [("done", "init")] /\
  loop_guard named_done = false /\
  main <$> main_step module_globals Cartpole.cycle_ok named_done = Some Finished.
Proof. vm_compute. repeat split; reflexivity. Qed.

(** ** The remote strategy (C3, C5) *)

Lemma http_polopt_task_state (r : remote_run) (n : string) (w : World) :
  task_state (http_polopt r n w).2 = task_state w.
Proof. unfold http_polopt. exec_all; reflexivity. Qed.

(** After a pass of [mc_pilco_polopt] that returns, the task is [done]
    exactly if the count of line 145 has reached [n_opt], provided it was
    not [done] before: the scheduler starts no pass for a [done] task. *)
Lemma mc_pilco_polopt_done_iff (l : local_run) (n : string) (w w' : World) :
  task_state w !! n <> Some "done" ->
  mc_pilco_polopt l n w = (Ok tt, w') ->
  exists sp, config_tasks w' !! n = Some sp /\
    (task_state w' !! n = Some "done" <-> n_opt sp <= n_polopt_iters (experience sp)).
Proof.
  intros Hnd. unfold mc_pilco_polopt. exec_all; intros [= <-]; reduce_world;
    eexists; (split; [first [eassumption | apply lookup_insert_eq]|]);
    rewrite ?lookup_insert_eq; split; intros H;
    first [ reflexivity | discriminate | lia | contradiction | idtac ].
  all: try (apply Z.leb_le; assumption).
  all: try (apply Z.leb_gt in H; [|]; lia).
  all: try match goal with
       | H1 : (_ <=? _) = false, H2 : _ <= _ |- _ => apply Z.leb_gt in H1; lia
       end.
Qed.

(** C3.  A pass of [http_polopt] never writes [task_state], so it never
    marks a task [done]; lines 144-147 of [mc_pilco_polopt] have no
    counterpart in it.  Two runs show it.  When the start-up finds stored
    experience with one set of policy parameters and [n_opt] is 1, it calls
    [http_polopt] (line 267), which returns and puts the task on the queue:
    the count of line 145 is 1 and the recorded state is [init].  And when
    the fifth pass of the loop starts [http_polopt] for [cartpole], the
    count is 1 again, the pass returns and puts the task on the queue, and
    the recorded state is [ready], not [done]. *)
Theorem C3_remote_pass_never_marks_done :
  (forall r n w, task_state (http_polopt r n w).2 = task_state w) /\
  (let w := Cartpole.resumed in
   main w = Running /\
   log w = [("cartpole", SetState "init"); ("cartpole", HttpOptimize);
            ("cartpole", Put)] /\
   (n_opt <$> config_tasks w !! "cartpole") = Some 1 /\
   (n_polopt_iters <$> (experience <$> config_tasks w !! "cartpole")) = Some 1 /\
   task_state w !! "cartpole" = Some "init") /\
  let w := exec Cartpole.with_task_id
                (Cartpole.rounds 4 ++ [MainLoop Cartpole.cycle_ok])
                (Cartpole.start None) in
  let w' := (http_polopt Cartpole.remote_ok "cartpole"
                         (set_started w (delete 0%nat (started w)))).2 in
  started w = [(Fn_http_polopt, "cartpole")] /\
  (n_opt <$> config_tasks w !! "cartpole") = Some 1 /\
  (n_polopt_iters <$> (experience <$> config_tasks w !! "cartpole")) = Some 1 /\
  thread_step 0 Cartpole.local_ok Cartpole.remote_ok w = Some w' /\
  (n_polopt_iters <$> (experience <$> config_tasks w' !! "cartpole")) = Some 1 /\
  tasks w' = ["cartpole"] /\
  task_state w' !! "cartpole" = Some "ready".
Proof.
  split; [apply http_polopt_task_state|].
  vm_compute. repeat split; reflexivity.
Qed.

(** C5.  When [pickle.loads] raises on the reply to the optimisation
    request (line 186), [http_polopt] ends with that exception: the policy
    parameters, and the whole spec, are as before, but line 189 is not
    reached and the task is not put on the queue.  In a thread the task is
    lost to the scheduler; in the call of line 267 the exception ends the
    start-up, with the queue still empty. *)
Theorem C5_malformed_reply_drops_task (status : string) (upload_ok : bool)
    (n : string) (w : World) :
  let r := {| init_status := status; init_task_ok := upload_ok;
              optimize_reply := Malformed |} in
  (exists e, (http_polopt r n w).1 = Raise e) /\
  config_tasks (http_polopt r n w).2 = config_tasks w /\
  tasks (http_polopt r n w).2 = tasks w /\
  task_state (http_polopt r n w).2 = task_state w /\
  (forall i l w',
     started w !! i = Some (Fn_http_polopt, n) ->
     thread_step i l r w = Some w' ->
     tasks w' = tasks w /\ started w' = delete i (started w)) /\
  main Cartpole.resumed_malformed = Crashed (ExternalError "pickle.loads") /\
  tasks Cartpole.resumed_malformed = [].
Proof.
  cbv zeta.
  assert (H : forall w0 : World,
            let out := http_polopt {| init_status := status;
                                      init_task_ok := upload_ok;
                                      optimize_reply := Malformed |} n w0 in
            (exists e, out.1 = Raise e) /\ config_tasks out.2 = config_tasks w0 /\
            tasks out.2 = tasks w0 /\ task_state out.2 = task_state w0 /\
            started out.2 = started w0).
  { intros w0. unfold http_polopt. cbn zeta. exec_all; repeat split; eauto.
    all: cbn in *; try discriminate. }
  destruct (H w) as (H1 & H2 & H3 & H4 & _).
  do 4 (split; [assumption|]). split; [|split; reflexivity].
  intros i l w' Hi Hstep.
  unfold thread_step in Hstep. rewrite Hi in Hstep. injection Hstep as <-.
  cbn [run_polopt].
  destruct (H (set_started w (delete i (started w)))) as (_ & _ & -> & _ & ->).
  split; reflexivity.
Qed.

(** A thread of [cartpole] on [http_polopt] receives the malformed reply. *)
Lemma C5_malformed_reply_drops_task_witness :
  let r := {| init_status := "OK"; init_task_ok := true;
              optimize_reply := Malformed |} in
  let w := exec Cartpole.with_task_id
                (Cartpole.rounds 4 ++ [MainLoop Cartpole.cycle_ok])
                (Cartpole.start None) in
  let w' := exec Cartpole.with_task_id [RunThread 0 Cartpole.local_ok r] w in
  tasks w' = tasks w /\ started w' = delete 0%nat (started w).
Proof.
  cbv zeta.
  refine (proj1 (proj2 (proj2 (proj2 (proj2
            (C5_malformed_reply_drops_task "OK" true "cartpole"
               (exec Cartpole.with_task_id
                     (Cartpole.rounds 4 ++ [MainLoop Cartpole.cycle_ok])
                     (Cartpole.start None)))))))
            0%nat Cartpole.local_ok _ _ _);
    vm_compute; reflexivity.
Defined.

(** ** Failures (C6) *)

Lemma experiences_insert (n : string) (sp sp' : TaskSpec) (c : gmap string TaskSpec) :
  c !! n = Some sp -> experience sp' = experience sp ->
  experience <$> <[n := sp']> c = experience <$> c.
Proof.
  intros Hn He. apply map_eq. intros m. rewrite !lookup_fmap.
  destruct (decide (n = m)) as [->|Hne].
  - rewrite lookup_insert_eq, Hn. simpl. by rewrite He.
  - by rewrite lookup_insert_ne.
Qed.

(** A pass of [mc_pilco_polopt] leaves the experience of every task as it
    was, whether it returns or raises. *)
Lemma mc_pilco_polopt_experiences (l : local_run) (n : string) (w : World) :
  experiences (mc_pilco_polopt l n w).2 = experiences w.
Proof.
  unfold experiences, mc_pilco_polopt. exec_all; try reflexivity.
  all: repeat (erewrite experiences_insert;
               [ | first [eassumption | apply lookup_insert_eq] | reflexivity ]).
  all: reflexivity.
Qed.

(** The recorded state a pass of [mc_pilco_polopt] leaves when it raises:
    the state before the pass if nothing was written yet, else the last
    marker written, [compile_polopt] or [update_polopt]. *)
Lemma mc_pilco_polopt_raise_state (l : local_run) (n : string) (w w' : World) (e : exn) :
  mc_pilco_polopt l n w = (Raise e, w') ->
  task_state w' = task_state w \/
  task_state w' = <[n := "compile_polopt"]> (task_state w) \/
  task_state w' = <[n := "update_polopt"]> (task_state w).
Proof.
  unfold mc_pilco_polopt. exec_all; intros [= <- <-]; reduce_world;
    rewrite ?insert_insert_eq; auto.
Qed.

Lemma mc_pilco_polopt_raise_cause (l : local_run) (n : string) (w w' : World) (e : exn) :
  mc_pilco_polopt l n w = (Raise e, w') ->
  (e = ExternalError "train_dynamics" -> task_state w' = task_state w) /\
  (e = ExternalError "set_objective" ->
     task_state w' = <[n := "compile_polopt"]> (task_state w)) /\
  (e = ExternalError "minimize" ->
     task_state w' = <[n := "update_polopt"]> (task_state w)).
Proof.
  unfold mc_pilco_polopt. exec_all; intros [= <- <-]; reduce_world;
    rewrite ?insert_insert_eq; repeat split; intros; (reflexivity || discriminate).
Qed.

(** A pass of the loop that raises: no recorded state is touched and no
    thread is started.  The experience is as before unless it is
    [exp.save()] that raised (line 332): then the episode is already
    appended to the dataset of the task (line 329). *)
Lemma cycle_raise (c : cycle_run) (n : string) (w w' : World) (e : exn) :
  cycle c n w = (Raise e, w') ->
  task_state w' = task_state w /\
  started w' = started w /\
  (e <> ExternalError "exp.save" -> experiences w' = experiences w) /\
  (e = ExternalError "exp.save" ->
   exists exp tr p,
     apply_controller c = Some tr /\
     experiences w !! n = Some exp /\
     experiences w' = <[n := append_episode exp tr p]> (experiences w)).
Proof.
  unfold experiences, cycle. exec_all; intros [= <- <-]; reduce_world;
    (split; [reflexivity|]); (split; [reflexivity|]);
    (split; [intros Hne | intros He]);
    try congruence; try discriminate He.
  all: try (repeat (erewrite experiences_insert;
                    [ | first [eassumption | apply lookup_insert_eq] | reflexivity ]);
            reflexivity).
  all: eexists _, _, _; (split; [reflexivity|]);
    (split; [rewrite lookup_fmap;
             match goal with H : config_tasks _ !! _ = Some _ |- _ => rewrite H end;
             reflexivity|]).
  all: rewrite !fmap_insert, ?insert_insert_eq; reflexivity.
Qed.

Lemma http_polopt_raise (r : remote_run) (n : string) (w w' : World) (e : exn) :
  http_polopt r n w = (Raise e, w') ->
  task_state w' = task_state w /\ config_tasks w' = config_tasks w.
Proof.
  unfold http_polopt. exec_all; intros [= <- <-]; reduce_world;
    split; reflexivity.
Qed.

(** C6, as the code has it.  When a pass of the loop fails before the
    episode is stored ([env.init_params] or [apply_controller] raises), or
    a pass of the remote strategy fails, the recorded states and the
    experience of every task are as before.  When it is [exp.save()] that
    fails (line 332), the recorded states are as before and no thread is
    started, but the episode is already appended to the dataset of the task
    (line 329).  When a pass of the local strategy fails, the experience of
    every task is as before, but the recorded state of the task is the last
    marker written before the failing call: unchanged if training the
    dynamics failed, [compile_polopt] if building the objective failed,
    [update_polopt] if the optimiser failed. *)
Theorem C6_failure_keeps_experience (n : string) (w w' : World) (e : exn) :
  (forall c, cycle c n w = (Raise e, w') ->
     task_state w' = task_state w /\
     started w' = started w /\
     (e <> ExternalError "exp.save" -> experiences w' = experiences w) /\
     (e = ExternalError "exp.save" ->
      exists exp tr p,
        apply_controller c = Some tr /\
        experiences w !! n = Some exp /\
        experiences w' = <[n := append_episode exp tr p]> (experiences w))) /\
  (forall r, http_polopt r n w = (Raise e, w') ->
     task_state w' = task_state w /\ experiences w' = experiences w) /\
  (forall l, mc_pilco_polopt l n w = (Raise e, w') ->
     experiences w' = experiences w /\
     (task_state w' = task_state w \/
      task_state w' = <[n := "compile_polopt"]> (task_state w) \/
      task_state w' = <[n := "update_polopt"]> (task_state w)) /\
     (e = ExternalError "train_dynamics" -> task_state w' = task_state w) /\
     (e = ExternalError "set_objective" ->
        task_state w' = <[n := "compile_polopt"]> (task_state w)) /\
     (e = ExternalError "minimize" ->
        task_state w' = <[n := "update_polopt"]> (task_state w))).
Proof.
  split; [|split].
  - intros c H. eapply cycle_raise, H.
  - intros r H. apply http_polopt_raise in H as [H1 H2].
    split; [assumption|]. unfold experiences. by rewrite H2.
  - intros l H. split; [|split].
    + replace w' with (mc_pilco_polopt l n w).2 by (by rewrite H).
      apply mc_pilco_polopt_experiences.
    + eapply mc_pilco_polopt_raise_state, H.
    + eapply mc_pilco_polopt_raise_cause, H.
Qed.

(** The fifth pass of the loop has started [mc_pilco_polopt] for
    [cartpole], whose recorded state is [ready]; the optimiser fails. *)
Lemma C6_failure_keeps_experience_witness :
  let w := Cartpole.fifth_pass_started in
  let w' := (mc_pilco_polopt Cartpole.minimize_fails "cartpole" w).2 in
  experiences w' = experiences w /\
  task_state w' = <[ "cartpole" := "update_polopt"]> (task_state w).
Proof.
  cbv zeta.
  destruct (proj2 (proj2 (C6_failure_keeps_experience
                            "cartpole" Cartpole.fifth_pass_started
                            (mc_pilco_polopt Cartpole.minimize_fails "cartpole"
                                             Cartpole.fifth_pass_started).2
                            (ExternalError "minimize")))
                  Cartpole.minimize_fails)
    as (Hexp & _ & _ & _ & Hmin); [vm_compute; reflexivity|].
  split; [exact Hexp | exact (Hmin eq_refl)].
Defined.

(** The claim fails for the recorded state: before the failed pass it is
    [ready], after it [update_polopt]. *)
Lemma C6_counterexample :
  let w := Cartpole.fifth_pass_started in
  let out := mc_pilco_polopt Cartpole.minimize_fails "cartpole" w in
  started w = [(Fn_mc_pilco_polopt, "cartpole")] /\
  task_state w !! "cartpole" = Some "ready" /\
  out.1 = Raise (ExternalError "minimize") /\
  task_state out.2 !! "cartpole" = Some "update_polopt" /\
  task_state out.2 !! "cartpole" <> task_state w !! "cartpole".
Proof. vm_compute. repeat split; try reflexivity. discriminate. Qed.

(** ** The output directory (C9) *)



(** Where the old directory goes: next to the parent of the output
    directory when the configured path has no trailing slash. *)
Lemma target_dir_examples :
  target_dir "/data/robot_learning" "1523.4" = "/data_1523.4" /\
  target_dir "/data/robot_learning/" "1523.4" = "/data/robot_learning_1523.4".
Proof. split; reflexivity. Qed.

(** When resuming, an existing output directory is left alone. *)
Lemma init_output_dir_resume (out : string) (fs : FileSystem) (d : directory) :
  dirs fs !! out = Some d -> init_output_dir true out fs = (Ok tt, fs).
Proof.
  intros H. unfold init_output_dir, try_except, os_mkdir. by rewrite H.
Qed.

(** ** The effect of the three functions *)

Ltac give_ops :=
  unfold new_ops; reduce_world; rewrite <- ?app_assoc; cbn [app];
  rewrite ?drop_app_length, ?drop_all; cbn [fmap list_fmap snd].

Ltac solve_effect_field :=
  lazymatch goal with
  | |- others_kept _ _ _ =>
      intros m Hm; reduce_world; rewrite ?lookup_insert_ne by done; done
  | |- _ !! _ = from_option _ _ _ =>
      rewrite ?lookup_insert_eq; reflexivity
  | |- forall s0, _ \/ _ -> chain _ = true =>
      intros s0 [-> | ->]; reflexivity
  | |- _ = true -> from_option _ _ _ =>
      intros H; first [discriminate H | simpl; tauto]
  | |- (op_compilations _ <= 1)%nat => cbv; lia
  | |- forall sp, _ = Some sp -> exists sp', _ /\ _ /\ _ =>
      intros sp Hsp; first [congruence |
      rewrite ?lookup_insert_eq;
      eexists; split; [first [reflexivity | eassumption]|];
      split; [cbn; congruence|];
      split; [cbn; congruence|];
      split; [cbn; congruence|];
      intros Hl; split;
        [cbn; congruence | first [reflexivity | cbn in Hl; congruence]]]
  | |- _ <> 0%nat -> _ = true -> exists sp', _ =>
      intros Hc Hr; first [ exfalso; apply Hc; reflexivity | discriminate Hr |
        rewrite ?lookup_insert_eq; eexists; split; [reflexivity|];
        split; cbn; congruence]
  | |- _ => try reflexivity
  end.

Lemma mc_pilco_polopt_effect (l : local_run) (n : string) (w : World) :
  pass_effect n w (mc_pilco_polopt l n w).1 (mc_pilco_polopt l n w).2
              (new_ops w (mc_pilco_polopt l n w).2).
Proof.
  unfold mc_pilco_polopt. exec_all.
  all: give_ops.
  all: constructor; reduce_world; cbn [is_ok app fmap list_fmap];
    try (rewrite ?app_nil_r; reflexivity); solve_effect_field.
Qed.

Lemma http_polopt_effect (r : remote_run) (n : string) (w : World) :
  pass_effect n w (http_polopt r n w).1 (http_polopt r n w).2
              (new_ops w (http_polopt r n w).2).
Proof.
  unfold http_polopt. exec_all.
  all: give_ops.
  all: constructor; reduce_world; cbn [is_ok app fmap list_fmap];
    try (rewrite ?app_nil_r; reflexivity); solve_effect_field.
Qed.

Lemma run_polopt_effect (fn : polopt) (l : local_run) (r : remote_run)
    (n : string) (w : World) :
  pass_effect n w (run_polopt fn l r n w).1 (run_polopt fn l r n w).2
              (new_ops w (run_polopt fn l r n w).2).
Proof.
  destruct fn; [apply mc_pilco_polopt_effect | apply http_polopt_effect].
Qed.

Lemma cycle_effect_holds (c : cycle_run) (n : string) (w : World) :
  cycle_effect n w (cycle c n w).1 (cycle c n w).2 (new_ops w (cycle c n w).2).
Proof.
  unfold cycle. exec_all.
  all: give_ops.
  all: constructor; reduce_world; cbn [is_ok app fmap list_fmap];
    try (rewrite ?app_nil_r; reflexivity).
  all: lazymatch goal with
       | |- others_kept _ _ _ =>
           intros m Hm; reduce_world; rewrite ?lookup_insert_ne by done; done
       | |- _ /\ _ /\ _ => repeat split; reflexivity
       | |- _ \/ _ =>
           first [ left; reflexivity
                 | right; split;
                   [ eexists; split; [reflexivity|];
                     first [ right; intros sp Hsp; congruence
                           | left;
                             match goal with
                             | H : _ && _ = true |- _ =>
                                 apply andb_true_iff in H as [H _];
                                 apply String.eqb_eq in H; congruence
                             end ]
                   | split; [|split; [eauto | reflexivity]];
                     match goal with
                     | H : (_ =? "done")%string = false |- _ =>
                         apply String.eqb_neq in H; congruence
                     end ] ]
       | |- forall sp, _ -> exists sp', _ =>
           intros sp Hsp; first [congruence |
             rewrite ?lookup_insert_eq; eexists;
             split; [first [reflexivity | eassumption] | repeat split; cbn; congruence]]
       end.
Qed.

(** ** Counting names and reading an extended log *)

Lemma occurrences_app (n : string) (l l' : list string) :
  occurrences n (l ++ l') = (occurrences n l + occurrences n l')%nat.
Proof. unfold occurrences. by rewrite List.filter_app, length_app. Qed.

Lemma occurrences_cons (n m : string) (l : list string) :
  occurrences n (m :: l)
  = ((if (n =? m)%string then 1 else 0) + occurrences n l)%nat.
Proof. unfold occurrences. simpl. by destruct (n =? m)%string. Qed.

Lemma occurrences_zero (n : string) (l : list string) :
  occurrences n l = 0%nat <-> n ∉ l.
Proof.
  induction l as [|m l IH]; [split; [intros _; apply not_elem_of_nil | done]|].
  rewrite occurrences_cons, not_elem_of_cons.
  destruct (String.eqb_spec n m) as [->|Hne]; [split; [lia|tauto]|].
  rewrite <- IH. split; [intros; split; [done|lia] | intros [_ H]; lia].
Qed.

Lemma occurrences_pos (n : string) (l : list string) :
  n ∈ l -> (0 < occurrences n l)%nat.
Proof.
  intros Hin. destruct (occurrences n l) eqn:H; [|lia].
  by apply occurrences_zero in H.
Qed.

Lemma occurrences_delete {A} (f : A -> string) (n : string) (l : list A)
    (i : nat) (x : A) :
  l !! i = Some x ->
  occurrences n (f <$> l)
  = ((if (n =? f x)%string then 1 else 0) + occurrences n (f <$> delete i l))%nat.
Proof.
  revert i. induction l as [|y l IH]; intros [|i] H; try discriminate.
  - injection H as ->. simpl. apply occurrences_cons.
  - change (delete (S i) (y :: l)) with (y :: delete i l).
    rewrite !fmap_cons, !occurrences_cons, (IH i H).
    destruct (n =? f x)%string, (n =? f y)%string; lia.
Qed.

Lemma ops_of_app (n : string) (l l' : list event) :
  ops_of n (l ++ l') = ops_of n l ++ ops_of n l'.
Proof. unfold ops_of. by rewrite List.filter_app, fmap_app. Qed.

Lemma ops_of_same (n : string) (ops : list op) :
  ops_of n (pair n <$> ops) = ops.
Proof.
  unfold ops_of. induction ops as [|o ops IH]; [done|].
  cbn [fmap list_fmap List.filter fst]. rewrite String.eqb_refl.
  cbn [fmap list_fmap snd]. f_equal. exact IH.
Qed.

Lemma ops_of_other (m n : string) (ops : list op) :
  m <> n -> ops_of m (pair n <$> ops) = [].
Proof.
  intros Hne. unfold ops_of. induction ops as [|o ops IH]; [done|].
  cbn [fmap list_fmap List.filter fst].
  destruct (String.eqb_spec n m) as [->|_]; [done|]. exact IH.
Qed.

Lemma op_writes_app (l l' : list op) :
  op_writes (l ++ l') = op_writes l ++ op_writes l'.
Proof. apply omap_app. Qed.

Lemma op_compilations_app (l l' : list op) :
  op_compilations (l ++ l') = (op_compilations l + op_compilations l')%nat.
Proof. unfold op_compilations. by rewrite List.filter_app, length_app. Qed.

(** What a task reads in a log extended by operations on task [n]. *)
Lemma writes_extend_same (n : string) (l : list event) (ops : list op) :
  writes n (l ++ (pair n <$> ops)) = writes n l ++ op_writes ops.
Proof. unfold writes. by rewrite ops_of_app, ops_of_same, op_writes_app. Qed.

Lemma writes_extend_other (m n : string) (l : list event) (ops : list op) :
  m <> n -> writes m (l ++ (pair n <$> ops)) = writes m l.
Proof.
  intros H. unfold writes. by rewrite ops_of_app, ops_of_other, app_nil_r.
Qed.

Lemma compilations_extend_same (n : string) (l : list event) (ops : list op) :
  compilations n (l ++ (pair n <$> ops))
  = (compilations n l + op_compilations ops)%nat.
Proof.
  unfold compilations. by rewrite ops_of_app, ops_of_same, op_compilations_app.
Qed.

Lemma compilations_extend_other (m n : string) (l : list event) (ops : list op) :
  m <> n -> compilations m (l ++ (pair n <$> ops)) = compilations m l.
Proof.
  intros H. unfold compilations. by rewrite ops_of_app, ops_of_other, app_nil_r.
Qed.

Lemma chain_app (l l' : list string) (s0 : string) :
  last l = Some s0 -> chain (l ++ l') = chain l && chain (s0 :: l').
Proof.
  revert s0. induction l as [|a l IH]; intros s0 Hl; [discriminate|].
  destruct l as [|b l].
  - injection Hl as ->. cbn [app]. by destruct (chain (s0 :: l')).
  - rewrite last_cons_cons in Hl.
    change ((a :: b :: l) ++ l') with (a :: ((b :: l) ++ l')).
    assert (E : forall t, chain (a :: (b :: l) ++ t)
                          = transition a b && chain ((b :: l) ++ t)) by done.
    rewrite E, (IH s0 Hl).
    change (chain (a :: b :: l)) with (transition a b && chain (b :: l)).
    by rewrite andb_assoc.
Qed.

Lemma path_ok_app (l l' : list string) (s0 : string) :
  last l = Some s0 -> path_ok l = true -> chain (s0 :: l') = true ->
  path_ok (l ++ l') = true.
Proof.
  intros Hl Hp Hc. destruct l as [|a l]; [discriminate|].
  unfold path_ok in *. cbn [app].
  apply andb_true_iff in Hp as [Ha Hp]. rewrite Ha. cbn [andb].
  change (a :: l ++ l') with ((a :: l) ++ l').
  by rewrite (chain_app _ _ s0 Hl), Hp, Hc.
Qed.

(** In a path nothing is written after [done]. *)
Lemma chain_done_last (l : list string) :
  chain l = true -> "done" ∈ l -> last l = Some "done".
Proof.
  induction l as [|a l IH]; intros Hc Hin; [by apply elem_of_nil in Hin|].
  destruct l as [|b l].
  - apply list_elem_of_singleton in Hin as ->. done.
  - rewrite last_cons_cons.
    apply andb_true_iff in Hc as [Hab Hc].
    apply elem_of_cons in Hin as [<-|Hin]; [discriminate Hab|].
    by apply IH.
Qed.

(** ** The invariant is kept by every step *)

Lemma tokens_bound_started (n : string) (w : World) (i : nat) (fn : polopt) :
  started w !! i = Some (fn, n) -> (tokens n w <= 1)%nat ->
  occurrences n (tasks w) = 0%nat /\
  occurrences n (delete i (started w)).*2 = 0%nat /\
  tokens n w = 1%nat.
Proof.
  intros Hi Hle. unfold tokens in *.
  pose proof (occurrences_delete snd n _ i (fn, n) Hi) as Hd.
  cbn [snd] in Hd. rewrite String.eqb_refl in Hd. lia.
Qed.

(** A thread of task [n0] runs: the world [w1] is [w] without the thread,
    and the run has the effect of a pass. *)
Lemma pass_preserves_inv (n0 : string) (w w1 w' : World) (r : result unit)
    (ops : list op) (i : nat) (fn : polopt) :
  inv w ->
  started w !! i = Some (fn, n0) ->
  tasks w1 = tasks w -> task_state w1 = task_state w ->
  config_tasks w1 = config_tasks w -> log w1 = log w ->
  started w1 = delete i (started w) ->
  pass_effect n0 w1 r w' ops ->
  inv w'.
Proof.
  intros Hinv Hi Ht Hts Hc Hl Hs
    [Est Estd Emain Edef Eoth Elog Etasks Equiet Erec Echain Efinal Ec1 Ecw Espec Ecomp].
  rewrite Ht in Etasks. rewrite Hl in Elog. rewrite Hs in Estd.
  rewrite Hts in Erec. rewrite Hc in Espec.
  intros n. destruct (Hinv n) as [I1 I2 I3 I4 I5 I6 I7 I8].
  destruct (decide (n = n0)) as [->|Hne].
  - destruct (tokens_bound_started n0 w i fn Hi I1) as (Hq & Hd & Htok).
    assert (Hin : n0 ∈ (started w).*2).
    { apply list_elem_of_fmap. exists (fn, n0). split; [done|].
      by eapply list_elem_of_lookup_2. }
    assert (Hs0 : task_state w !! n0 = Some "init" \/ task_state w !! n0 = Some "ready").
    { destruct I4 as [H|[H|H]]; [lia|auto|auto|]. by destruct (I5 Hin). }
    assert (Htok' : tokens n0 w' = if is_ok r then 1%nat else 0%nat).
    { unfold tokens. rewrite Etasks, Estd, occurrences_app, Hq, Hd.
      destruct (is_ok r); [|done].
      rewrite occurrences_cons, String.eqb_refl. done. }
    assert (Hrec' : last (writes n0 (log w')) = task_state w' !! n0).
    { rewrite Elog, writes_extend_same, last_app, Erec, I2.
      by destruct (last (op_writes ops)). }
    constructor.
    + rewrite Htok'. destruct (is_ok r); lia.
    + exact Hrec'.
    + rewrite Elog, writes_extend_same.
      destruct Hs0 as [H0|H0].
      * eapply path_ok_app; [by rewrite I2, H0 | done | apply Echain; auto].
      * eapply path_ok_app; [by rewrite I2, H0 | done | apply Echain; auto].
    + rewrite Htok'. destruct (is_ok r) eqn:Hok; [intros _|lia].
      specialize (Efinal eq_refl). rewrite Erec.
      destruct (last (op_writes ops)) as [s|]; simpl in *.
      * destruct Efinal as [-> | ->]; auto.
      * destruct Hs0; auto.
    + rewrite Estd. intros Habs. apply occurrences_pos in Habs. lia.
    + rewrite Elog, compilations_extend_same.
      destruct (decide (compilations n0 (log w) = 0%nat)) as [->|Hnz]; [lia|].
      destruct (I8 Hnz) as (sp & Hsp & Hloss & _); [lia|].
      destruct (Espec sp Hsp) as (sp' & _ & _ & _ & _ & H).
      destruct (H Hloss) as [_ ->]. lia.
    + rewrite Elog, writes_extend_same, compilations_extend_same.
      unfold occurrences in *. rewrite List.filter_app, length_app.
      by rewrite I7, Ecw.
    + rewrite Elog, compilations_extend_same, Htok'.
      intros Hnz Hpos. destruct (is_ok r) eqn:Hok; [|lia].
      destruct (decide (op_compilations ops = 0%nat)) as [Hz|Hz].
      * destruct (I8 ltac:(lia) ltac:(lia)) as (sp & Hsp & Hloss & Hex).
        destruct (Espec sp Hsp) as (sp' & Hsp' & _ & _ & Hex' & H).
        destruct (H Hloss) as [Hl' _]. eauto.
      * apply Ecomp; done.
  - destruct (Eoth n Hne) as [Ets Ecf]. rewrite Hts in Ets. rewrite Hc in Ecf.
    assert (Htok' : tokens n w' = tokens n w).
    { unfold tokens. rewrite Etasks, Estd, occurrences_app.
      pose proof (occurrences_delete snd n _ i (fn, n0) Hi) as Hd.
      cbn [snd] in Hd.
      destruct (String.eqb_spec n n0) as [?|_]; [done|].
      assert (occurrences n (if is_ok r then [n0] else []) = 0%nat) as ->.
      { destruct (is_ok r); [|done]. apply occurrences_zero.
        by apply not_elem_of_cons; split; [|apply not_elem_of_nil]. }
      lia. }
    constructor; rewrite ?Htok', ?Elog, ?writes_extend_other,
      ?compilations_extend_other, ?Ets, ?Ecf by done; try done.
    rewrite Estd. intros Hin. apply I5.
    rewrite list_fmap_delete in Hin.
    eapply elem_of_sublist; [exact Hin | apply sublist_delete].
Qed.

Lemma thread_step_inv (i : nat) (l : local_run) (r : remote_run) (w w' : World) :
  inv w -> thread_step i l r w = Some w' -> inv w'.
Proof.
  intros Hinv. unfold thread_step.
  destruct (started w !! i) as [[fn n0]|] eqn:Hi; [|discriminate].
  intros [= <-].
  eapply (pass_preserves_inv n0 w (set_started w (delete i (started w))));
    [exact Hinv | exact Hi | reflexivity.. | apply run_polopt_effect].
Qed.

(** The invariant does not depend on the status of the main thread. *)
Lemma task_inv_ext (n : string) (w w' : World) :
  tasks w' = tasks w -> task_state w' = task_state w ->
  config_tasks w' = config_tasks w -> started w' = started w ->
  log w' = log w ->
  task_inv n w -> task_inv n w'.
Proof.
  intros Ht Hts Hc Hs Hl [I1 I2 I3 I4 I5 I6 I7 I8].
  constructor; unfold tokens in *; rewrite ?Ht, ?Hts, ?Hc, ?Hs, ?Hl; assumption.
Qed.

Lemma inv_set_main (w : World) (s : main_status) : inv w -> inv (set_main w s).
Proof. intros H n. by apply (task_inv_ext n w). Qed.

(** The main thread takes task [n0] off the queue, logs it, and the rest
    of the pass has the effect of lines 284-339. *)
Lemma cycle_preserves_inv (n0 : string) (q : list string) (w w1 w2 : World)
    (r : result unit) (ops : list op) :
  inv w ->
  tasks w = n0 :: q ->
  tasks w1 = q -> task_state w1 = task_state w ->
  config_tasks w1 = config_tasks w -> started w1 = started w ->
  log w1 = log w ++ [(n0, Get)] ->
  cycle_effect n0 w1 r w2 ops ->
  inv w2.
Proof.
  intros Hinv Hq Ht Hts Hc Hs Hl
    [Etasks Ets Emain Edef Eoth Elog (Ew & Ecmp & Eq) Estd Espec].
  rewrite Ht in Etasks. rewrite Hts in Ets, Estd. rewrite Hs in Estd.
  rewrite Hc in Espec.
  assert (Elog' : log w2 = log w ++ (pair n0 <$> (Get :: ops))).
  { by rewrite Elog, Hl, <- app_assoc. }
  assert (Hw : op_writes (Get :: ops) = []) by exact Ew.
  assert (Hcmp : op_compilations (Get :: ops) = 0%nat) by exact Ecmp.
  clear Elog Hl Ew Ecmp.
  intros n. destruct (Hinv n) as [I1 I2 I3 I4 I5 I6 I7 I8].
  destruct (decide (n = n0)) as [->|Hne].
  - assert (Hocc : occurrences n0 q = 0%nat /\ occurrences n0 (started w).*2 = 0%nat
                   /\ tokens n0 w = 1%nat).
    { unfold tokens in I1 |- *. rewrite Hq, occurrences_cons, String.eqb_refl in I1 |- *.
      set (a := occurrences n0 q) in *.
      set (b := occurrences n0 (started w).*2) in *.
      lia. }
    destruct Hocc as (Hoq & Hos & Htok).
    assert (Hlogw : writes n0 (log w2) = writes n0 (log w)).
    { by rewrite Elog', writes_extend_same, Hw, app_nil_r. }
    assert (Hlogc : compilations n0 (log w2) = compilations n0 (log w)).
    { rewrite Elog', compilations_extend_same, Hcmp. lia. }
    assert (Htok2 : (tokens n0 w2 <= 1)%nat /\
                    ((0 < tokens n0 w2)%nat -> task_state w !! n0 <> Some "done")).
    { unfold tokens. rewrite Etasks, Hoq.
      destruct Estd as [-> | ((fn & -> & _) & Hnd & _)].
      - rewrite Hos. split; lia.
      - rewrite fmap_app, occurrences_app, Hos. cbn [fmap list_fmap snd].
        rewrite occurrences_cons, String.eqb_refl.
        change (occurrences n0 []) with 0%nat. split; [lia | done]. }
    destruct Htok2 as [Hle Hnd].
    constructor; rewrite ?Hlogw, ?Hlogc, ?Ets; try assumption.
    + intros _. apply I4. lia.
    + intros Hin. apply Hnd. by apply occurrences_pos in Hin; unfold tokens; lia.
    + intros Hnz Hpos. destruct (I8 Hnz) as (sp & Hsp & Hloss & Hex); [lia|].
      destruct (Espec sp Hsp) as (sp' & Hsp' & Hl' & Hex' & _). exists sp'.
      split; [done|]. by rewrite Hl', Hex'.
  - destruct (Eoth n Hne) as [_ Ecf]. rewrite Hc in Ecf.
    assert (Htok' : (tokens n w2 <= tokens n w)%nat /\
                    (n ∈ (started w2).*2 -> n ∈ (started w).*2)).
    { unfold tokens. rewrite Etasks, Hq, occurrences_cons.
      destruct Estd as [-> | ((fn & -> & _) & _)]; [split; [lia|done]|].
      rewrite fmap_app, occurrences_app. cbn [fmap list_fmap snd].
      rewrite occurrences_cons.
      destruct (String.eqb_spec n n0) as [?|_]; [done|].
      change (occurrences n []) with 0%nat. split; [lia|].
      rewrite elem_of_app, list_elem_of_singleton. tauto. }
    destruct Htok' as [Hle Hin].
    constructor; rewrite ?Elog', ?writes_extend_other,
      ?compilations_extend_other, ?Ets, ?Ecf by done; try done.
    + lia.
    + intros Hpos. apply I4. lia.
    + intros H. by apply I5, Hin.
    + intros Hnz Hpos. apply I8; [done|lia].
Qed.

(** Lines 282-339 have the effect of lines 284-339, or none when line 282
    raises. *)
Lemma loop_body_effect (g : list string) (c : cycle_run) (n0 : string) (w1 : World) :
  cycle_effect n0 w1 (loop_body g c n0 w1).1 (loop_body g c n0 w1).2
               (new_ops w1 (loop_body g c n0 w1).2).
Proof.
  unfold loop_body, lookup_global, bind.
  destruct (existsb (String.eqb "task_id") g).
  - unfold ret. pose proof (cycle_effect_holds c n0 w1) as E.
    by destruct (cycle c n0 w1) as [[]].
  - unfold raise, new_ops. cbn [fst snd]. rewrite drop_all.
    constructor; try done.
    + by rewrite app_nil_r.
    + by left.
    + eauto.
Qed.

(** The two ways a turn of the main thread can go: the loop condition
    fails, or a task is taken off the queue and the body of the loop
    runs. *)
Lemma main_step_cases (g : list string) (c : cycle_run) (w w' : World) :
  main_step g c w = Some w' ->
  w' = set_main w Finished \/
  exists n0 q w2 r ops,
    tasks w = n0 :: q /\
    cycle_effect n0 (set_log (set_tasks w q) (log w ++ [(n0, Get)])) r w2 ops /\
    (w' = w2 \/ exists e, w' = set_main w2 (Crashed e)).
Proof.
  unfold main_step.
  destruct (main w); try discriminate.
  destruct (loop_guard w); [|intros [= <-]; by left].
  destruct (tasks w) as [|n0 q] eqn:Hq; [discriminate|].
  set (w1 := set_log (set_tasks w q) (log w ++ [(n0, Get)])).
  pose proof (loop_body_effect g c n0 w1) as E.
  intros H. right. exists n0, q, (loop_body g c n0 w1).2, (loop_body g c n0 w1).1.
  eexists. split; [done|]. split; [exact E|].
  destruct (loop_body g c n0 w1) as [[] w2]; injection H as <-; cbn [snd]; eauto.
Qed.

Lemma thread_step_cases (i : nat) (l : local_run) (r : remote_run) (w w' : World) :
  thread_step i l r w = Some w' ->
  exists fn n0 res,
    started w !! i = Some (fn, n0) /\
    pass_effect n0 (set_started w (delete i (started w))) res w' (new_ops w w').
Proof.
  unfold thread_step.
  destruct (started w !! i) as [[fn n0]|] eqn:Hi; [|discriminate].
  intros [= <-]. exists fn, n0. eexists. split; [done|].
  apply (run_polopt_effect fn l r n0 (set_started w (delete i (started w)))).
Qed.

Lemma main_step_inv (g : list string) (c : cycle_run) (w w' : World) :
  inv w -> main_step g c w = Some w' -> inv w'.
Proof.
  intros Hinv H.
  destruct (main_step_cases g c w w' H)
    as [-> | (n0 & q & w2 & r & ops & Hq & E & Hw')]; [by apply inv_set_main|].
  assert (Hinv2 : inv w2).
  { eapply (cycle_preserves_inv n0 q w (set_log (set_tasks w q) (log w ++ [(n0, Get)])));
      [exact Hinv | exact Hq | done.. | exact E]. }
  destruct Hw' as [-> | [e ->]]; [done | by apply inv_set_main].
Qed.

Lemma step_inv (g : list string) (a : action) (w w' : World) :
  inv w -> step g a w = Some w' -> inv w'.
Proof.
  destruct a; [apply main_step_inv | apply thread_step_inv].
Qed.

Lemma exec_inv (g : list string) (sched : list action) (w : World) :
  inv w -> inv (exec g sched w).
Proof.
  revert w. induction sched as [|a sched IH]; intros w Hinv; [done|].
  cbn [exec]. destruct (step g a w) as [w'|] eqn:Hstep; [|by apply IH].
  eapply IH, step_inv; eauto.
Qed.

(** ** The world at the start of the loop *)

Lemma populate_task_effect (disk : string -> option ExperienceDataset)
    (rs : string -> remote_run) (n : string) (given : bool) (w : World) :
  populate_effect n w (populate_task disk rs (n, given) w).1
                  (populate_task disk rs (n, given) w).2
                  (new_ops w (populate_task disk rs (n, given) w).2).
Proof.
  unfold populate_task, http_polopt. exec_all.
  all: give_ops.
  all: constructor; reduce_world; cbn [is_ok app fmap list_fmap];
    try (rewrite ?app_nil_r; reflexivity).
  all: lazymatch goal with
       | |- others_kept _ _ _ =>
           intros m Hm; reduce_world; rewrite ?lookup_insert_ne by done; done
       | |- _ \/ _ => first [right; reflexivity | left; split; reflexivity]
       | |- _ !! _ = from_option _ _ _ =>
           rewrite ?lookup_insert_eq; reflexivity
       end.
Qed.

Lemma untouched_writes (n : string) (w : World) :
  untouched n w -> writes n (log w) = [] /\ compilations n (log w) = 0%nat.
Proof. intros [_ H]. unfold writes, compilations. by rewrite H. Qed.

Lemma populate_task_inv (disk : string -> option ExperienceDataset)
    (rs : string -> remote_run) (n : string) (given : bool) (w : World) :
  inv w -> untouched n w ->
  let w' := (populate_task disk rs (n, given) w).2 in
  inv w' /\ forall m, m <> n -> untouched m w -> untouched m w'.
Proof.
  intros Hinv Hun w'. subst w'.
  destruct (populate_task_effect disk rs n given w)
    as [Est Estd Emain Eoth Elog Etasks Equiet Ew Erec Ecmp].
  set (r := (populate_task disk rs (n, given) w).1) in *.
  set (w' := (populate_task disk rs (n, given) w).2) in *.
  set (ops := new_ops w w') in *. clearbody r w' ops.
  destruct (untouched_writes n w Hun) as [Hw0 Hc0].
  destruct Hun as [Htok0 Hops0].
  assert (Hocc : occurrences n (tasks w) = 0%nat /\ occurrences n (started w).*2 = 0%nat)
    by (unfold tokens in Htok0; lia).
  destruct Hocc as [Hoq Hos].
  assert (Htok' : tokens n w' = if is_ok r then 1%nat else 0%nat).
  { unfold tokens. rewrite Etasks, Estd, occurrences_app, Hoq, Hos.
    destruct (is_ok r); [|done]. by rewrite occurrences_cons, String.eqb_refl. }
  split.
  - intros m. destruct (Hinv m) as [I1 I2 I3 I4 I5 I6 I7 I8].
    destruct (decide (m = n)) as [->|Hne].
    + constructor; rewrite ?Htok', ?Elog, ?writes_extend_same,
        ?compilations_extend_same, ?Hw0, ?Hc0, ?Ecmp; cbn [app].
      * destruct (is_ok r); lia.
      * rewrite Erec, <- I2, Hw0. by destruct (last (op_writes ops)).
      * by destruct Ew as [[-> _] | ->].
      * destruct (is_ok r) eqn:Hok; [|lia]. intros _. rewrite Erec.
        destruct Ew as [[_ ?] | ->]; [congruence|]. auto.
      * rewrite Estd. intros Hin. apply occurrences_pos in Hin. lia.
      * lia.
      * by destruct Ew as [[-> _] | ->].
      * done.
    + destruct (Eoth m Hne) as [Ets Ecf].
      assert (Htm : tokens m w' = tokens m w).
      { unfold tokens. rewrite Etasks, Estd, occurrences_app.
        assert (occurrences m (if is_ok r then [n] else []) = 0%nat) as ->; [|lia].
        destruct (is_ok r); [|done]. rewrite occurrences_cons.
        by destruct (String.eqb_spec m n). }
      constructor; rewrite ?Htm, ?Elog, ?writes_extend_other,
        ?compilations_extend_other, ?Ets, ?Ecf, ?Estd by done; done.
  - intros m Hne [Htm Hom]. split.
    + unfold tokens in *. rewrite Etasks, Estd, occurrences_app.
      assert (occurrences m (if is_ok r then [n] else []) = 0%nat) as ->; [|lia].
      destruct (is_ok r); [|done]. rewrite occurrences_cons.
      by destruct (String.eqb_spec m n).
    + by rewrite Elog, ops_of_app, ops_of_other, Hom.
Qed.

Lemma for_each_populate_inv (disk : string -> option ExperienceDataset)
    (rs : string -> remote_run) (items : list (string * bool)) (w : World) :
  NoDup items.*1 -> inv w -> (forall n, n ∈ items.*1 -> untouched n w) ->
  inv (for_each (populate_task disk rs) items w).2.
Proof.
  revert w. induction items as [|[n given] items IH]; intros w Hnd Hinv Hun; [done|].
  rewrite fmap_cons in Hnd, Hun. cbn [fst] in Hnd, Hun.
  apply NoDup_cons in Hnd as [Hnotin Hnd].
  destruct (populate_task_inv disk rs n given w Hinv) as [Hinv' Hun'].
  { apply Hun. by left. }
  cbn [for_each]. unfold bind at 1.
  destruct (populate_task disk rs (n, given) w) as [[[]|e] w']; cbn [snd] in *.
  - apply IH; [done..|]. intros m Hm. apply Hun'.
    + intros ->. done.
    + apply Hun. by right.
  - done.
Qed.

Lemma initial_world_inv (cfg : gmap string task_entry) (default : option polopt) :
  inv (initial_world cfg default) /\ forall n, untouched n (initial_world cfg default).
Proof.
  split; [|done]. intros n. constructor; cbn; try done; try lia.
Qed.

(** The invariant holds when the loop starts ... *)
Lemma boot_inv (cfg : gmap string task_entry) (default : option polopt)
    (disk : string -> option ExperienceDataset) (rs : string -> remote_run) :
  inv (boot cfg default disk rs).
Proof.
  unfold boot, populate.
  pose proof (for_each_populate_inv disk rs
                (prod_map id entry_has_experience <$> map_to_list cfg)
                (initial_world cfg default)) as H.
  destruct (for_each _ _ _) as [[[]|e] w]; cbn [snd] in H.
  all: try apply inv_set_main; apply H.
  all: try apply initial_world_inv.
  all: try (intros; apply initial_world_inv).
  all: rewrite <- list_fmap_compose;
    rewrite (list_fmap_ext _ fst (map_to_list cfg) ) by (by intros ? []);
    apply NoDup_fst_map_to_list.
Qed.

(** ... and at every later point of every run. *)
Lemma run_inv (cfg : gmap string task_entry) (default : option polopt)
    (disk : string -> option ExperienceDataset) (rs : string -> remote_run)
    (g : list string) (sched : list action) :
  inv (exec g sched (boot cfg default disk rs)).
Proof. apply exec_inv, boot_inv. Qed.

(** ** The path of the recorded state (C1) *)

Lemma path_ok_chain (l : list string) : path_ok l = true -> chain l = true.
Proof.
  destruct l as [|a l]; [done|]. unfold path_ok.
  intros H. by apply andb_true_iff in H as [_ H].
Qed.

(** The scheduler never assigns to [task_state]: the [ready] of line 306
    goes to the variable [state]. *)
Lemma main_step_task_state (g : list string) (c : cycle_run) (w w' : World) :
  main_step g c w = Some w' -> task_state w' = task_state w.
Proof.
  intros H.
  destruct (main_step_cases g c w w' H)
    as [-> | (n0 & q & w2 & r & ops & Hq & E & Hw')]; [done|].
  destruct E as [_ Ets _ _ _ _ _ _ _].
  by destruct Hw' as [-> | [e ->]].
Qed.

Lemma main_step_tasks (g : list string) (c : cycle_run) (w w' : World) :
  main_step g c w = Some w' ->
  tasks w' = tasks w \/ exists n0, tasks w = n0 :: tasks w'.
Proof.
  intros H.
  destruct (main_step_cases g c w w' H)
    as [-> | (n0 & q & w2 & r & ops & Hq & E & Hw')]; [by left|].
  destruct E as [Et _ _ _ _ _ _ _ _]. right. exists n0.
  destruct Hw' as [-> | [e ->]]; cbn in *; by rewrite Et.
Qed.

(** Once a task is [done], no step changes its recorded state, puts it on
    the queue or starts a thread for it. *)
Lemma done_is_final (g : list string) (a : action) (w w' : World) (n : string) :
  inv w -> step g a w = Some w' -> task_state w !! n = Some "done" ->
  task_state w' !! n = Some "done" /\
  (occurrences n (tasks w') <= occurrences n (tasks w))%nat /\
  n ∉ (started w').*2.
Proof.
  intros Hinv Hstep Hdone.
  assert (Hinv' : inv w') by (eapply step_inv; eauto).
  assert (Hkeep : task_state w' !! n = Some "done" /\
                  (occurrences n (tasks w') <= occurrences n (tasks w))%nat).
  { destruct a as [c | i l r]; cbn [step] in Hstep.
    - rewrite (main_step_task_state g c w w' Hstep). split; [done|].
      destruct (main_step_tasks g c w w' Hstep) as [-> | [n0 ->]]; [lia|].
      rewrite occurrences_cons. lia.
    - destruct (thread_step_cases i l r w w' Hstep) as (fn & n0 & res & Hi & E).
      destruct E as [_ _ _ _ Eoth _ Etasks _ _ _ _ _ _ _ _].
      cbn in Etasks.
      destruct (decide (n = n0)) as [->|Hne].
      + exfalso. destruct (Hinv n0) as [_ _ _ _ I5 _ _ _]. apply I5; [|done].
        apply list_elem_of_fmap. exists (fn, n0). split; [done|].
        by eapply list_elem_of_lookup_2.
      + destruct (Eoth n Hne) as [-> _]. split; [done|].
        rewrite Etasks, occurrences_app.
        assert (occurrences n (if is_ok res then [n0] else []) = 0%nat) as ->; [|lia].
        destruct (is_ok res); [|done]. rewrite occurrences_cons.
        by destruct (String.eqb_spec n n0). }
  destruct Hkeep as [Hd Hq]. repeat split; [done..|].
  intros Hin. destruct (Hinv' n) as [_ _ _ _ I5 _ _ _]. by apply I5.
Qed.

(** C1, as the code has it.  In every run, under every schedule, the values
    assigned to the recorded state of a task form a path that starts at
    [init] and goes, pass by pass, from [init] or [ready] through
    [compile_polopt] (at most once in the run) and [update_polopt] to
    [ready], and from [init] or [ready] to [done]; nothing is assigned after
    [done].  The scheduler itself assigns nothing: no [ready] is recorded
    when the random trials run out, and no state [training] exists.  Once
    [done] is recorded, no step changes it, puts the task on the queue or
    starts a thread for it; the pass that records [done] still puts the
    task on the queue one last time (line 149), where the scheduler finds
    it and drops it (lines 286-289). *)
Theorem C1_recorded_state_path (cfg : gmap string task_entry)
    (default : option polopt) (disk : string -> option ExperienceDataset)
    (rs : string -> remote_run) (g : list string) (sched : list action)
    (n : string) :
  let w := exec g sched (boot cfg default disk rs) in
  path_ok (writes n (log w)) = true /\
  (occurrences "compile_polopt" (writes n (log w)) <= 1)%nat /\
  ("done" ∈ writes n (log w) -> task_state w !! n = Some "done") /\
  (forall c w', main_step g c w = Some w' -> task_state w' = task_state w) /\
  (forall a w', step g a w = Some w' -> task_state w !! n = Some "done" ->
     task_state w' !! n = Some "done" /\
     (occurrences n (tasks w') <= occurrences n (tasks w))%nat /\
     n ∉ (started w').*2).
Proof.
  intros w. pose proof (run_inv cfg default disk rs g sched) as Hinv.
  fold w in Hinv. destruct (Hinv n) as [I1 I2 I3 I4 I5 I6 I7 I8].
  split; [done|]. split; [by rewrite I7|]. split; [|split].
  - intros Hin. rewrite <- I2. apply chain_done_last; [|done].
    by apply path_ok_chain.
  - intros c w'. apply main_step_task_state.
  - intros a w'. by apply done_is_final.
Qed.

(** The run of Scenario A under the local strategy, at its end: the task is
    [done] and on the queue; the next turn of the main thread takes it off
    and starts nothing. *)
Lemma C1_recorded_state_path_witness :
  let w := Cartpole.finished in
  let w' := exec Cartpole.with_task_id [MainLoop Cartpole.cycle_ok] w in
  task_state w !! "cartpole" = Some "done" /\
  task_state w' !! "cartpole" = Some "done" /\
  (occurrences "cartpole" (tasks w') <= occurrences "cartpole" (tasks w))%nat /\
  "cartpole" ∉ (started w').*2.
Proof.
  cbv zeta.
  destruct (C1_recorded_state_path
              (Cartpole.cfg (Some Fn_mc_pilco_polopt)) None Cartpole.no_disk
              (fun _ => Cartpole.remote_ok) Cartpole.with_task_id
              (Cartpole.rounds 5) "cartpole")
    as (_ & _ & Hdone & _ & Hstep).
  assert (H : task_state Cartpole.finished !! "cartpole" = Some "done").
  { apply Hdone. apply list_elem_of_In. vm_compute.
    repeat (first [left; reflexivity | right]). }
  split; [exact H|].
  apply (Hstep (MainLoop Cartpole.cycle_ok)); [vm_compute; reflexivity | exact H].
Defined.

(** The claim fails where [done] is recorded: the same pass then puts the
    task on the queue.  Its history also shows that neither [ready] nor a
    state [training] is recorded between [init] and [compile_polopt]. *)
Lemma C1_counterexample :
  let w := Cartpole.fifth_pass_started in
  let w' := Cartpole.finished in
  thread_step 0 Cartpole.local_ok Cartpole.remote_ok w = Some w' /\
  task_state w !! "cartpole" = Some "ready" /\ tasks w = [] /\
  task_state w' !! "cartpole" = Some "done" /\ tasks w' = ["cartpole"] /\
  new_ops w w' = [Train; SetState "update_polopt"; Minimize; SetState "ready";
                  SetState "done"; Put] /\
  writes "cartpole" (log w')
    = ["init"; "compile_polopt"; "update_polopt"; "ready";
       "update_polopt"; "ready"; "done"].
Proof. vm_compute. repeat split; reflexivity. Qed.

(** ** Building the objective once (C7) *)




(** The claim fails for a later pass that finds the variable [state] equal
    to ['init'].  In [Race.overtaken] the objective of [cartpole] has been
    built and a thread has been started for it after a new episode; the
    main thread has since dequeued [pendulum], which is still exploring.
    The pass of [cartpole] then returns without training and without
    running the optimiser. *)
Lemma C7_counterexample :
  let w := Race.overtaken in
  let w' := (mc_pilco_polopt Cartpole.local_ok "cartpole"
               (set_started w (delete 0%nat (started w)))).2 in
  compilations "cartpole" (log w) = 1%nat /\
  started w !! 0%nat = Some (Fn_mc_pilco_polopt, "cartpole") /\
  task_state w !! "cartpole" = Some "ready" /\
  state w = Some "init" /\
  thread_step 0 Cartpole.local_ok Cartpole.remote_ok w = Some w' /\
  new_ops w w' = [Put] /\
  Minimize ∉ new_ops w w'.
Proof.
  cbv zeta.
  assert (H : new_ops Race.overtaken
                (mc_pilco_polopt Cartpole.local_ok "cartpole"
                   (set_started Race.overtaken
                      (delete 0%nat (started Race.overtaken)))).2 = [Put])
    by (vm_compute; reflexivity).
  split; [vm_compute; reflexivity|]. split; [vm_compute; reflexivity|].
  split; [vm_compute; reflexivity|]. split; [vm_compute; reflexivity|].
  split; [vm_compute; reflexivity|]. split; [exact H|].
  rewrite H. intros Hin.
  apply elem_of_cons in Hin as [Hin|Hin]; [discriminate|].
  by apply elem_of_nil in Hin.
Qed.

(** ** One operation at a time: the same functions *)

Lemma run_pbind {A B} (p : prog A) (f : A -> prog B) (w : World) :
  run (pbind p f) w = bind (run p) (fun a => run (f a)) w.
Proof.
  revert w. induction p as [a | X m k IH]; intros w; [reflexivity|].
  cbn [pbind run]. unfold bind. destruct (m w) as [[x|e] w']; [apply IH | reflexivity].
Qed.

Lemma run_act {X} (m : M X) (w : World) : run (act m) w = m w.
Proof. cbn. unfold bind, ret. by destruct (m w) as [[]]. Qed.

Lemma run_pbind_ext {A B} (p : prog A) (f : A -> prog B) (m : M A) (g : A -> M B) :
  (forall w, run p w = m w) -> (forall a w, run (f a) w = g a w) ->
  forall w, run (pbind p f) w = bind m g w.
Proof.
  intros Hp Hf w. rewrite run_pbind. unfold bind. rewrite Hp.
  destruct (m w) as [[a|e] w']; [apply Hf | reflexivity].
Qed.

(** Running the operations of a function one after the other is the
    function. *)
Ltac same_function :=
  repeat first
    [ intro
    | apply run_pbind_ext
    | apply run_act
    | reflexivity
    | match goal with
      | |- context [match ?x with _ => _ end] => atomic x; destruct x
      end ].

Lemma mc_pilco_polopt_steps_run (r : local_run) (n : string) (w : World) :
  run (mc_pilco_polopt_steps r n) w = mc_pilco_polopt r n w.
Proof. revert w. unfold mc_pilco_polopt_steps, mc_pilco_polopt. same_function. Qed.

Lemma http_polopt_steps_run (r : remote_run) (n : string) (w : World) :
  run (http_polopt_steps r n) w = http_polopt r n w.
Proof. revert w. unfold http_polopt_steps, http_polopt. same_function. Qed.

Lemma run_polopt_steps_run (fn : polopt) (l : local_run) (r : remote_run)
    (n : string) (w : World) :
  run (run_polopt_steps fn l r n) w = run_polopt fn l r n w.
Proof.
  destruct fn; [apply mc_pilco_polopt_steps_run | apply http_polopt_steps_run].
Qed.

Lemma cycle_steps_run (c : cycle_run) (n : string) (w : World) :
  run (cycle_steps c n) w = cycle c n w.
Proof. revert w. unfold cycle_steps, cycle. same_function. Qed.

Lemma loop_body_steps_run (g : list string) (c : cycle_run) (n : string) (w : World) :
  run (loop_body_steps g c n) w = loop_body g c n w.
Proof.
  revert w. unfold loop_body_steps, loop_body.
  apply run_pbind_ext; [apply run_act | intros _; apply cycle_steps_run].
Qed.

(** ** Operations that keep to their task *)

Lemma all_private_pbind (private : forall X, M X -> Prop) {A B}
    (p : prog A) (f : A -> prog B) :
  all_private private p -> (forall a, all_private private (f a)) ->
  all_private private (pbind p f).
Proof.
  intros Hp Hf. induction p as [a | X m k IH]; cbn in *; [apply Hf|].
  destruct Hp as [Hm Hk]. split; [done|]. intros x. by apply IH.
Qed.

Lemma hands_over_pbind (private final : forall X, M X -> Prop) {A}
    (p : prog A) (f : A -> prog unit) :
  all_private private p -> (forall a, hands_over private final (f a)) ->
  hands_over private final (pbind p f).
Proof.
  intros Hp Hf. induction p as [a | X m k IH]; cbn in *; [apply Hf|].
  destruct Hp as [Hm Hk]. left. split; [done|]. intros x. by apply IH.
Qed.

Lemma all_private_act (private : forall X, M X -> Prop) {X} (m : M X) :
  private X m -> all_private private (act m).
Proof. intros H. cbn. by split. Qed.

Lemma hands_over_final (private final : forall X, M X -> Prop) (m : M unit) :
  final unit m -> hands_over private final (act m).
Proof. intros H. cbn. right. split; [done|]. by intros []. Qed.

Ltac solve_private :=
  unfold thread_private, main_private;
  intros w; unfold when, external, emit, write_task_state, read_task_state,
    read_state, assign_state, read_spec, update_spec, choose_polopt,
    lookup_global, ret, raise;
  repeat match goal with
         | |- context [match ?x with _ => _ end] => atomic x; destruct x eqn:?
         end;
  reduce_world; repeat split;
  unfold new_ops; reduce_world; rewrite ?drop_all, ?drop_app_length;
  cbn [fmap list_fmap snd forallb is_robot is_start negb andb];
  rewrite ?app_nil_r; try reflexivity; try assumption;
  rewrite ?lookup_insert_ne by done; done.

Ltac shape :=
  repeat first
    [ exact I
    | apply hands_over_final;
      first [ intros ?; reflexivity | intros ?; eexists; reflexivity ]
    | apply hands_over_pbind
    | apply all_private_pbind
    | apply all_private_act; solve_private
    | intro
    | match goal with
      | |- context [match ?x with _ => _ end] => atomic x; destruct x
      end
    | match goal with
      | |- context [let '(_, _) := ?x in _] => destruct x
      end ].

Lemma mc_pilco_polopt_steps_shape (r : local_run) (n : string) :
  thread_shape n (mc_pilco_polopt_steps r n).
Proof. unfold thread_shape, mc_pilco_polopt_steps. shape. Qed.

Lemma http_polopt_steps_shape (r : remote_run) (n : string) :
  thread_shape n (http_polopt_steps r n).
Proof. unfold thread_shape, http_polopt_steps. shape. Qed.

Lemma run_polopt_steps_shape (fn : polopt) (l : local_run) (r : remote_run)
    (n : string) :
  thread_shape n (run_polopt_steps fn l r n).
Proof.
  destruct fn; [apply mc_pilco_polopt_steps_shape | apply http_polopt_steps_shape].
Qed.

Lemma loop_body_steps_shape (g : list string) (c : cycle_run) (n : string) :
  main_shape n (loop_body_steps g c n).
Proof. unfold main_shape, loop_body_steps, cycle_steps. shape. Qed.

Lemma run_polopt_steps_live (fn : polopt) (l : local_run) (r : remote_run)
    (n : string) :
  live (run_polopt_steps fn l r n) = 1%nat.
Proof. by destruct fn. Qed.

Lemma loop_body_steps_live (g : list string) (c : cycle_run) (n : string) :
  live (loop_body_steps g c n) = 1%nat.
Proof. done. Qed.

(** ** Who holds a task *)

Lemma occurrences_snoc (n m : string) (l : list string) :
  occurrences n (l ++ [m])
  = (occurrences n l + (if (n =? m)%string then 1 else 0))%nat.
Proof.
  rewrite occurrences_app, occurrences_cons.
  change (occurrences n []) with 0%nat. lia.
Qed.

Lemma held_app (n : string) (l l' : list (string * prog unit)) :
  held n (l ++ l') = (held n l + held n l')%nat.
Proof. apply sum_list_with_app. Qed.

Lemma held_cons (n : string) (x : string * prog unit) (l : list (string * prog unit)) :
  held n (x :: l) = ((if (x.1 =? n)%string then live x.2 else 0) + held n l)%nat.
Proof. reflexivity. Qed.

Lemma held_delete (n : string) (l : list (string * prog unit)) (j : nat)
    (x : string * prog unit) :
  l !! j = Some x ->
  held n l = (held n (delete j l) + (if (x.1 =? n)%string then live x.2 else 0))%nat.
Proof.
  intros H. rewrite <- (take_drop_middle l j x H) at 1.
  rewrite delete_take_drop, !held_app, held_cons. lia.
Qed.

Lemma held_insert (n : string) (l : list (string * prog unit)) (j : nat)
    (x y : string * prog unit) :
  l !! j = Some x ->
  held n (<[j := y]> l)
  = (held n (delete j l) + (if (y.1 =? n)%string then live y.2 else 0))%nat.
Proof.
  intros H. rewrite insert_take_drop by (by eapply lookup_lt_Some).
  rewrite delete_take_drop, !held_app, held_cons. lia.
Qed.

Lemma live_le {A} (p : prog A) : (live p <= 1)%nat.
Proof. destruct p; cbn; lia. Qed.

Lemma new_ops_same (w w' : World) : log w' = log w -> new_ops w w' = [].
Proof. intros H. unfold new_ops. by rewrite H, drop_all. Qed.

Lemma boot_conc_inv (cfg : gmap string task_entry) (default : option polopt)
    (disk : string -> option ExperienceDataset) (rs : string -> remote_run) :
  conc_inv (boot_conc cfg default disk rs).
Proof.
  constructor.
  - intros n. pose proof (inv_tokens _ _ (boot_inv cfg default disk rs n)) as H.
    unfold tokens in H. unfold holders, boot_conc. cbn [shared running serving].
    change (held n []) with 0%nat. cbn [serving_on]. lia.
  - constructor.
  - intros n p H. discriminate.
Qed.

(** ** The steps of the main thread and of a thread, by cases *)

(** A step of the main thread: it takes a task off the queue and begins the
    body of the loop for it; or finds the loop condition false; or is at
    the end of the body; or performs an operation of the body that keeps to
    the task; or starts the thread, which ends the body. *)
Lemma main_turn_cases (g : list string) (cr : cycle_run) (c c' : Conc) :
  conc_inv c -> main_turn g cr c = Some c' ->
  let w := shared c in
  running c' = running c /\
  ((exists name q, serving c = None /\ tasks w = name :: q /\
      shared c' = set_log (set_tasks w q) (log w ++ [(name, Get)]) /\
      serving c' = Some (name, loop_body_steps g cr name)) \/
   (serving c = None /\ shared c' = set_main w Finished /\ serving c' = None) \/
   (exists name, serving c = Some (name, Ret tt) /\ shared c' = w /\
      serving c' = None) \/
   (exists name p w', serving c = Some (name, p) /\ live p = 1%nat /\
      act_effect name w w' /\
      ((shared c' = w' /\ exists p', serving c' = Some (name, p') /\
                                     main_shape name p') \/
       (exists e, shared c' = set_main w' (Crashed e) /\ serving c' = None))) \/
   (exists name p fn, serving c = Some (name, p) /\ live p = 1%nat /\
      let w' := set_log (set_started w (started w ++ [(fn, name)]))
                        (log w ++ [(name, Start fn)]) in
      (shared c' = w' /\ serving c' = Some (name, Ret tt)) \/
      (exists e, shared c' = set_main w' (Crashed e) /\ serving c' = None))).
Proof.
  intros [_ _ Hs] H w. unfold main_turn in H. fold w in H.
  destruct (main w); try discriminate.
  destruct (serving c) as [[name p]|] eqn:Es.
  - specialize (Hs name p eq_refl). destruct p as [[]|X m k].
    + injection H as <-. split; [done|]. right; right; left. by exists name.
    + cbn in Hs. destruct Hs as [[Hp Hk]|[Hf Hk]].
      * specialize (Hp w).
        destruct (m w) as [[x|e] w'] eqn:Em; injection H as <-.
        all: split; [done|]; right; right; right; left.
        all: exists name, (Act m k), w'; split; [done|]; split; [done|].
        all: split; [exact Hp|].
        -- left. split; [done|]. exists (k x). split; [done|apply Hk].
        -- right. by exists e.
      * destruct (Hf w) as [fn Hw].
        destruct (m w) as [[x|e] w'] eqn:Em; injection H as <-; cbn in Hw; subst w'.
        all: split; [done|]; right; right; right; right.
        all: exists name, (Act m k), fn; split; [done|]; split; [done|].
        -- left. cbn. by rewrite Hk.
        -- right. by exists e.
  - destruct (loop_guard w).
    + destruct (tasks w) as [|name q] eqn:Eq; [discriminate|].
      injection H as <-. split; [done|]. left. by exists name, q.
    + injection H as <-. split; [done|]. right; left. done.
Qed.

(** A step of a thread that has begun: it is over and leaves; or performs
    an operation that keeps to its task, touches neither the robot nor the
    variable [state] and starts no thread; or puts its task on the queue,
    which is its last operation. *)
Lemma thread_act_cases (j : nat) (c c' : Conc) :
  conc_inv c -> thread_act j c = Some c' ->
  let w := shared c in
  serving c' = serving c /\
  exists name p, running c !! j = Some (name, p) /\
  ((p = Ret tt /\ shared c' = w /\ running c' = delete j (running c)) \/
   (live p = 1%nat /\ act_effect name w (shared c') /\
    state (shared c') = state w /\
    forallb (fun o => negb (is_robot o) && negb (is_start o))
            (new_ops w (shared c')) = true /\
    ((exists p', running c' = <[j := (name, p')]> (running c) /\
                 thread_shape name p') \/
     running c' = delete j (running c))) \/
   (live p = 1%nat /\
    shared c' = set_log (set_tasks w (tasks w ++ [name])) (log w ++ [(name, Put)]) /\
    (running c' = <[j := (name, Ret tt)]> (running c) \/
     running c' = delete j (running c)))).
Proof.
  intros [_ Hr _] H w. unfold thread_act in H.
  destruct (running c !! j) as [[name p]|] eqn:Ej; [|discriminate].
  pose proof (Forall_lookup_1 _ _ _ _ Hr Ej) as Hs. cbn in Hs.
  destruct p as [[]|X m k].
  - injection H as <-. split; [done|]. exists name, (Ret tt). split; [done|].
    left. done.
  - cbn in Hs. fold w in H. destruct Hs as [[Hp Hk]|[Hf Hk]].
    + destruct (Hp w) as (He & Hst & Hq).
      destruct (m w) as [[x|e] w'] eqn:Em; injection H as <-.
      all: split; [done|]; exists name, (Act m k); split; [done|].
      all: right; left; split; [done|]; split; [exact He|].
      all: split; [exact Hst|]; split; [exact Hq|].
      * left. exists (k x). split; [done|apply Hk].
      * by right.
    + pose proof (Hf w) as Hw.
      destruct (m w) as [[x|e] w'] eqn:Em; injection H as <-; cbn in Hw; subst w'.
      all: split; [done|]; exists name, (Act m k); split; [done|].
      all: right; right; split; [done|]; split; [done|].
      * left. cbn. by rewrite Hk.
      * by right.
Qed.

Lemma serving_on_le (n : string) (s : option (string * prog unit)) :
  (serving_on n s <= 1)%nat.
Proof.
  destruct s as [[m p]|]; cbn; [|lia].
  pose proof (live_le p). destruct (m =? n)%string; lia.
Qed.

(** ** The invariant is kept by every step, operation by operation *)

Lemma main_turn_inv (g : list string) (cr : cycle_run) (c c' : Conc) :
  conc_inv c -> main_turn g cr c = Some c' -> conc_inv c'.
Proof.
  intros Hinv H. destruct (main_turn_cases g cr c c' Hinv H) as [Hrun Hcases].
  destruct Hinv as [Hh Hr Hs].
  constructor; [| by rewrite Hrun |].
  - intros n. specialize (Hh n). unfold holders in *. rewrite Hrun.
    destruct Hcases as
      [(name & q & Es & Eq & -> & ->) |
       [(Es & -> & ->) |
        [(name & Es & -> & ->) |
         [(name & p & w' & Es & Hl & He & Hc) |
          (name & p & fn & Es & Hl & Hc)]]]];
      rewrite Es in Hh; reduce_world; cbn [serving_on] in *.
    + rewrite Eq, occurrences_cons in Hh. rewrite (String.eqb_sym name n).
      rewrite loop_body_steps_live. destruct (n =? name)%string; lia.
    + lia.
    + lia.
    + destruct He as [Et Est _ _ _]. rewrite Hl in Hh.
      destruct Hc as [[-> (p' & -> & _)] | (e & -> & ->)];
        reduce_world; rewrite Et, Est; cbn [serving_on].
      * pose proof (live_le p'). destruct (name =? n)%string; lia.
      * lia.
    + rewrite Hl in Hh.
      destruct Hc as [[-> ->] | (e & -> & ->)];
        reduce_world; rewrite fmap_app, occurrences_app; cbn [serving_on live];
        cbn [fmap list_fmap snd]; rewrite occurrences_cons;
        change (occurrences n []) with 0%nat; rewrite (String.eqb_sym name n) in Hh;
        rewrite ?(String.eqb_sym name n); destruct (n =? name)%string; lia.
  - intros n p Hsv.
    destruct Hcases as
      [(name & q & Es & Eq & _ & E) |
       [(Es & _ & E) |
        [(name & Es & _ & E) |
         [(name & p0 & w' & Es & Hl & He & Hc) |
          (name & p0 & fn & Es & Hl & Hc)]]]].
    + rewrite E in Hsv. injection Hsv as <- <-. apply loop_body_steps_shape.
    + rewrite E in Hsv. discriminate.
    + rewrite E in Hsv. discriminate.
    + destruct Hc as [[_ (p' & E & Hp')] | (e & _ & E)]; rewrite E in Hsv;
        [|discriminate]. by injection Hsv as <- <-.
    + destruct Hc as [[_ E] | (e & _ & E)]; rewrite E in Hsv; [|discriminate].
      injection Hsv as <- <-. exact I.
Qed.

Lemma thread_begin_inv (i : nat) (l : local_run) (r : remote_run) (c c' : Conc) :
  conc_inv c -> thread_begin i l r c = Some c' -> conc_inv c'.
Proof.
  intros [Hh Hr Hs] H. unfold thread_begin in H.
  destruct (started (shared c) !! i) as [[fn name]|] eqn:Ei; [|discriminate].
  injection H as <-. constructor; cbn [shared running serving].
  - intros n. specialize (Hh n). unfold holders in *. reduce_world.
    cbn [shared running serving].
    rewrite (occurrences_delete snd n _ i _ Ei) in Hh. cbn [snd] in Hh.
    rewrite held_app, held_cons. cbn [fst snd]. change (held n []) with 0%nat.
    rewrite run_polopt_steps_live, (String.eqb_sym name n). reduce_world.
    destruct (n =? name)%string; lia.
  - apply Forall_app. split; [done|]. constructor; [|constructor].
    apply run_polopt_steps_shape.
  - done.
Qed.

Lemma thread_act_inv (j : nat) (c c' : Conc) :
  conc_inv c -> thread_act j c = Some c' -> conc_inv c'.
Proof.
  intros Hinv H.
  destruct (thread_act_cases j c c' Hinv H) as (Hsv & name & p & Ej & Hcases).
  destruct Hinv as [Hh Hr Hs].
  constructor; [| | by rewrite Hsv].
  - intros n. specialize (Hh n). unfold holders in *. rewrite Hsv.
    rewrite (held_delete n _ j _ Ej) in Hh. cbn [fst snd] in Hh.
    destruct Hcases as
      [(-> & -> & ->) |
       [(Hl & He & _ & _ & Hc) | (Hl & -> & Hc)]].
    + cbn [live] in Hh. lia.
    + destruct He as [Et Est _ _ _]. rewrite Et, Est. rewrite Hl in Hh.
      destruct Hc as [(p' & -> & _) | ->].
      * rewrite (held_insert n _ j _ _ Ej). cbn [fst snd].
        pose proof (live_le p'). destruct (name =? n)%string; lia.
      * destruct (name =? n)%string; lia.
    + rewrite Hl in Hh. reduce_world. rewrite occurrences_snoc.
      rewrite (String.eqb_sym name n) in Hh.
      destruct Hc as [-> | ->].
      * rewrite (held_insert n _ j _ _ Ej). cbn [fst snd live].
        destruct (n =? name)%string, (name =? n)%string; lia.
      * destruct (n =? name)%string; lia.
  - destruct Hcases as
      [(_ & _ & ->) | [(_ & _ & _ & _ & Hc) | (_ & _ & Hc)]].
    + by apply Forall_delete.
    + destruct Hc as [(p' & -> & Hp') | ->];
        [by apply Forall_insert | by apply Forall_delete].
    + destruct Hc as [-> | ->];
        [by apply Forall_insert | by apply Forall_delete].
Qed.

Lemma micro_step_inv (g : list string) (a : micro) (c c' : Conc) :
  conc_inv c -> micro_step g a c = Some c' -> conc_inv c'.
Proof.
  destruct a as [cr | i l r | j]; cbn [micro_step].
  - apply main_turn_inv.
  - apply thread_begin_inv.
  - apply thread_act_inv.
Qed.

Lemma interleave_inv (g : list string) (sched : list micro) (c : Conc) :
  conc_inv c -> conc_inv (interleave g sched c).
Proof.
  revert c. induction sched as [|a sched IH]; intros c Hinv; [done|].
  cbn [interleave]. destruct (micro_step g a c) as [c'|] eqn:E.
  - apply IH. by eapply micro_step_inv.
  - by apply IH.
Qed.

(** A step by anyone who is not working on task [n] leaves the recorded
    state and the spec of [n] as they are. *)
Lemma micro_step_others (g : list string) (a : micro) (c c' : Conc) (n : string) :
  conc_inv c -> micro_step g a c = Some c' -> actor a c <> Some n ->
  task_state (shared c') !! n = task_state (shared c) !! n /\
  config_tasks (shared c') !! n = config_tasks (shared c) !! n.
Proof.
  intros Hinv H Ha. destruct a as [cr | i l r | j]; cbn [micro_step actor] in *.
  - destruct (main_turn_cases g cr c c' Hinv H) as [_ Hcases].
    destruct Hcases as
      [(name & q & _ & _ & -> & _) |
       [(_ & -> & _) |
        [(name & _ & -> & _) |
         [(name & p & w' & Es & _ & He & Hc) |
          (name & p & fn & _ & _ & Hc)]]]]; try done.
    + rewrite Es in Ha. cbn in Ha.
      assert (Hne : n <> name) by congruence.
      destruct He as [_ _ _ Ho _]. specialize (Ho n Hne).
      by destruct Hc as [[-> _] | (e & -> & _)].
    + by destruct Hc as [[-> _] | (e & -> & _)].
  - unfold thread_begin in H.
    destruct (started (shared c) !! i) as [[fn name]|]; [|discriminate].
    by injection H as <-.
  - destruct (thread_act_cases j c c' Hinv H) as (_ & name & p & Ej & Hcases).
    rewrite Ej in Ha. cbn in Ha. assert (Hne : n <> name) by congruence.
    destruct Hcases as [(_ & -> & _) | [(_ & He & _) | (_ & -> & _)]]; try done.
    destruct He as [_ _ _ Ho _]. exact (Ho n Hne).
Qed.

(** A thread logs no operation on the robot and starts no thread. *)
Lemma thread_steps_quiet (g : list string) (a : micro) (c c' : Conc) :
  conc_inv c -> micro_step g a c = Some c' -> (forall cr, a <> MainTurn cr) ->
  forallb (fun o => negb (is_robot o) && negb (is_start o))
          (new_ops (shared c) (shared c')) = true.
Proof.
  intros Hinv H Ha. destruct a as [cr | i l r | j]; cbn [micro_step] in *.
  - by destruct (Ha cr).
  - unfold thread_begin in H.
    destruct (started (shared c) !! i) as [[fn name]|]; [|discriminate].
    injection H as <-. by rewrite new_ops_same.
  - destruct (thread_act_cases j c c' Hinv H) as (_ & name & p & Ej & Hcases).
    destruct Hcases as [(_ & -> & _) | [(_ & _ & _ & Hq & _) | (_ & -> & _)]].
    + by rewrite new_ops_same.
    + exact Hq.
    + unfold new_ops. reduce_world. by rewrite drop_app_length.
Qed.

(** A step after which a task occurs more often in the queue is the put of
    a thread of that task. *)
Lemma micro_step_put (g : list string) (a : micro) (c c' : Conc) (n : string) :
  conc_inv c -> micro_step g a c = Some c' ->
  (occurrences n (tasks (shared c)) < occurrences n (tasks (shared c')))%nat ->
  exists j p, a = ThreadAct j /\ running c !! j = Some (n, p) /\
              tasks (shared c') = tasks (shared c) ++ [n].
Proof.
  intros Hinv H Hlt. destruct a as [cr | i l r | j]; cbn [micro_step] in *.
  - exfalso. destruct (main_turn_cases g cr c c' Hinv H) as [_ Hcases].
    destruct Hcases as
      [(name & q & _ & Eq & E & _) |
       [(_ & E & _) |
        [(name & _ & E & _) |
         [(name & p & w' & Es & _ & He & Hc) |
          (name & p & fn & _ & _ & Hc)]]]].
    + rewrite E, Eq, occurrences_cons in Hlt. revert Hlt. reduce_world. lia.
    + rewrite E in Hlt. revert Hlt. reduce_world. lia.
    + rewrite E in Hlt. lia.
    + destruct He as [Et _ _ _ _].
      destruct Hc as [[E _] | (e & E & _)]; rewrite E in Hlt; revert Hlt;
        reduce_world; rewrite Et; lia.
    + destruct Hc as [[E _] | (e & E & _)]; rewrite E in Hlt; revert Hlt;
        reduce_world; lia.
  - exfalso. unfold thread_begin in H.
    destruct (started (shared c) !! i) as [[fn name]|]; [|discriminate].
    injection H as <-. cbn [shared] in Hlt. revert Hlt. reduce_world. lia.
  - destruct (thread_act_cases j c c' Hinv H) as (_ & name & p & Ej & Hcases).
    destruct Hcases as [(_ & E & _) | [(_ & He & _) | (_ & E & _)]].
    + rewrite E in Hlt. lia.
    + destruct He as [Et _ _ _ _]. rewrite Et in Hlt. lia.
    + rewrite E in Hlt |- *. revert Hlt. reduce_world. rewrite occurrences_snoc.
      destruct (String.eqb_spec n name) as [->|Hne]; [|lia].
      intros _. by exists j, p.
Qed.

(** ** One writer per task (C8) *)

(** C8.  The script is followed operation by operation: between two
    operations of one thread the others may run.  The operations of
    [run_polopt_steps] and [loop_body_steps], run in one go, are the
    functions of the script.  In every run, under every schedule and for
    every task [n]: the queue items of [n], its started threads, its
    threads in flight that have an operation left, and the main thread
    while it works on [n] are at most one in all; so while a thread of [n]
    is in flight the task is not on the queue, has no started thread, no
    other thread of it is in flight and the main thread is not working on
    it, and while the main thread works on [n] no thread of [n] is started
    or in flight.  A step by anyone who is not working on [n] leaves the
    recorded state and the spec of [n], with its experience and its policy,
    as they are.  A step of a thread logs no operation on the robot and
    starts no thread.  A step after which [n] occurs more often in the
    queue is the put of a thread of [n]; it is the last operation of that
    thread, after which nothing but the queue item holds [n]. *)
Theorem C8_one_writer_per_task (cfg : gmap string task_entry)
    (default : option polopt) (disk : string -> option ExperienceDataset)
    (rs : string -> remote_run) (g : list string) (sched : list micro)
    (n : string) :
  let c := interleave g sched (boot_conc cfg default disk rs) in
  (forall fn l r w, run (run_polopt_steps fn l r n) w = run_polopt fn l r n w) /\
  (forall cr w, run (loop_body_steps g cr n) w = loop_body g cr n w) /\
  (holders n c <= 1)%nat /\
  (forall j p, running c !! j = Some (n, p) -> live p = 1%nat ->
     tokens n (shared c) = 0%nat /\ serving_on n (serving c) = 0%nat /\
     held n (delete j (running c)) = 0%nat) /\
  (forall p, serving c = Some (n, p) -> live p = 1%nat ->
     tokens n (shared c) = 0%nat /\ held n (running c) = 0%nat) /\
  (forall a c', micro_step g a c = Some c' -> actor a c <> Some n ->
     task_state (shared c') !! n = task_state (shared c) !! n /\
     config_tasks (shared c') !! n = config_tasks (shared c) !! n) /\
  (forall a c', micro_step g a c = Some c' -> (forall cr, a <> MainTurn cr) ->
     forallb (fun o => negb (is_robot o) && negb (is_start o))
             (new_ops (shared c) (shared c')) = true) /\
  (forall a c', micro_step g a c = Some c' ->
     (occurrences n (tasks (shared c)) < occurrences n (tasks (shared c')))%nat ->
     exists j p, a = ThreadAct j /\ running c !! j = Some (n, p) /\
                 tasks (shared c') = tasks (shared c) ++ [n] /\
                 holders n c' = occurrences n (tasks (shared c'))).
Proof.
  intros c.
  assert (Hinv : conc_inv c) by apply interleave_inv, boot_conc_inv.
  pose proof (ci_holders c Hinv n) as Hh.
  split; [intros; apply run_polopt_steps_run|].
  split; [intros; apply loop_body_steps_run|].
  split; [exact Hh|].
  unfold holders, tokens in *.
  split; [|split; [|split; [|split]]].
  - intros j p Ej Hl. rewrite (held_delete n _ j _ Ej) in Hh. cbn [fst snd] in Hh.
    rewrite String.eqb_refl, Hl in Hh. lia.
  - intros p Es Hl. rewrite Es in Hh. cbn [serving_on] in Hh.
    rewrite String.eqb_refl, Hl in Hh. lia.
  - intros a c' Hstep Ha. by apply (micro_step_others g a).
  - intros a c' Hstep Ha. by apply (thread_steps_quiet g a).
  - intros a c' Hstep Hlt.
    destruct (micro_step_put g a c c' n Hinv Hstep Hlt) as (j & p & -> & Ej & Et).
    exists j, p. split; [done|]. split; [done|]. split; [done|].
    pose proof (ci_holders c' (micro_step_inv g _ c c' Hinv Hstep) n) as Hh'.
    unfold holders in Hh'. lia.
Qed.

(** The thread of [cartpole] and the main thread, which works on
    [pendulum], are both at work: the next operation of the main thread
    leaves [cartpole] alone; the next operation of the thread is its put,
    after which only the queue item holds [cartpole]. *)
Lemma C8_one_writer_per_task_witness :
  let c := Overlap.both_at_work in
  let c1 := interleave Cartpole.with_task_id [MainTurn Cartpole.cycle_ok] c in
  let c2 := interleave Cartpole.with_task_id [ThreadAct 0] c in
  (fst <$> serving c = Some "pendulum" /\ fst <$> running c = ["cartpole"]) /\
  (holders "cartpole" c <= 1)%nat /\
  (task_state (shared c1) !! "cartpole" = task_state (shared c) !! "cartpole" /\
   config_tasks (shared c1) !! "cartpole" = config_tasks (shared c) !! "cartpole") /\
  forallb (fun o => negb (is_robot o) && negb (is_start o))
          (new_ops (shared c) (shared c2)) = true /\
  (exists j p, ThreadAct 0 = ThreadAct j /\ running c !! j = Some ("cartpole", p) /\
               tasks (shared c2) = tasks (shared c) ++ ["cartpole"] /\
               holders "cartpole" c2 = occurrences "cartpole" (tasks (shared c2))).
Proof.
  cbv zeta.
  destruct (C8_one_writer_per_task TwoTasks.cfg None Cartpole.no_disk
              (fun _ => Cartpole.remote_ok) Cartpole.with_task_id
              Overlap.sched "cartpole")
    as (_ & _ & Hh & _ & _ & Hothers & Hquiet & Hput).
  split; [split; vm_compute; reflexivity|].
  split; [exact Hh|]. split; [|split].
  - apply (Hothers (MainTurn Cartpole.cycle_ok)); [vm_compute; reflexivity|].
    vm_compute. discriminate.
  - apply (Hquiet (ThreadAct 0)); [vm_compute; reflexivity | discriminate].
  - apply (Hput (ThreadAct 0)); [vm_compute; reflexivity | vm_compute; lia].
Defined.

(** ** The first pass of the loop (C10) *)

Lemma task_id_unbound : existsb (String.eqb "task_id") module_globals = false.
Proof. reflexivity. Qed.

(** What the loop of line 248 leaves: the names of the tasks, in order, on
    the queue when it returns; no thread and no operation on the robot
    either way. *)
Lemma for_each_populate (disk : string -> option ExperienceDataset)
    (rs : string -> remote_run) (items : list (string * bool)) (w : World) :
  let out := for_each (populate_task disk rs) items w in
  started out.2 = started w /\ main out.2 = main w /\
  (forallb (fun e : event => negb (is_robot e.2)) (log w) = true ->
   forallb (fun e : event => negb (is_robot e.2)) (log out.2) = true) /\
  (is_ok out.1 = true -> tasks out.2 = tasks w ++ items.*1).
Proof.
  revert w. induction items as [|[n given] items IH]; intros w; cbv zeta.
  - cbn. by rewrite app_nil_r.
  - cbn [for_each]. unfold bind at 1 2 3 4 5.
    destruct (populate_task_effect disk rs n given w)
      as [Est Estd Emain Eoth Elog Etasks Equiet Ew Erec Ecmp].
    destruct (populate_task disk rs (n, given) w) as [[[]|e] w1]; cbn [fst snd] in *.
    + destruct (IH w1) as (H1 & H2 & H3 & H4).
      rewrite H1, H2, Estd, Emain. repeat split.
      * intros Hlog. apply H3. rewrite Elog, forallb_app, Hlog. cbn [andb].
        clear -Equiet. induction (new_ops w w1) as [|o ops IHo]; [done|].
        cbn in *. apply andb_true_iff in Equiet as [Ho Hq].
        apply andb_true_iff in Ho as [-> _]. by apply IHo.
      * intros Hok. rewrite (H4 Hok), Etasks, <- app_assoc. done.
    + repeat split; [done..| |discriminate].
      intros Hlog. rewrite Elog, forallb_app, Hlog. cbn [andb].
      clear -Equiet. induction (new_ops w w1) as [|o ops IHo]; [done|].
      cbn in *. apply andb_true_iff in Equiet as [Ho Hq].
      apply andb_true_iff in Ho as [-> _]. by apply IHo.
Qed.

Lemma boot_world (cfg : gmap string task_entry) (default : option polopt)
    (disk : string -> option ExperienceDataset) (rs : string -> remote_run) :
  let w := boot cfg default disk rs in
  started w = [] /\
  forallb (fun e : event => negb (is_robot e.2)) (log w) = true /\
  (main w = Running -> tasks w = (map_to_list cfg).*1).
Proof.
  cbv zeta. unfold boot, populate.
  destruct (for_each_populate disk rs
              (prod_map id entry_has_experience <$> map_to_list cfg)
              (initial_world cfg default)) as (H1 & H2 & H3 & H4).
  assert (Hnames : (prod_map id entry_has_experience <$> map_to_list cfg).*1
                   = (map_to_list cfg).*1).
  { rewrite <- list_fmap_compose. apply list_fmap_ext. by intros ? []. }
  destruct (for_each _ _ _) as [[[]|e] w]; cbn [fst snd] in *.
  - repeat split; [done | by apply H3|]. intros _. by rewrite H4, Hnames.
  - repeat split; [done | by apply H3 | discriminate].
Qed.

(** C10.  The name [task_id] is bound nowhere in the script.  Whenever the
    start-up has returned and the loop condition holds, the queue is not
    empty, and the first turn of the main thread takes a task off it and
    ends with [NameError] on line 282: up to then no operation on the robot
    is logged, no thread is started, the specs with their experience are
    as after the start-up, and no schedule changes the world any more. *)
Theorem C10_first_dequeue_raises_NameError (cfg : gmap string task_entry)
    (default : option polopt) (disk : string -> option ExperienceDataset)
    (rs : string -> remote_run) (c : cycle_run) :
  let w := boot cfg default disk rs in
  main w = Running -> loop_guard w = true ->
  existsb (String.eqb "task_id") module_globals = false /\
  exists n q w',
    tasks w = n :: q /\
    main_step module_globals c w = Some w' /\
    main w' = Crashed (NameError "task_id") /\
    log w' = log w ++ [(n, Get)] /\
    forallb (fun e : event => negb (is_robot e.2)) (log w') = true /\
    started w' = [] /\
    config_tasks w' = config_tasks w /\
    forall sched, exec module_globals sched w' = w'.
Proof.
  intros w Hmain Hguard. split; [reflexivity|].
  destruct (boot_world cfg default disk rs) as (Hstd & Hlog & Htasks).
  fold w in Hstd, Hlog, Htasks. specialize (Htasks Hmain).
  destruct (tasks w) as [|n q] eqn:Hq.
  { exfalso. symmetry in Htasks. apply fmap_nil_inv in Htasks.
    apply map_to_list_empty_iff in Htasks. subst cfg.
    subst w. unfold boot, populate in Hguard.
    rewrite map_to_list_empty in Hguard. cbn in Hguard.
    unfold loop_guard in Hguard. cbn in Hguard.
    rewrite map_to_list_empty in Hguard. discriminate. }
  exists n, q.
  exists (set_main (set_log (set_tasks w q) (log w ++ [(n, Get)]))
                   (Crashed (NameError "task_id"))).
  split; [done|]. split.
  { unfold main_step. rewrite Hmain, Hguard, Hq.
    unfold loop_body, lookup_global, bind. by rewrite task_id_unbound. }
  cbn. split; [done|]. split; [done|]. split.
  { by rewrite forallb_app, Hlog. }
  split; [done|]. split; [done|].
  intros sched. induction sched as [|a sched IH]; [done|].
  cbn [exec]. destruct a as [c' | i l r]; cbn [step].
  - unfold main_step. cbn. exact IH.
  - unfold thread_step. cbn. rewrite Hstd. cbn. exact IH.
Qed.

Lemma C10_first_dequeue_raises_NameError_witness :
  let w := Cartpole.start None in
  existsb (String.eqb "task_id") module_globals = false /\
  exists n q w',
    tasks w = n :: q /\
    main_step module_globals Cartpole.cycle_ok w = Some w' /\
    main w' = Crashed (NameError "task_id") /\
    log w' = log w ++ [(n, Get)] /\
    forallb (fun e : event => negb (is_robot e.2)) (log w') = true /\
    started w' = [] /\
    config_tasks w' = config_tasks w /\
    forall sched, exec module_globals sched w' = w'.
Proof.
  apply (C10_first_dequeue_raises_NameError (Cartpole.cfg None) None
           Cartpole.no_disk (fun _ => Cartpole.remote_ok) Cartpole.cycle_ok);
    vm_compute; reflexivity.
Defined.

(** ** Exploration and the first optimisation (C4) *)

(** Lines 299-306 and 322-339 for a task dequeued in state [init] with
    random trials left: the episode runs under [RandPolicy], its recorded
    parameters are empty, the count goes down by one, the thread started is
    [mc_pilco_polopt], and the variable [state], not [task_state], becomes
    [ready] when the count reaches zero. *)
Lemma cycle_init_explores (c : cycle_run) (n : string) (w : World)
    (sp : TaskSpec) (tr : trajectory) :
  task_state w !! n = Some "init" ->
  config_tasks w !! n = Some sp ->
  0 < initial_random_trials sp ->
  init_params_ok c = true ->
  apply_controller c = Some tr ->
  save_ok c = true ->
  cycle c n w =
    (Ok tt,
     {| tasks := tasks w; task_state := task_state w;
        state := Some (if initial_random_trials sp - 1 <? 1 then "ready" else "init");
        config_tasks :=
          <[n := with_experience
                   (with_initial_random_trials sp (initial_random_trials sp - 1))
                   (append_episode (experience sp) tr [])]> (config_tasks w);
        default_polopt_fn := default_polopt_fn w;
        started := started w ++ [(Fn_mc_pilco_polopt, n)];
        main := main w;
        log := log w ++ [(n, InitParams); (n, Episode RandPolicy);
                         (n, Start Fn_mc_pilco_polopt)] |}).
Proof.
  intros Hst Hsp Htr Hinit Hc Hsave. apply Z.ltb_lt in Htr.
  unfold cycle. unfold_ops. reduce_world. rewrite Hst. reduce_world.
  rewrite Hsp. cbn [String.eqb Ascii.eqb Bool.eqb andb]. rewrite Hinit, Htr.
  reduce_world. rewrite Hsp. reduce_world.
  destruct (initial_random_trials sp - 1 <? 1); reduce_world; rewrite Hc;
    reduce_world; rewrite lookup_insert_eq; reduce_world; rewrite Hsave;
    reduce_world; rewrite insert_insert_eq, <- !app_assoc; reflexivity.
Qed.

(** Under the local strategy the run of Scenario A ends in [done]: four
    episodes under [RandPolicy], the fifth under the learned policy; the
    objective is built once, in the pass started by the fourth dequeue. *)
Lemma scenario_A_local :
  let w := exec Cartpole.with_task_id (Cartpole.rounds 5)
                (Cartpole.start (Some Fn_mc_pilco_polopt)) in
  episodes_of "cartpole" (log w)
    = [RandPolicy; RandPolicy; RandPolicy; RandPolicy; LearnedPolicy] /\
  writes "cartpole" (log w)
    = ["init"; "compile_polopt"; "update_polopt"; "ready";
       "update_polopt"; "ready"; "done"] /\
  task_state w !! "cartpole" = Some "done".
Proof. vm_compute. repeat split; reflexivity. Qed.

(** A task left to the remote strategy stays [ready] for ever: the loop
    starts only [http_polopt] for it, and that never writes [task_state]. *)
Lemma remote_only_step (g : list string) (a : action) (w w' : World) (n : string) :
  remote_only n w -> step g a w = Some w' -> remote_only n w'.
Proof.
  intros [Hready Hdef (sp & Hsp & Hfn) Hthr] Hstep.
  destruct a as [c | i l r]; cbn [step] in Hstep.
  - destruct (main_step_cases g c w w' Hstep)
      as [-> | (n0 & q & w2 & res & ops & Hq & E & Hw')].
    { constructor; cbn; eauto. }
    destruct E as [_ Ets _ Edef Eoth _ _ Estd Espec]. cbn in Ets, Edef, Estd, Espec.
    assert (Hgoal : remote_only n w2).
    { constructor.
      - by rewrite Ets.
      - by rewrite Edef.
      - destruct (decide (n = n0)) as [->|Hne].
        + destruct (Espec sp Hsp) as (sp' & Hsp' & _ & _ & Hfn').
          exists sp'. split; [done|]. by rewrite Hfn'.
        + destruct (Eoth n Hne) as [_ Ecf]. cbn in Ecf. exists sp. by rewrite Ecf.
      - intros fn Hin.
        destruct Estd as [Heq | ((fn0 & Heq & Hchoice) & _)]; rewrite Heq in Hin;
          [by apply Hthr|].
        apply elem_of_app in Hin as [Hin | Hin]; [by apply Hthr|].
        apply list_elem_of_singleton in Hin. injection Hin as -> ->.
        destruct Hchoice as [Hinit | Hch]; [congruence|].
        rewrite (Hch sp Hsp), Hdef. unfold chosen_polopt. by rewrite Hfn. }
    destruct Hw' as [-> | [e ->]]; [done|].
    destruct Hgoal. constructor; cbn; eauto.
  - unfold thread_step in Hstep.
    destruct (started w !! i) as [[fn n0]|] eqn:Hi; [|discriminate].
    injection Hstep as <-.
    set (w1 := set_started w (delete i (started w))).
    destruct (run_polopt_effect fn l r n0 w1)
      as [_ Estd _ Edef Eoth _ _ _ _ _ _ _ _ Espec _].
    cbn in Estd, Edef, Espec.
    assert (Hsub : forall x, x ∈ started (run_polopt fn l r n0 w1).2 -> x ∈ started w).
    { intros x Hx. rewrite Estd in Hx.
      eapply elem_of_sublist; [exact Hx | apply sublist_delete]. }
    constructor.
    + destruct (decide (n = n0)) as [->|Hne].
      * assert (fn = Fn_http_polopt) as ->.
        { apply Hthr. by eapply list_elem_of_lookup_2. }
        cbn [run_polopt]. by rewrite http_polopt_task_state.
      * by destruct (Eoth n Hne) as [-> _].
    + by rewrite Edef.
    + destruct (decide (n = n0)) as [->|Hne].
      * destruct (Espec sp Hsp) as (sp' & Hsp' & _ & Hfn' & _).
        exists sp'. split; [done|]. by rewrite Hfn'.
      * destruct (Eoth n Hne) as [_ Ecf]. cbn in Ecf. exists sp. by rewrite Ecf.
    + intros fn' Hin. by apply Hthr, Hsub.
Qed.

Lemma remote_only_exec (g : list string) (sched : list action) (w : World) (n : string) :
  remote_only n w -> remote_only n (exec g sched w).
Proof.
  revert w. induction sched as [|a sched IH]; intros w H; [done|].
  cbn [exec]. destruct (step g a w) as [w'|] eqn:Hstep; [|by apply IH].
  eapply IH, remote_only_step; eauto.
Qed.

(** C4.  A task with four random trials and [n_opt = 1] and no [polopt_fn]
    of its own, so that line 310 picks [http_polopt].  With [task_id]
    bound, the first four episodes run under [RandPolicy] and the fifth
    under the learned policy; the fifth pass starts one thread, on
    [http_polopt]; when it has returned, the count of line 145 is 1, the
    task is on the queue and its recorded state is [ready], not [done];
    and whatever the namespace and however the run goes on, it stays
    [ready].  In the namespace of the script itself the first dequeue ends
    the main thread and no episode is run. *)
Theorem C4_default_strategy_not_done :
  let w4 := exec Cartpole.with_task_id (Cartpole.rounds 4) (Cartpole.start None) in
  let w5 := exec Cartpole.with_task_id [MainLoop Cartpole.cycle_ok] w4 in
  let w := exec Cartpole.with_task_id
                [RunThread 0 Cartpole.local_ok Cartpole.remote_ok] w5 in
  let w_script := exec module_globals (Cartpole.rounds 5) (Cartpole.start None) in
  episodes_of "cartpole" (log w4) = [RandPolicy; RandPolicy; RandPolicy; RandPolicy] /\
  started w4 = [] /\
  episodes_of "cartpole" (log w5)
    = [RandPolicy; RandPolicy; RandPolicy; RandPolicy; LearnedPolicy] /\
  started w5 = [(Fn_http_polopt, "cartpole")] /\
  (n_polopt_iters <$> (experience <$> config_tasks w !! "cartpole")) = Some 1 /\
  (n_opt <$> config_tasks w !! "cartpole") = Some 1 /\
  tasks w = ["cartpole"] /\ started w = [] /\
  task_state w !! "cartpole" = Some "ready" /\
  (forall g sched, task_state (exec g sched w) !! "cartpole" = Some "ready") /\
  main w_script = Crashed (NameError "task_id") /\
  episodes_of "cartpole" (log w_script) = [].
Proof.
  cbv zeta. do 9 (split; [vm_compute; reflexivity|]).
  split; [|vm_compute; split; reflexivity].
  intros g sched. apply remote_only_exec. constructor.
  - vm_compute. reflexivity.
  - vm_compute. reflexivity.
  - eexists. split; vm_compute; reflexivity.
  - intros fn Hin. exfalso. revert Hin.
    assert (started (exec Cartpole.with_task_id
              [RunThread 0 Cartpole.local_ok Cartpole.remote_ok]
              (exec Cartpole.with_task_id [MainLoop Cartpole.cycle_ok]
                 (exec Cartpole.with_task_id (Cartpole.rounds 4)
                    (Cartpole.start None)))) = []) as -> by (vm_compute; reflexivity).
    apply not_elem_of_nil.
Qed.

(** * Further properties of the code *)

(** ** The books of a task are kept by every step *)

Lemma op_rand_episodes_app (l l' : list op) :
  op_rand_episodes (l ++ l') = (op_rand_episodes l + op_rand_episodes l')%nat.
Proof.
  unfold op_rand_episodes. by rewrite omap_app, List.filter_app, length_app.
Qed.

Lemma op_starts_app (l l' : list op) :
  op_starts (l ++ l') = (op_starts l + op_starts l')%nat.
Proof. unfold op_starts. by rewrite List.filter_app, length_app. Qed.

(** Operations that neither touch the robot nor start a thread count for
    nothing in the books. *)
Lemma quiet_ops_count (ops : list op) :
  forallb (fun o => negb (is_robot o) && negb (is_start o)) ops = true ->
  op_rand_episodes ops = 0%nat /\ op_starts ops = 0%nat.
Proof.
  induction ops as [|o ops IH]; [done|]. cbn [forallb].
  intros H. apply andb_true_iff in H as [Ho H]. destruct (IH H) as [IH1 IH2].
  unfold op_rand_episodes, op_starts in *.
  destruct o; cbn in *; try done; by rewrite ?IH1, ?IH2.
Qed.

Lemma counts_extend_same (n : string) (l : list event) (ops : list op) :
  rand_episodes n (l ++ (pair n <$> ops))
    = (rand_episodes n l + op_rand_episodes ops)%nat /\
  starts n (l ++ (pair n <$> ops)) = (starts n l + op_starts ops)%nat.
Proof.
  unfold rand_episodes, starts.
  by rewrite ops_of_app, ops_of_same, op_rand_episodes_app, op_starts_app.
Qed.

Lemma counts_extend_other (m n : string) (l : list event) (ops : list op) :
  m <> n ->
  rand_episodes m (l ++ (pair n <$> ops)) = rand_episodes m l /\
  starts m (l ++ (pair n <$> ops)) = starts m l.
Proof.
  intros H. unfold rand_episodes, starts.
  by rewrite ops_of_app, ops_of_other, app_nil_r.
Qed.

Lemma books_other (m n : string) (w w' : World) (ops : list op) :
  m <> n ->
  config_tasks w' !! m = config_tasks w !! m ->
  log w' = log w ++ (pair n <$> ops) ->
  books m w' = books m w.
Proof.
  intros Hne Hc Hl. unfold books. rewrite Hc, Hl.
  by destruct (counts_extend_other m n (log w) ops Hne) as [-> _].
Qed.

(** What lines 284-339 do to the spec of the dequeued task, against the
    operations they log. *)
Lemma cycle_spec_against_ops (c : cycle_run) (n : string) (w : World) (sp : TaskSpec) :
  config_tasks w !! n = Some sp ->
  let w' := (cycle c n w).2 in
  exists sp', config_tasks w' !! n = Some sp' /\
    initial_random_trials sp' + Z.of_nat (op_rand_episodes (new_ops w w'))
      = initial_random_trials sp.
Proof.
  intros Hsp. cbv zeta. unfold cycle. unfold_ops. reduce_world.
  repeat exec1.
  all: give_ops.
  all: rewrite ?lookup_insert_eq; eexists;
    (split; [first [reflexivity | eassumption]|]).
  all: simplify_eq; cbn; lia.
Qed.


(** The same for a thread. *)
Lemma run_polopt_spec_against_ops (fn : polopt) (l : local_run) (r : remote_run)
    (n : string) (w : World) (sp : TaskSpec) :
  config_tasks w !! n = Some sp ->
  exists sp', config_tasks (run_polopt fn l r n w).2 !! n = Some sp' /\
    initial_random_trials sp' = initial_random_trials sp /\
    experience sp' = experience sp /\
    n_opt sp' = n_opt sp.
Proof.
  intros Hsp. destruct fn; cbn [run_polopt].
  - unfold mc_pilco_polopt. unfold_ops. reduce_world. repeat exec1.
    all: rewrite ?lookup_insert_eq; eexists;
      (split; [first [reflexivity | eassumption]|]).
    all: simplify_eq; cbn; repeat split; reflexivity.
  - unfold http_polopt. unfold_ops. reduce_world. repeat exec1.
    all: rewrite ?lookup_insert_eq; eexists;
      (split; [first [reflexivity | eassumption]|]).
    all: simplify_eq; cbn; repeat split; reflexivity.
Qed.

Lemma cycle_books (c : cycle_run) (n0 : string) (w : World) (n : string) :
  books n (cycle c n0 w).2 = books n w.
Proof.
  destruct (cycle_effect_holds c n0 w) as [_ _ _ _ Eoth Elog _ _ _].
  destruct (decide (n = n0)) as [->|Hne].
  - unfold books at 2. destruct (config_tasks w !! n0) as [sp|] eqn:Hsp.
    + destruct (cycle_spec_against_ops c n0 w sp Hsp) as (sp' & Hsp' & H1).
      unfold books. rewrite Hsp', Elog.
      destruct (counts_extend_same n0 (log w)
                  (new_ops w (cycle c n0 w).2)) as [-> _].
      cbn. f_equal. lia.
    + assert (config_tasks (cycle c n0 w).2 !! n0 = None) as Hn.
      { clear -Hsp. unfold cycle. unfold_ops. reduce_world. repeat exec1; done. }
      unfold books. by rewrite Hn.
  - destruct (Eoth n Hne) as [_ Ecf]. by eapply books_other.
Qed.

Lemma run_polopt_books (fn : polopt) (l : local_run) (r : remote_run)
    (n0 : string) (w : World) (n : string) :
  books n (run_polopt fn l r n0 w).2 = books n w.
Proof.
  destruct (run_polopt_effect fn l r n0 w)
    as [_ _ _ _ Eoth Elog _ Equiet _ _ _ _ _ _ _].
  destruct (quiet_ops_count _ Equiet) as [Hr Hs].
  destruct (decide (n = n0)) as [->|Hne].
  - unfold books at 2. destruct (config_tasks w !! n0) as [sp|] eqn:Hsp.
    + destruct (run_polopt_spec_against_ops fn l r n0 w sp Hsp)
        as (sp' & Hsp' & H1 & H2 & _).
      unfold books. rewrite Hsp', Elog.
      destruct (counts_extend_same n0 (log w)
                  (new_ops w (run_polopt fn l r n0 w).2)) as [-> _].
      cbn [fmap option_fmap option_map].
      rewrite Hr, H1, !Nat.add_0_r. done.
    + assert (config_tasks (run_polopt fn l r n0 w).2 !! n0 = None) as Hn.
      { clear -Hsp. destruct fn; cbn [run_polopt];
          [unfold mc_pilco_polopt | unfold http_polopt];
          unfold_ops; reduce_world; repeat exec1; done. }
      unfold books. by rewrite Hn.
  - destruct (Eoth n Hne) as [_ Ecf]. by eapply books_other.
Qed.

Lemma step_books (g : list string) (a : action) (w w' : World) (n : string) :
  step g a w = Some w' -> books n w' = books n w.
Proof.
  destruct a as [c | i l r]; cbn [step].
  - unfold main_step. destruct (main w); try discriminate.
    destruct (loop_guard w); [|by intros [= <-]].
    destruct (tasks w) as [|n0 q]; [discriminate|].
    set (w1 := set_log (set_tasks w q) (log w ++ [(n0, Get)])).
    assert (H1 : books n w1 = books n w).
    { unfold books, rand_episodes. cbn [log config_tasks w1 set_log set_tasks].
      rewrite ops_of_app. unfold ops_of at 2. cbn [List.filter fst].
      destruct (n0 =? n)%string; cbn [fmap list_fmap snd];
        rewrite ?app_nil_r, ?op_rand_episodes_app;
        cbn; rewrite ?Nat.add_0_r; done. }
    assert (H2 : books n (loop_body g c n0 w1).2 = books n w1).
    { unfold loop_body, lookup_global, bind.
      destruct (existsb (String.eqb "task_id") g); [|done].
      unfold ret. pose proof (cycle_books c n0 w1 n) as H.
      by destruct (cycle c n0 w1) as [[]]. }
    destruct (loop_body g c n0 w1) as [[] w2]; intros [= <-]; cbn [snd] in H2;
      by rewrite <- H1, <- H2.
  - unfold thread_step. destruct (started w !! i) as [[fn n0]|]; [|discriminate].
    intros [= <-]. by rewrite run_polopt_books.
Qed.

Lemma exec_books (g : list string) (sched : list action) (w : World) (n : string) :
  books n (exec g sched w) = books n w.
Proof.
  revert w. induction sched as [|a sched IH]; intros w; [done|].
  cbn [exec]. destruct (step g a w) as [w'|] eqn:Hstep; [|apply IH].
  by rewrite IH, (step_books g a w w' n Hstep).
Qed.

(** ** The world at the start of the loop, in full *)

Lemma populate_task_keeps_trials (disk : string -> option ExperienceDataset)
    (rs : string -> remote_run) (n : string) (given : bool) (w : World) :
  initial_random_trials <$> config_tasks (populate_task disk rs (n, given) w).2
  = initial_random_trials <$> config_tasks w.
Proof.
  assert (Hins : forall (k : string) (sp sp' : TaskSpec) (c : gmap string TaskSpec),
            c !! k = Some sp ->
            initial_random_trials sp' = initial_random_trials sp ->
            initial_random_trials <$> <[k := sp']> c = initial_random_trials <$> c).
  { intros k sp sp' c Hk He. apply map_eq. intros m. rewrite !lookup_fmap.
    destruct (decide (k = m)) as [->|Hne].
    - rewrite lookup_insert_eq, Hk. simpl. by rewrite He.
    - by rewrite lookup_insert_ne. }
  unfold populate_task, http_polopt. exec_all; try reflexivity.
  all: repeat (erewrite Hins;
               [ | first [eassumption | apply lookup_insert_eq] | reflexivity ]).
  all: reflexivity.
Qed.

Lemma for_each_populate_full (disk : string -> option ExperienceDataset)
    (rs : string -> remote_run) (items : list (string * bool)) (w : World) :
  NoDup items.*1 ->
  let out := for_each (populate_task disk rs) items w in
  state out.2 = state w /\
  initial_random_trials <$> config_tasks out.2
    = initial_random_trials <$> config_tasks w /\
  (forallb (fun e : event => negb (is_robot e.2) && negb (is_start e.2)) (log w) = true ->
   forallb (fun e : event => negb (is_robot e.2) && negb (is_start e.2)) (log out.2) = true) /\
  (is_ok out.1 = true ->
   forall n, n ∈ items.*1 -> task_state out.2 !! n = Some "init").
Proof.
  revert w. induction items as [|[n given] items IH]; intros w Hnd; cbv zeta.
  - cbn. repeat split; try done. intros _ n Hn. by apply elem_of_nil in Hn.
  - rewrite fmap_cons in Hnd. cbn [fst] in Hnd.
    apply NoDup_cons in Hnd as [Hnotin Hnd].
    cbn [for_each]. unfold bind at 1 2 3 4 5.
    pose proof (populate_task_keeps_trials disk rs n given w) as Htr.
    destruct (populate_task_effect disk rs n given w)
      as [Est Estd Emain Eoth Elog Etasks Equiet Ew Erec Ecmp].
    assert (Hq : forallb (fun e : event => negb (is_robot e.2) && negb (is_start e.2))
                   (log w) = true ->
                 forallb (fun e : event => negb (is_robot e.2) && negb (is_start e.2))
                   (log (populate_task disk rs (n, given) w).2) = true).
    { intros Hlog. rewrite Elog, forallb_app, Hlog. cbn [andb].
      clear -Equiet.
      induction (new_ops w (populate_task disk rs (n, given) w).2) as [|o ops IHo];
        [done|].
      cbn in *. apply andb_true_iff in Equiet as [-> Hq]. by apply IHo. }
    destruct (populate_task disk rs (n, given) w) as [[[]|e] w1]; cbn [fst snd] in *.
    + destruct (IH w1 Hnd) as (H1 & H2 & H3 & H4).
      rewrite H1, H2, Est, Htr. repeat split; [by intros; apply H3, Hq|].
      intros Hok m Hm. rewrite fmap_cons in Hm. cbn [fst] in Hm.
      apply elem_of_cons in Hm as [->|Hm]; [|by apply H4].
      assert (Hkeep : forall its w0,
                n ∉ its.*1 ->
                task_state (for_each (populate_task disk rs) its w0).2 !! n
                = task_state w0 !! n).
      { clear. induction its as [|[k b] its IHi]; intros w0 Hk; [done|].
        rewrite fmap_cons in Hk. cbn [fst] in Hk.
        apply not_elem_of_cons in Hk as [Hne Hk].
        cbn [for_each]. unfold bind at 1.
        destruct (populate_task_effect disk rs k b w0)
          as [_ _ _ Eoth _ _ _ _ _ _].
        destruct (Eoth n Hne) as [Ets _].
        destruct (populate_task disk rs (k, b) w0) as [[[]|e] w2]; cbn [snd] in *;
          [by rewrite IHi|done]. }
      rewrite (Hkeep items w1 Hnotin), Erec.
      destruct Ew as [[_ ?] | ->]; [discriminate|done].
    + repeat split; [done..|discriminate].
Qed.

Lemma quiet_log_counts (n : string) (l : list event) :
  forallb (fun e : event => negb (is_robot e.2) && negb (is_start e.2)) l = true ->
  rand_episodes n l = 0%nat /\ starts n l = 0%nat.
Proof.
  intros H. apply quiet_ops_count. unfold ops_of.
  induction l as [|[m o] l IH]; [done|]. cbn [forallb snd] in H.
  apply andb_true_iff in H as [Ho H]. cbn [List.filter fst].
  destruct (m =? n)%string; [|by apply IH].
  cbn [fmap list_fmap snd forallb]. rewrite Ho. by apply IH.
Qed.

Lemma names_of_config (cfg : gmap string task_entry) (n : string) :
  n ∈ (map_to_list cfg).*1 <-> is_Some (cfg !! n).
Proof.
  rewrite list_elem_of_fmap. split.
  - intros [[k e] [-> H]]. apply elem_of_map_to_list in H. by exists e.
  - intros [e H]. exists (n, e). split; [done|]. by apply elem_of_map_to_list.
Qed.

Lemma boot_full (cfg : gmap string task_entry) (default : option polopt)
    (disk : string -> option ExperienceDataset) (rs : string -> remote_run) :
  let w := boot cfg default disk rs in
  state w = None /\
  initial_random_trials <$> config_tasks w
    = initial_random_trials <$> (entry_spec <$> cfg) /\
  forallb (fun e : event => negb (is_robot e.2) && negb (is_start e.2)) (log w) = true /\
  (main w = Running ->
   forall n, is_Some (cfg !! n) -> task_state w !! n = Some "init").
Proof.
  cbv zeta. unfold boot, populate.
  assert (Hnames : (prod_map id entry_has_experience <$> map_to_list cfg).*1
                   = (map_to_list cfg).*1).
  { rewrite <- list_fmap_compose. apply list_fmap_ext. by intros ? []. }
  destruct (for_each_populate_full disk rs
              (prod_map id entry_has_experience <$> map_to_list cfg)
              (initial_world cfg default)) as (H1 & H2 & H3 & H4).
  { rewrite Hnames. apply NoDup_fst_map_to_list. }
  destruct (for_each _ _ _) as [[[]|e] w]; cbn [fst snd] in *.
  - repeat split; [done | done | by apply H3|].
    intros _ n Hn. apply H4; [done|]. rewrite Hnames. by apply names_of_config.
  - repeat split; [done | done | by apply H3 | discriminate].
Qed.

(** X1.  When the start-up returns, the queue holds every configured task
    once, in the order in which the loop of line 248 went through the
    configuration, and nothing else; every task is recorded as [init]; no
    thread is started and the variable [state] is unbound. *)
Theorem start_up_enqueues_every_task (cfg : gmap string task_entry)
    (default : option polopt) (disk : string -> option ExperienceDataset)
    (rs : string -> remote_run) :
  let w := boot cfg default disk rs in
  main w = Running ->
  tasks w = (map_to_list cfg).*1 /\
  NoDup (tasks w) /\
  (forall n, n ∈ tasks w <-> is_Some (cfg !! n)) /\
  (forall n, is_Some (cfg !! n) -> task_state w !! n = Some "init") /\
  started w = [] /\ state w = None.
Proof.
  intros w Hmain.
  destruct (boot_world cfg default disk rs) as (Hstd & _ & Htasks).
  destruct (boot_full cfg default disk rs) as (Hstate & _ & _ & Hinit).
  fold w in Hstd, Htasks, Hstate, Hinit. specialize (Htasks Hmain).
  rewrite Htasks. repeat split; try done.
  - apply NoDup_fst_map_to_list.
  - by apply names_of_config.
  - by apply names_of_config.
  - by apply Hinit.
Qed.

Lemma start_up_enqueues_every_task_witness :
  let w := boot TwoTasks.cfg None Cartpole.no_disk (fun _ => Cartpole.remote_ok) in
  tasks w = (map_to_list TwoTasks.cfg).*1 /\
  NoDup (tasks w) /\
  (forall n, n ∈ tasks w <-> is_Some (TwoTasks.cfg !! n)) /\
  (forall n, is_Some (TwoTasks.cfg !! n) -> task_state w !! n = Some "init") /\
  started w = [] /\ state w = None.
Proof.
  apply (start_up_enqueues_every_task TwoTasks.cfg None Cartpole.no_disk
           (fun _ => Cartpole.remote_ok)).
  vm_compute. reflexivity.
Defined.

(** ** The loop never ends by itself *)

Lemma step_keeps_keys (g : list string) (a : action) (w w' : World) (k : string) :
  step g a w = Some w' ->
  is_Some (task_state w !! k) -> is_Some (task_state w' !! k).
Proof.
  intros Hstep Hk. destruct a as [c | i l r]; cbn [step] in Hstep.
  - by rewrite (main_step_task_state g c w w' Hstep).
  - destruct (thread_step_cases i l r w w' Hstep) as (fn & n0 & res & Hi & E).
    destruct E as [_ _ _ _ Eoth _ _ _ Erec _ _ _ _ _ _]. cbn in Erec.
    destruct (decide (k = n0)) as [->|Hne].
    + rewrite Erec. destruct (last _); [by eexists|done].
    + by destruct (Eoth k Hne) as [-> _].
Qed.

Lemma step_main_status (g : list string) (a : action) (w w' : World) :
  step g a w = Some w' ->
  main w' = main w \/
  (main w = Running /\ exists e, main w' = Crashed e) \/
  (main w = Running /\ loop_guard w = false /\ main w' = Finished).
Proof.
  intros Hstep. destruct a as [c | i l r]; cbn [step] in Hstep.
  - unfold main_step in Hstep. destruct (main w) eqn:Hm; try discriminate.
    destruct (loop_guard w) eqn:Hg; [|injection Hstep as <-; right; right; done].
    destruct (tasks w) as [|n0 q]; [discriminate|].
    set (w1 := set_log (set_tasks w q) (log w ++ [(n0, Get)])) in *.
    destruct (loop_body_effect g c n0 w1) as [_ _ Emain _ _ _ _ _ _].
    destruct (loop_body g c n0 w1) as [[] w2]; injection Hstep as <-; cbn in *.
    + left. by rewrite Emain.
    + right. left. eauto.
  - destruct (thread_step_cases i l r w w' Hstep) as (fn & n0 & res & Hi & E).
    destruct E as [_ _ Emain _ _ _ _ _ _ _ _ _ _ _ _]. by left.
Qed.

(** X2.  Unless every configured task is called [done], the main thread
    never leaves the loop of line 272 by its condition: in every run,
    under every schedule, it is still in the loop or an exception has ended
    it, whatever the recorded states are. *)
Theorem main_loop_never_finishes (cfg : gmap string task_entry)
    (default : option polopt) (disk : string -> option ExperienceDataset)
    (rs : string -> remote_run) (g : list string) (sched : list action) :
  (exists n, is_Some (cfg !! n) /\ n <> "done") ->
  main (exec g sched (boot cfg default disk rs)) <> Finished.
Proof.
  intros (n & Hn & Hne).
  assert (Hgen : forall w,
            main w <> Finished ->
            (main w = Running -> is_Some (task_state w !! n)) ->
            main (exec g sched w) <> Finished).
  { induction sched as [|a sched IH]; intros w Hm Hk; [done|].
    cbn [exec]. destruct (step g a w) as [w'|] eqn:Hstep; [|by apply IH].
    apply IH.
    - destruct (step_main_status g a w w' Hstep)
        as [-> | [(_ & e & ->) | (Hrun & Hg & _)]]; [done|done|].
      exfalso. apply Hne.
      by apply (proj1 (loop_guard_false_iff w) Hg), Hk.
    - intros Hrun'. eapply step_keeps_keys; [exact Hstep|]. apply Hk.
      destruct (step_main_status g a w w' Hstep)
        as [Heq | [(_ & e & Heq) | (_ & _ & Heq)]]; congruence. }
  apply Hgen.
  - unfold boot. destruct (populate _ _ _ _) as [[[]|e] w] eqn:Hp; [|done].
    destruct (for_each_populate disk rs
                (prod_map id entry_has_experience <$> map_to_list cfg)
                (initial_world cfg default)) as (_ & Hm & _).
    unfold populate in Hp. rewrite Hp in Hm. cbn in Hm. by rewrite Hm.
  - intros Hrun. destruct (boot_full cfg default disk rs) as (_ & _ & _ & Hinit).
    rewrite (Hinit Hrun n Hn). by eexists.
Qed.

(** The run of Scenario A under the local strategy, continued: the only
    task is [done] and the main thread is still in the loop. *)
Lemma main_loop_never_finishes_witness :
  main (exec Cartpole.with_task_id
             (Cartpole.rounds 5 ++ [MainLoop Cartpole.cycle_ok; MainLoop Cartpole.cycle_ok])
             (Cartpole.start (Some Fn_mc_pilco_polopt))) <> Finished.
Proof.
  apply (main_loop_never_finishes (Cartpole.cfg (Some Fn_mc_pilco_polopt)) None
           Cartpole.no_disk (fun _ => Cartpole.remote_ok)).
  exists "cartpole". split; [vm_compute; eauto | discriminate].
Defined.

(** ** Random trials and stored episodes *)

(** Lines 299-306 take one random trial off the spec of the dequeued task,
    and only while there is one left. *)
Lemma cycle_trials (c : cycle_run) (n0 : string) (w : World) (n : string)
    (sp : TaskSpec) :
  config_tasks w !! n = Some sp ->
  exists sp', config_tasks (cycle c n0 w).2 !! n = Some sp' /\
    (initial_random_trials sp' = initial_random_trials sp \/
     0 < initial_random_trials sp /\
     initial_random_trials sp' = initial_random_trials sp - 1).
Proof.
  intros Hsp. destruct (decide (n = n0)) as [->|Hne].
  - revert Hsp. unfold cycle. unfold_ops. reduce_world. intros Hsp.
    repeat exec1.
    all: rewrite ?lookup_insert_eq; eexists;
      (split; [first [reflexivity | eassumption]|]).
    all: simplify_eq; cbn; try (left; reflexivity).
    all: right; split; [|reflexivity].
    all: match goal with
         | H : (_ && (0 <? _))%bool = true |- _ =>
             apply andb_true_iff in H as [_ H]; apply Z.ltb_lt in H; exact H
         end.
  - destruct (cycle_effect_holds c n0 w) as [_ _ _ _ Eoth _ _ _ _].
    destruct (Eoth n Hne) as [_ ->]. eauto.
Qed.

Lemma step_trials (g : list string) (a : action) (w w' : World) (n : string)
    (sp : TaskSpec) :
  step g a w = Some w' ->
  config_tasks w !! n = Some sp ->
  exists sp', config_tasks w' !! n = Some sp' /\
    (initial_random_trials sp' = initial_random_trials sp \/
     0 < initial_random_trials sp /\
     initial_random_trials sp' = initial_random_trials sp - 1).
Proof.
  intros Hstep Hsp. destruct a as [c | i l r]; cbn [step] in Hstep.
  - unfold main_step in Hstep. destruct (main w); try discriminate.
    destruct (loop_guard w); [|injection Hstep as <-; eauto].
    destruct (tasks w) as [|n0 q]; [discriminate|].
    set (w1 := set_log (set_tasks w q) (log w ++ [(n0, Get)])) in *.
    assert (H : exists sp', config_tasks (loop_body g c n0 w1).2 !! n = Some sp' /\
              (initial_random_trials sp' = initial_random_trials sp \/
               0 < initial_random_trials sp /\
               initial_random_trials sp' = initial_random_trials sp - 1)).
    { unfold loop_body, lookup_global, bind.
      destruct (existsb (String.eqb "task_id") g); [|cbn; eauto].
      unfold ret. pose proof (cycle_trials c n0 w1 n sp Hsp) as H.
      by destruct (cycle c n0 w1) as [[]]. }
    destruct (loop_body g c n0 w1) as [[] w2]; injection Hstep as <-; exact H.
  - unfold thread_step in Hstep.
    destruct (started w !! i) as [[fn n0]|]; [|discriminate].
    injection Hstep as <-.
    set (w1 := set_started w (delete i (started w))).
    destruct (decide (n = n0)) as [->|Hne].
    + destruct (run_polopt_spec_against_ops fn l r n0 w1 sp Hsp)
        as (sp' & Hsp' & H1 & _). eauto.
    + destruct (run_polopt_effect fn l r n0 w1)
        as [_ _ _ _ Eoth _ _ _ _ _ _ _ _ _ _].
      destruct (Eoth n Hne) as [_ ->]. eauto.
Qed.

Lemma exec_trials (g : list string) (sched : list action) (w : World) (n : string)
    (sp : TaskSpec) :
  config_tasks w !! n = Some sp ->
  exists sp', config_tasks (exec g sched w) !! n = Some sp' /\
    Z.min 0 (initial_random_trials sp) <= initial_random_trials sp'
      <= initial_random_trials sp.
Proof.
  revert w sp. induction sched as [|a sched IH]; intros w sp Hsp.
  - exists sp. split; [done|lia].
  - cbn [exec]. destruct (step g a w) as [w'|] eqn:Hstep; [|by apply IH].
    destruct (step_trials g a w w' n sp Hstep Hsp) as (sp1 & Hsp1 & H1).
    destruct (IH w' sp1 Hsp1) as (sp2 & Hsp2 & H2).
    exists sp2. split; [done|lia].
Qed.

Lemma boot_books (cfg : gmap string task_entry) (default : option polopt)
    (disk : string -> option ExperienceDataset) (rs : string -> remote_run)
    (n : string) (e : task_entry) :
  cfg !! n = Some e ->
  let w := boot cfg default disk rs in
  exists sp, config_tasks w !! n = Some sp /\
    initial_random_trials sp = initial_random_trials (entry_spec e) /\
    rand_episodes n (log w) = 0%nat /\ starts n (log w) = 0%nat.
Proof.
  intros He w. destruct (boot_full cfg default disk rs) as (_ & Htr & Hq & _).
  fold w in Htr, Hq. destruct (quiet_log_counts n _ Hq) as [Hr Hs].
  apply (f_equal (fun m => m !! n)) in Htr.
  rewrite !lookup_fmap, He in Htr. cbn in Htr.
  destruct (config_tasks w !! n) as [sp|]; [|done].
  exists sp. cbn in Htr. injection Htr as Htr. done.
Qed.

(** X3.  In every run of the script, for every configured task: the random
    trials left in its spec and the episodes begun under [RandPolicy]
    (line 322 reached after line 301) add up to the configured
    [initial_random_trials].  The number left never goes below zero, unless
    it was configured so, in which case it stays as it is; so at most as many
    episodes are run at random as were configured, and none for a number that
    is not positive. *)
Theorem random_trials_add_up (cfg : gmap string task_entry)
    (default : option polopt) (disk : string -> option ExperienceDataset)
    (rs : string -> remote_run) (g : list string) (sched : list action)
    (n : string) (e : task_entry) :
  cfg !! n = Some e ->
  let w := exec g sched (boot cfg default disk rs) in
  exists sp, config_tasks w !! n = Some sp /\
    initial_random_trials sp + Z.of_nat (rand_episodes n (log w))
      = initial_random_trials (entry_spec e) /\
    Z.min 0 (initial_random_trials (entry_spec e)) <= initial_random_trials sp /\
    Z.of_nat (rand_episodes n (log w)) <= Z.max 0 (initial_random_trials (entry_spec e)).
Proof.
  intros He w.
  destruct (boot_books cfg default disk rs n e He) as (sp0 & Hsp0 & Htr & Hr & Hs).
  destruct (exec_trials g sched _ n sp0 Hsp0) as (sp & Hsp & Hle).
  fold w in Hsp. exists sp. split; [done|].
  pose proof (exec_books g sched (boot cfg default disk rs) n) as Hb.
  fold w in Hb. unfold books in Hb. rewrite Hsp, Hsp0, Hr in Hb.
  cbn in Hb. injection Hb as Hb. lia.
Qed.

Lemma random_trials_add_up_witness :
  let w := exec Cartpole.with_task_id (Cartpole.rounds 5)
             (boot (Cartpole.cfg (Some Fn_mc_pilco_polopt)) None Cartpole.no_disk
                   (fun _ => Cartpole.remote_ok)) in
  exists sp, config_tasks w !! "cartpole" = Some sp /\
    initial_random_trials sp + Z.of_nat (rand_episodes "cartpole" (log w)) = 4 /\
    Z.min 0 4 <= initial_random_trials sp /\
    Z.of_nat (rand_episodes "cartpole" (log w)) <= Z.max 0 4.
Proof.
  apply (random_trials_add_up (Cartpole.cfg (Some Fn_mc_pilco_polopt)) None
           Cartpole.no_disk (fun _ => Cartpole.remote_ok) Cartpole.with_task_id
           (Cartpole.rounds 5) "cartpole"
           {| entry_spec := Cartpole.spec (Some Fn_mc_pilco_polopt);
              entry_has_experience := false |}).
  vm_compute. reflexivity.
Defined.








(** ** A task that is done *)

Lemma robot_ops_other (m n : string) (l : list event) (ops : list op) :
  m <> n -> robot_ops m (l ++ (pair n <$> ops)) = robot_ops m l.
Proof.
  intros H. unfold robot_ops. by rewrite ops_of_app, ops_of_other, app_nil_r.
Qed.

(** Lines 284-289 for a task recorded as [done]: nothing is logged and no
    spec is touched. *)
Lemma cycle_on_done (c : cycle_run) (n : string) (w : World) :
  task_state w !! n = Some "done" ->
  log (cycle c n w).2 = log w /\ config_tasks (cycle c n w).2 = config_tasks w.
Proof.
  intros H. unfold cycle. unfold_ops. reduce_world. rewrite H.
  destruct (config_tasks w !! n); cbn; done.
Qed.

Lemma step_done_frozen (g : list string) (a : action) (w w' : World) (n : string) :
  inv w -> step g a w = Some w' -> task_state w !! n = Some "done" ->
  config_tasks w' !! n = config_tasks w !! n /\
  robot_ops n (log w') = robot_ops n (log w).
Proof.
  intros Hinv Hstep Hdone. destruct a as [c | i l r]; cbn [step] in Hstep.
  - unfold main_step in Hstep. destruct (main w); try discriminate.
    destruct (loop_guard w); [|by injection Hstep as <-].
    destruct (tasks w) as [|n0 q]; [discriminate|].
    set (w1 := set_log (set_tasks w q) (log w ++ [(n0, Get)])) in *.
    assert (H1 : config_tasks w1 !! n = config_tasks w !! n /\
                 robot_ops n (log w1) = robot_ops n (log w)).
    { split; [done|]. unfold robot_ops. cbn [log w1 set_log set_tasks].
      rewrite ops_of_app. unfold ops_of at 2. cbn [List.filter fst].
      destruct (n0 =? n)%string; cbn [fmap list_fmap snd];
        by rewrite List.filter_app, ?app_nil_r. }
    assert (H2 : config_tasks (loop_body g c n0 w1).2 !! n = config_tasks w1 !! n /\
                 robot_ops n (log (loop_body g c n0 w1).2) = robot_ops n (log w1)).
    { unfold loop_body, lookup_global, bind.
      destruct (existsb (String.eqb "task_id") g); [|done].
      unfold ret.
      assert (H : config_tasks (cycle c n0 w1).2 !! n = config_tasks w1 !! n /\
                  robot_ops n (log (cycle c n0 w1).2) = robot_ops n (log w1)).
      { destruct (decide (n = n0)) as [->|Hne].
        - destruct (cycle_on_done c n0 w1 Hdone) as [-> ->]. done.
        - destruct (cycle_effect_holds c n0 w1) as [_ _ _ _ Eoth Elog _ _ _].
          destruct (Eoth n Hne) as [_ ->]. rewrite Elog.
          by rewrite robot_ops_other. }
      by destruct (cycle c n0 w1) as [[]]. }
    destruct H1 as [H1 H1'], H2 as [H2 H2'].
    destruct (loop_body g c n0 w1) as [[] w2]; injection Hstep as <-;
      cbn [snd config_tasks log set_main] in *; by rewrite H2, H2', H1, H1'.
  - destruct (thread_step_cases i l r w w' Hstep) as (fn & n0 & res & Hi & E).
    destruct E as [_ _ _ _ Eoth Elog _ _ _ _ _ _ _ _ _].
    cbn [log set_started] in Elog.
    destruct (decide (n = n0)) as [->|Hne].
    + exfalso. destruct (Hinv n0) as [_ _ _ _ I5 _ _ _]. apply I5; [|done].
      apply list_elem_of_fmap. exists (fn, n0). split; [done|].
      by eapply list_elem_of_lookup_2.
    + destruct (Eoth n Hne) as [_ ->]. rewrite Elog.
      by rewrite robot_ops_other.
Qed.

(** X5.  In every run of the script, once a task is recorded as [done]
    nothing is done with it any more: whatever follows, its spec, with
    experience and policy, stays as it is, and no operation on the robot
    ([env.init_params], [apply_controller]) is made for it. *)
Theorem done_task_is_left_alone (cfg : gmap string task_entry)
    (default : option polopt) (disk : string -> option ExperienceDataset)
    (rs : string -> remote_run) (g : list string) (before after : list action)
    (n : string) :
  let w := exec g before (boot cfg default disk rs) in
  let w' := exec g after w in
  task_state w !! n = Some "done" ->
  task_state w' !! n = Some "done" /\
  config_tasks w' !! n = config_tasks w !! n /\
  robot_ops n (log w') = robot_ops n (log w).
Proof.
  intros w w'. subst w'.
  assert (Hinv : inv w) by apply run_inv.
  clearbody w. revert w Hinv.
  induction after as [|a after IH]; intros w Hinv Hdone; [done|].
  cbn [exec]. destruct (step g a w) as [w1|] eqn:Hstep; [|by apply IH].
  destruct (done_is_final g a w w1 n Hinv Hstep Hdone) as (Hd1 & _ & _).
  destruct (step_done_frozen g a w w1 n Hinv Hstep Hdone) as [Hc Hr].
  destruct (IH w1 (step_inv g a w w1 Hinv Hstep) Hd1) as (H1 & H2 & H3).
  by rewrite H2, H3, Hc, Hr.
Qed.

Lemma done_task_is_left_alone_witness :
  let w := exec Cartpole.with_task_id (Cartpole.rounds 5)
             (boot (Cartpole.cfg (Some Fn_mc_pilco_polopt)) None Cartpole.no_disk
                   (fun _ => Cartpole.remote_ok)) in
  let w' := exec Cartpole.with_task_id (Cartpole.rounds 3) w in
  task_state w' !! "cartpole" = Some "done" /\
  config_tasks w' !! "cartpole" = config_tasks w !! "cartpole" /\
  robot_ops "cartpole" (log w') = robot_ops "cartpole" (log w).
Proof.
  apply (done_task_is_left_alone (Cartpole.cfg (Some Fn_mc_pilco_polopt)) None
           Cartpole.no_disk (fun _ => Cartpole.remote_ok) Cartpole.with_task_id
           (Cartpole.rounds 5) (Cartpole.rounds 3) "cartpole").
  vm_compute. reflexivity.
Defined.

(** ** What the count of line 145 counts *)

Lemma op_learned_episodes_app (l l' : list op) :
  op_learned_episodes (l ++ l')
  = (op_learned_episodes l + op_learned_episodes l')%nat.
Proof.
  unfold op_learned_episodes. by rewrite omap_app, List.filter_app, length_app.
Qed.

Lemma quiet_ops_learned (ops : list op) :
  forallb (fun o => negb (is_robot o) && negb (is_start o)) ops = true ->
  op_learned_episodes ops = 0%nat.
Proof.
  induction ops as [|o ops IH]; [done|]. cbn [forallb].
  intros H. apply andb_true_iff in H as [Ho H]. specialize (IH H).
  unfold op_learned_episodes in *. destruct o; cbn in *; done.
Qed.

Lemma learned_extend_same (n : string) (l : list event) (ops : list op) :
  learned_episodes n (l ++ (pair n <$> ops))
  = (learned_episodes n l + op_learned_episodes ops)%nat.
Proof.
  unfold learned_episodes. by rewrite ops_of_app, ops_of_same, op_learned_episodes_app.
Qed.

Lemma learned_extend_other (m n : string) (l : list event) (ops : list op) :
  m <> n -> learned_episodes m (l ++ (pair n <$> ops)) = learned_episodes m l.
Proof.
  intros H. unfold learned_episodes. by rewrite ops_of_app, ops_of_other, app_nil_r.
Qed.

Lemma n_polopt_iters_append (exp : ExperienceDataset) (tr : trajectory) (p : params) :
  n_polopt_iters (append_episode exp tr p)
  = n_polopt_iters exp + (if (0 <? length p)%nat then 1 else 0).
Proof.
  unfold n_polopt_iters, append_episode. cbn [policy_parameters].
  rewrite List.filter_app, length_app. cbn [List.filter].
  destruct (0 <? length p)%nat; cbn [length]; lia.
Qed.

(** Lines 299-333 against the count of line 145: an episode under
    [RandPolicy] adds nothing to it, an episode under the task's policy at
    most one. *)
Lemma cycle_iters (c : cycle_run) (n : string) (w : World) (sp : TaskSpec) :
  config_tasks w !! n = Some sp ->
  let w' := (cycle c n w).2 in
  exists sp', config_tasks w' !! n = Some sp' /\
    n_opt sp' = n_opt sp /\
    n_polopt_iters (experience sp) <= n_polopt_iters (experience sp')
      <= n_polopt_iters (experience sp)
         + Z.of_nat (op_learned_episodes (new_ops w w')).
Proof.
  intros Hsp. cbv zeta. unfold cycle. unfold_ops. reduce_world.
  repeat exec1.
  all: give_ops.
  all: rewrite ?lookup_insert_eq; eexists;
    (split; [first [reflexivity | eassumption]|]).
  all: simplify_eq; cbn [n_opt experience with_experience with_initial_random_trials];
    rewrite ?n_polopt_iters_append; unfold op_learned_episodes; cbn;
    (split; [reflexivity|]);
    repeat match goal with
           | |- context [if ?b then _ else _] => destruct b
           end; lia.
Qed.

Lemma step_iters (g : list string) (a : action) (w w' : World) (n : string)
    (sp : TaskSpec) :
  step g a w = Some w' ->
  config_tasks w !! n = Some sp ->
  exists sp', config_tasks w' !! n = Some sp' /\
    n_opt sp' = n_opt sp /\
    n_polopt_iters (experience sp) <= n_polopt_iters (experience sp') /\
    n_polopt_iters (experience sp') - Z.of_nat (learned_episodes n (log w'))
      <= n_polopt_iters (experience sp) - Z.of_nat (learned_episodes n (log w)).
Proof.
  intros Hstep Hsp. destruct a as [c | i l r]; cbn [step] in Hstep.
  - unfold main_step in Hstep. destruct (main w); try discriminate.
    destruct (loop_guard w);
      [|injection Hstep as <-; exists sp; cbn [log config_tasks set_main];
        split; [done|]; split; [done|]; lia].
    destruct (tasks w) as [|n0 q]; [discriminate|].
    set (w1 := set_log (set_tasks w q) (log w ++ [(n0, Get)])) in *.
    assert (H1 : learned_episodes n (log w1) = learned_episodes n (log w)).
    { unfold learned_episodes. cbn [log w1 set_log set_tasks].
      rewrite ops_of_app. unfold ops_of at 2. cbn [List.filter fst].
      destruct (n0 =? n)%string; cbn [fmap list_fmap snd];
        rewrite ?app_nil_r, ?op_learned_episodes_app; cbn; lia. }
    assert (Hsp1 : config_tasks w1 !! n = Some sp) by done.
    assert (H2 : exists sp', config_tasks (loop_body g c n0 w1).2 !! n = Some sp' /\
              n_opt sp' = n_opt sp /\
              n_polopt_iters (experience sp) <= n_polopt_iters (experience sp') /\
              n_polopt_iters (experience sp')
                - Z.of_nat (learned_episodes n (log (loop_body g c n0 w1).2))
              <= n_polopt_iters (experience sp)
                 - Z.of_nat (learned_episodes n (log w1))).
    { unfold loop_body, lookup_global, bind.
      destruct (existsb (String.eqb "task_id") g);
        [|exists sp; cbn [fst snd raise]; split; [done|]; split; [done|]; lia].
      unfold ret.
      assert (H : exists sp', config_tasks (cycle c n0 w1).2 !! n = Some sp' /\
                n_opt sp' = n_opt sp /\
                n_polopt_iters (experience sp) <= n_polopt_iters (experience sp') /\
                n_polopt_iters (experience sp')
                  - Z.of_nat (learned_episodes n (log (cycle c n0 w1).2))
                <= n_polopt_iters (experience sp)
                   - Z.of_nat (learned_episodes n (log w1))).
      { destruct (cycle_effect_holds c n0 w1) as [_ _ _ _ Eoth Elog _ _ _].
        destruct (decide (n = n0)) as [->|Hne].
        - destruct (cycle_iters c n0 w1 sp Hsp1) as (sp' & Hsp' & Hn & Hi).
          exists sp'. rewrite Elog, learned_extend_same.
          split; [done|]. split; [done|]. lia.
        - destruct (Eoth n Hne) as [_ Ecf]. exists sp.
          rewrite Ecf, Elog, learned_extend_other by done.
          split; [done|]. split; [done|]. lia. }
      by destruct (cycle c n0 w1) as [[]]. }
    rewrite H1 in H2.
    destruct (loop_body g c n0 w1) as [[] w2]; injection Hstep as <-; exact H2.
  - destruct (thread_step_cases i l r w w' Hstep) as (fn & n0 & res & Hi & E).
    destruct E as [_ _ _ _ Eoth Elog _ Equiet _ _ _ _ _ _ _].
    cbn [log set_started] in Elog.
    pose proof (quiet_ops_learned _ Equiet) as Hq.
    destruct (decide (n = n0)) as [->|Hne].
    + unfold thread_step in Hstep. rewrite Hi in Hstep. injection Hstep as Hw'.
      destruct (run_polopt_spec_against_ops fn l r n0
                  (set_started w (delete i (started w))) sp Hsp)
        as (sp' & Hsp' & _ & Hexp & Hn).
      rewrite Hw' in Hsp'. exists sp'.
      rewrite Elog, learned_extend_same, Hq, Hexp.
      split; [done|]. split; [done|]. lia.
    + destruct (Eoth n Hne) as [_ Ecf]. cbn [config_tasks set_started] in Ecf.
      exists sp. rewrite Ecf, Elog, learned_extend_other by done.
      split; [done|]. split; [done|]. lia.
Qed.

(** A task is recorded as [done] only with the count of line 145 at
    [n_opt] or above. *)
Lemma step_done_counted (g : list string) (a : action) (w w' : World) (n : string) :
  inv w -> step g a w = Some w' ->
  (task_state w !! n = Some "done" ->
   exists sp, config_tasks w !! n = Some sp /\
              n_opt sp <= n_polopt_iters (experience sp)) ->
  task_state w' !! n = Some "done" ->
  exists sp, config_tasks w' !! n = Some sp /\
             n_opt sp <= n_polopt_iters (experience sp).
Proof.
  intros Hinv Hstep Hold Hdone'.
  destruct (decide (task_state w !! n = Some "done")) as [Hdone|Hnd].
  - destruct (Hold Hdone) as (sp & Hsp & Hle).
    destruct (step_iters g a w w' n sp Hstep Hsp) as (sp' & Hsp' & Hn & Hi & _).
    exists sp'. split; [done|lia].
  - destruct a as [c | i l r]; cbn [step] in Hstep.
    { rewrite (main_step_task_state g c w w' Hstep) in Hdone'. done. }
    destruct (thread_step_cases i l r w w' Hstep) as (fn & n0 & res & Hi & E).
    destruct E as [_ _ _ _ Eoth _ _ _ _ _ _ _ _ _ _].
    destruct (decide (n = n0)) as [->|Hne];
      [|destruct (Eoth n Hne) as [Ets _]; rewrite Ets in Hdone'; done].
    unfold thread_step in Hstep. rewrite Hi in Hstep. injection Hstep as Hw'.
    set (w1 := set_started w (delete i (started w))) in *.
    destruct fn; cbn [run_polopt] in Hw'.
    + destruct (mc_pilco_polopt l n0 w1) as [[[]|e] w2] eqn:Hrun;
        cbn [snd] in Hw'; subst w2.
      * destruct (mc_pilco_polopt_done_iff l n0 w1 w' Hnd Hrun) as (sp & Hsp & Hiff).
        exists sp. split; [done|]. by apply Hiff.
      * exfalso.
        destruct (mc_pilco_polopt_raise_state l n0 w1 w' e Hrun) as [H | [H | H]];
          rewrite H in Hdone'; [done | |];
          rewrite lookup_insert_eq in Hdone'; discriminate.
    + exfalso. rewrite <- Hw', http_polopt_task_state in Hdone'. done.
Qed.

Lemma for_each_populate_states (disk : string -> option ExperienceDataset)
    (rs : string -> remote_run) (items : list (string * bool)) (w : World)
    (n : string) :
  task_state w !! n <> Some "done" ->
  task_state (for_each (populate_task disk rs) items w).2 !! n <> Some "done".
Proof.
  revert w. induction items as [|[k given] items IH]; intros w Hw; [done|].
  cbn [for_each]. unfold bind at 1.
  destruct (populate_task_effect disk rs k given w)
    as [_ _ _ Eoth _ _ _ Ew Erec _].
  assert (H1 : task_state (populate_task disk rs (k, given) w).2 !! n <> Some "done").
  { destruct (decide (n = k)) as [->|Hne].
    - rewrite Erec. destruct Ew as [[-> _] | ->]; cbn; [done|discriminate].
    - by destruct (Eoth n Hne) as [-> _]. }
  destruct (populate_task disk rs (k, given) w) as [[[]|e] w1]; cbn [snd] in *;
    [by apply IH|done].
Qed.

Lemma boot_not_done (cfg : gmap string task_entry) (default : option polopt)
    (disk : string -> option ExperienceDataset) (rs : string -> remote_run)
    (n : string) :
  task_state (boot cfg default disk rs) !! n <> Some "done".
Proof.
  unfold boot, populate.
  pose proof (for_each_populate_states disk rs
                (prod_map id entry_has_experience <$> map_to_list cfg)
                (initial_world cfg default) n) as H.
  destruct (for_each _ _ _) as [[[]|e] w]; cbn [snd] in *; apply H; done.
Qed.

(** X6.  In every run of the script, a task is recorded as [done] only if
    the count of line 145 (the non-empty entries of
    [exp.policy_parameters]) has reached its [n_opt]; and that count is at
    most what it was when the loop began plus the episodes begun under the
    task's own policy (line 309).  Episodes under [RandPolicy] never bring a
    task nearer to [done]. *)
Theorem done_needs_learned_episodes (cfg : gmap string task_entry)
    (default : option polopt) (disk : string -> option ExperienceDataset)
    (rs : string -> remote_run) (g : list string) (sched : list action)
    (n : string) (sp0 : TaskSpec) :
  let w0 := boot cfg default disk rs in
  let w := exec g sched w0 in
  config_tasks w0 !! n = Some sp0 ->
  task_state w !! n = Some "done" ->
  exists sp, config_tasks w !! n = Some sp /\
    n_opt sp = n_opt sp0 /\
    n_opt sp <= n_polopt_iters (experience sp) /\
    n_polopt_iters (experience sp)
      <= n_polopt_iters (experience sp0) + Z.of_nat (learned_episodes n (log w)).
Proof.
  intros w0 w Hsp0 Hdone.
  assert (Hgen : forall sched w1 sp1,
            inv w1 -> config_tasks w1 !! n = Some sp1 ->
            (task_state w1 !! n = Some "done" ->
             n_opt sp1 <= n_polopt_iters (experience sp1)) ->
            task_state (exec g sched w1) !! n = Some "done" ->
            exists sp, config_tasks (exec g sched w1) !! n = Some sp /\
              n_opt sp = n_opt sp1 /\
              n_opt sp <= n_polopt_iters (experience sp) /\
              n_polopt_iters (experience sp)
                - Z.of_nat (learned_episodes n (log (exec g sched w1)))
              <= n_polopt_iters (experience sp1)
                 - Z.of_nat (learned_episodes n (log w1))).
  { clear. induction sched as [|a sched IH]; intros w1 sp1 Hinv Hsp1 Hold Hd.
    - exists sp1. cbn in *. repeat split; [done|by apply Hold|lia].
    - cbn [exec] in *. destruct (step g a w1) as [w2|] eqn:Hstep; [|by apply IH].
      destruct (step_iters g a w1 w2 n sp1 Hstep Hsp1) as (sp2 & Hsp2 & Hn & _ & Hi).
      destruct (IH w2 sp2 (step_inv g a w1 w2 Hinv Hstep) Hsp2) as (sp & Hsp & H1 & H2 & H3).
      + intros Hd2.
        destruct (step_done_counted g a w1 w2 n Hinv Hstep) as (sp' & Hsp' & Hle);
          [|done|].
        * intros Hd1. exists sp1. split; [done|]. by apply Hold.
        * congruence.
      + done.
      + exists sp. repeat split; [done|lia|done|lia]. }
  destruct (Hgen sched w0 sp0) as (sp & Hsp & H1 & H2 & H3);
    [apply boot_inv | done | | done |].
  { intros Hd. by destruct (boot_not_done cfg default disk rs n). }
  exists sp. repeat split; [done..|].
  destruct (boot_full cfg default disk rs) as (_ & _ & Hq & _). fold w0 in Hq.
  assert (learned_episodes n (log w0) = 0%nat) as H0.
  { unfold learned_episodes. apply quiet_ops_learned. unfold ops_of. clear -Hq.
    induction (log w0) as [|[m o] l IH]; [done|]. cbn [forallb snd] in Hq.
    apply andb_true_iff in Hq as [Ho Hq]. cbn [List.filter fst].
    destruct (m =? n)%string; [|by apply IH].
    cbn [fmap list_fmap snd forallb]. rewrite Ho. by apply IH. }
  fold w in H3. lia.
Qed.

Lemma done_needs_learned_episodes_witness :
  let w := exec Cartpole.with_task_id (Cartpole.rounds 5)
             (boot (Cartpole.cfg (Some Fn_mc_pilco_polopt)) None Cartpole.no_disk
                   (fun _ => Cartpole.remote_ok)) in
  exists sp, config_tasks w !! "cartpole" = Some sp /\
    n_opt sp = 1 /\
    n_opt sp <= n_polopt_iters (experience sp) /\
    n_polopt_iters (experience sp)
      <= 0 + Z.of_nat (learned_episodes "cartpole" (log w)).
Proof.
  apply (done_needs_learned_episodes (Cartpole.cfg (Some Fn_mc_pilco_polopt)) None
           Cartpole.no_disk (fun _ => Cartpole.remote_ok) Cartpole.with_task_id
           (Cartpole.rounds 5) "cartpole"
           (with_experience (Cartpole.spec (Some Fn_mc_pilco_polopt)) empty_experience));
    vm_compute; reflexivity.
Defined.

(** ** A pass of [mc_pilco_polopt], from outside *)

(** X7.  Whether a pass of [mc_pilco_polopt] trains is decided by the
    module variable [state] (line 78), which the main thread assigns for
    the task it has dequeued last, and not by the recorded state of the
    task of the pass: the pass calls [train_dynamics] exactly if that
    variable is not ['init'].  If it is ['init'], the pass returns without
    any external call: it leaves every spec as it is, records [done] if the
    count of line 145 has reached [n_opt], and puts the task on the
    queue. *)
Theorem local_pass_follows_global_state (r : local_run) (n : string) (w : World)
    (sp : TaskSpec) (s : string) :
  config_tasks w !! n = Some sp ->
  state w = Some s ->
  let out := mc_pilco_polopt r n w in
  (Train ∈ new_ops w out.2 <-> s <> "init") /\
  (s = "init" ->
   out.1 = Ok tt /\
   config_tasks out.2 = config_tasks w /\
   tasks out.2 = tasks w ++ [n] /\
   new_ops w out.2
   = (if n_opt sp <=? n_polopt_iters (experience sp) then [SetState "done"] else [])
     ++ [Put]).
Proof.
  intros Hsp Hs. cbv zeta. unfold mc_pilco_polopt. unfold_ops. reduce_world.
  rewrite Hsp, Hs. reduce_world.
  destruct (String.eqb_spec s "init") as [->|Hne]; cbn [negb].
  - rewrite Hsp. reduce_world.
    destruct (n_opt sp <=? n_polopt_iters (experience sp)); reduce_world;
      give_ops; (split; [|done]); split; [|done| |done];
      intros H; repeat (apply elem_of_cons in H as [H|H]; [discriminate|]);
      by apply elem_of_nil in H.
  - split; [|done]. split; [done|]. intros _.
    repeat exec1; give_ops; apply elem_of_cons; by left.
Qed.

(** In [Race.overtaken] the task [cartpole] is recorded as [ready] and its
    thread was started to optimise on a new episode, but the main thread
    has since dequeued [pendulum], which is still exploring: the pass of
    [cartpole] trains nothing. *)
Lemma local_pass_follows_global_state_witness :
  let sp := {| experience := {| episodes := [[0]; [0]];
                                policy_parameters := [[]; [2]] |};
               policy := {| has_params := true; pol_params := [2] |};
               loss_fn := Some tt; extra_in := Some []; n_opt := 3;
               initial_random_trials := 0;
               polopt_fn := Some Fn_mc_pilco_polopt |} in
  let out := mc_pilco_polopt Cartpole.local_ok "cartpole" Race.overtaken in
  task_state Race.overtaken !! "cartpole" = Some "ready" /\
  started Race.overtaken !! 0%nat = Some (Fn_mc_pilco_polopt, "cartpole") /\
  (Train ∈ new_ops Race.overtaken out.2 <-> "init" <> "init") /\
  ("init" = "init" ->
   out.1 = Ok tt /\
   config_tasks out.2 = config_tasks Race.overtaken /\
   tasks out.2 = tasks Race.overtaken ++ ["cartpole"] /\
   new_ops Race.overtaken out.2
   = (if n_opt sp <=? n_polopt_iters (experience sp) then [SetState "done"] else [])
     ++ [Put]).
Proof.
  intros sp.
  split; [vm_compute; reflexivity|]. split; [vm_compute; reflexivity|].
  apply (local_pass_follows_global_state Cartpole.local_ok "cartpole"
           Race.overtaken sp "init"); vm_compute; reflexivity.
Defined.

(** X8.  A pass of [mc_pilco_polopt] that trains, for a task whose
    optimiser already has a loss function while its spec has no key
    [extra_in]: line 128 then takes the class [OrderedDict] as the default
    and [len] of it raises [TypeError] on line 129.  The pass has trained
    the dynamics and recorded [update_polopt]; it never calls
    [optimizer.minimize], changes no spec and does not put the task on the
    queue. *)
Theorem local_pass_without_extra_in (r : local_run) (n : string) (w : World)
    (sp : TaskSpec) (s : string) :
  config_tasks w !! n = Some sp ->
  state w = Some s -> s <> "init" ->
  train_dynamics_ok r = true ->
  loss_fn sp <> None -> extra_in sp = None ->
  let out := mc_pilco_polopt r n w in
  out.1 = Raise (TypeError "len(OrderedDict)") /\
  new_ops w out.2 = [Train; SetState "update_polopt"] /\
  task_state out.2 !! n = Some "update_polopt" /\
  tasks out.2 = tasks w /\
  config_tasks out.2 = config_tasks w.
Proof.
  intros Hsp Hs Hne Htrain Hloss Hextra. cbv zeta.
  unfold mc_pilco_polopt. unfold_ops. reduce_world.
  rewrite Hsp, Hs. reduce_world.
  destruct (String.eqb_spec s "init") as [->|_]; [done|]. cbn [negb].
  rewrite Htrain. reduce_world.
  destruct (loss_fn sp) as [[]|]; [|done]. reduce_world.
  rewrite Hsp. reduce_world. rewrite Hextra. reduce_world.
  give_ops. by rewrite lookup_insert_eq.
Qed.

Lemma local_pass_without_extra_in_witness :
  let sp := with_objective (Cartpole.spec None) in
  let w := set_state
             (set_config_tasks (Cartpole.start None) {[ "cartpole" := sp ]})
             (Some "ready") in
  let out := mc_pilco_polopt Cartpole.local_ok "cartpole" w in
  out.1 = Raise (TypeError "len(OrderedDict)") /\
  new_ops w out.2 = [Train; SetState "update_polopt"] /\
  task_state out.2 !! "cartpole" = Some "update_polopt" /\
  tasks out.2 = tasks w /\
  config_tasks out.2 = config_tasks w.
Proof.
  intros sp w.
  apply (local_pass_without_extra_in Cartpole.local_ok "cartpole" w sp "ready");
    first [ vm_compute; reflexivity | discriminate ].
Defined.

(** ** From the reply of the service to the next episode *)

(** X9.  [http_polopt] followed by the next pass of the loop on the same
    task.  When the service answers with parameters [p], the pass returns
    with [p] set in the policy of the task, the experience as it was and
    the task on the queue.  The next episode of the task, run under its own
    policy, stores [p] as the parameters of that episode, and the thread
    started after it runs the strategy of the spec (line 310).  The
    external calls of the pass of the loop ([env.init_params],
    [apply_controller], [exp.save]) are taken to return. *)
Theorem remote_params_reach_next_episode (r : remote_run) (c : cycle_run)
    (n : string) (w : World) (sp : TaskSpec) (p : params) (tr : trajectory)
    (s : string) :
  config_tasks w !! n = Some sp ->
  task_state w !! n = Some s -> s <> "done" ->
  (s = "init" -> initial_random_trials sp <= 0) ->
  has_params (policy sp) = true ->
  optimize_reply r = Pickled p ->
  (init_status r = not_found_text n -> init_task_ok r = true) ->
  init_params_ok c = true ->
  apply_controller c = Some tr ->
  save_ok c = true ->
  let w1 := (http_polopt r n w).2 in
  let w2 := (cycle c n w1).2 in
  (http_polopt r n w).1 = Ok tt /\
  tasks w1 = tasks w ++ [n] /\
  config_tasks w1 !! n = Some (with_policy_params sp p) /\
  (cycle c n w1).1 = Ok tt /\
  config_tasks w2 !! n
  = Some (with_experience (with_policy_params sp p)
            (append_episode (experience sp) tr p)) /\
  started w2 = started w ++ [(chosen_polopt sp (default_polopt_fn w), n)].
Proof.
  intros Hsp Hst Hnd Htrials Hhas Hreply Hinit Hip Hc Hsave. cbv zeta.
  assert (H1 : http_polopt r n w
               = (Ok tt, set_log
                           (set_tasks
                              (set_config_tasks w
                                 (<[n := with_policy_params sp p]> (config_tasks w)))
                              (tasks w ++ [n]))
                           (log w ++ [(n, HttpOptimize); (n, Put)]))).
  { unfold http_polopt. unfold_ops. reduce_world. rewrite Hsp, Hreply. reduce_world.
    destruct (String.eqb_spec (init_status r) (not_found_text n)) as [He|_];
      [rewrite (Hinit He)|]; reduce_world; rewrite Hsp; reduce_world;
      by rewrite <- app_assoc. }
  rewrite H1. cbn [fst snd]. split; [done|]. split; [done|].
  split; [cbn; by rewrite lookup_insert_eq|].
  unfold cycle. unfold_ops. reduce_world. rewrite Hst. reduce_world.
  rewrite lookup_insert_eq. reduce_world. rewrite Hip.
  destruct (String.eqb_spec s "done") as [->|_]; [done|]. reduce_world.
  assert (Hbranch : ((s =? "init")%string
                     && (0 <? initial_random_trials (with_policy_params sp p)))
                    = false).
  { destruct (String.eqb_spec s "init") as [He|_]; [|done].
    cbn. apply Z.ltb_ge. by apply Htrials. }
  rewrite Hbranch. reduce_world. rewrite Hc. reduce_world.
  rewrite lookup_insert_eq. reduce_world. rewrite Hsave. reduce_world.
  rewrite insert_insert_eq.
  unfold episode_pol_params. cbn [policy with_policy_params has_params pol_params].
  rewrite Hhas, lookup_insert_eq. done.
Qed.

Lemma remote_params_reach_next_episode_witness :
  let sp := Cartpole.spec None in
  let w := set_task_state (Cartpole.start None) {[ "cartpole" := "ready" ]} in
  let w1 := (http_polopt Cartpole.remote_ok "cartpole" w).2 in
  let w2 := (cycle Cartpole.cycle_ok "cartpole" w1).2 in
  (http_polopt Cartpole.remote_ok "cartpole" w).1 = Ok tt /\
  tasks w1 = tasks w ++ ["cartpole"] /\
  config_tasks w1 !! "cartpole" = Some (with_policy_params sp [3]) /\
  (cycle Cartpole.cycle_ok "cartpole" w1).1 = Ok tt /\
  config_tasks w2 !! "cartpole"
  = Some (with_experience (with_policy_params sp [3])
            (append_episode (experience sp) [0] [3])) /\
  started w2 = started w ++ [(chosen_polopt sp (default_polopt_fn w), "cartpole")].
Proof.
  intros sp w.
  apply (remote_params_reach_next_episode Cartpole.remote_ok Cartpole.cycle_ok
           "cartpole" w sp [3] [0] "ready");
    first [ vm_compute; reflexivity | discriminate ].
Defined.

(** ** The start-up of one task *)

(** X10.  The body of the loop of line 248 for a configured task.  The
    experience the task starts with is the one given in the configuration
    if there is one, else what [exp.load()] finds, else an empty dataset
    (the exception of a failed load is swallowed on line 258).  The task is
    recorded as [init].  It is put on the queue at once exactly if that
    experience has no policy parameters; otherwise [http_polopt] is called
    first (line 267), and the task is on the queue only if that call
    returns. *)
Theorem populate_task_start (disk : string -> option ExperienceDataset)
    (rs : string -> remote_run) (n : string) (given : bool) (w : World)
    (sp : TaskSpec) :
  config_tasks w !! n = Some sp ->
  let e := if given then experience sp else default empty_experience (disk n) in
  let out := populate_task disk rs (n, given) w in
  task_state out.2 !! n = Some "init" /\
  (experience <$> config_tasks out.2 !! n) = Some e /\
  (new_ops w out.2 = [SetState "init"; Put] <-> policy_parameters e = []) /\
  (policy_parameters e <> [] -> out.1 = Ok tt ->
   new_ops w out.2 = [SetState "init"; HttpOptimize; Put]) /\
  tasks out.2 = tasks w ++ (if is_ok out.1 then [n] else []).
Proof.
  intros Hsp. cbv zeta. unfold populate_task, http_polopt.
  destruct given; [|destruct (disk n) as [e0|]]; cbn [default from_option id].
  all: unfold_ops; reduce_world; rewrite ?Hsp; reduce_world;
    rewrite ?lookup_insert_eq; reduce_world.
  1: destruct (policy_parameters (experience sp)) as [|p0 ps] eqn:Hpp.
  3: destruct (policy_parameters e0) as [|p0 ps] eqn:Hpp.
  all: cbn [last length Nat.ltb Nat.leb experience with_experience
            with_policy_params policy_parameters empty_experience].
  all: reduce_world; rewrite ?lookup_insert_eq; reduce_world.
  all: cbn [last length Nat.ltb Nat.leb experience with_experience
            with_policy_params policy_parameters empty_experience];
    rewrite ?Hpp; cbn [last length Nat.ltb Nat.leb].
  all: repeat exec1.
  all: give_ops.
  all: rewrite ?lookup_insert_eq, ?app_nil_r.
  all: cbn [is_ok fmap option_fmap option_map experience with_experience
            with_policy_params].
  all: rewrite ?Hpp.
  all: try (exfalso;
            match goal with
            | H : (0 <? length _)%nat = _ |- _ =>
                cbn in H; rewrite ?Hpp in H; cbn in H; discriminate H
            end).
  all: rewrite ?Hsp; cbn [fmap option_fmap option_map].
  all: try (repeat split; intros; first [done | congruence | discriminate]).
  all: exfalso;
    match goal with
    | H : length _ = 0%nat |- _ => cbn in H; rewrite Hpp in H; discriminate H
    end.
Qed.

Lemma populate_task_start_witness :
  let w := initial_world (Cartpole.cfg None) None in
  let e := if false then experience (Cartpole.spec None)
           else default empty_experience (Cartpole.stored "cartpole") in
  let out := populate_task Cartpole.stored (fun _ => Cartpole.remote_ok)
                           ("cartpole", false) w in
  task_state out.2 !! "cartpole" = Some "init" /\
  (experience <$> config_tasks out.2 !! "cartpole") = Some e /\
  (new_ops w out.2 = [SetState "init"; Put] <-> policy_parameters e = []) /\
  (policy_parameters e <> [] -> out.1 = Ok tt ->
   new_ops w out.2 = [SetState "init"; HttpOptimize; Put]) /\
  tasks out.2 = tasks w ++ (if is_ok out.1 then ["cartpole"] else []).
Proof.
  apply (populate_task_start Cartpole.stored (fun _ => Cartpole.remote_ok)
           "cartpole" false (initial_world (Cartpole.cfg None) None)
           (Cartpole.spec None)).
  vm_compute. reflexivity.
Defined.

(** ** The output directory, whatever is there *)


(** ** Paths *)

Lemma list_ascii_of_string_app (a b : string) :
  list_ascii_of_string (a +:+ b) = list_ascii_of_string a ++ list_ascii_of_string b.
Proof.
  induction a as [|c a IH]; [done|].
  change (String c a +:+ b) with (String c (a +:+ b)).
  cbn [list_ascii_of_string app]. by rewrite IH.
Qed.

Lemma from_first_slash_skip (l l' : list ascii) (c : ascii) :
  forallb (fun x => negb (is_slash x)) l = true -> is_slash c = true ->
  from_first_slash (l ++ c :: l') = c :: l'.
Proof.
  intros Hl Hc. induction l as [|a l IH]; cbn [app from_first_slash].
  - by rewrite Hc.
  - cbn [forallb] in Hl. apply andb_true_iff in Hl as [Ha Hl].
    apply negb_true_iff in Ha. rewrite Ha. by apply IH.
Qed.

Lemma from_first_slash_last (l : list ascii) (c : ascii) :
  is_slash c = true -> exists y, from_first_slash (l ++ [c]) = y ++ [c].
Proof.
  intros Hc. induction l as [|a l IH]; cbn [app from_first_slash].
  - rewrite Hc. by exists [].
  - destruct (is_slash a); [by exists (a :: l)|done].
Qed.

Lemma lstrip_slashes_last (l : list ascii) (c : ascii) :
  lstrip_slashes (l ++ [c]) = [] \/ exists z, lstrip_slashes (l ++ [c]) = z ++ [c].
Proof.
  induction l as [|a l IH]; cbn [app lstrip_slashes].
  - destruct (is_slash c); [by left|right; by exists []].
  - destruct (is_slash a); [done|]. right. by exists (a :: l).
Qed.

Lemma dirname_isabs (s : string) : isabs s = true -> isabs (dirname s) = true.
Proof.
  destruct s as [|c s]; [done|]. cbn [isabs]. intros Hc.
  unfold dirname. cbn [list_ascii_of_string rev].
  destruct (from_first_slash_last (rev (list_ascii_of_string s)) c Hc) as [y ->].
  destruct (lstrip_slashes_last y c) as [-> | [z ->]].
  - rewrite rev_app_distr. cbn. done.
  - destruct (z ++ [c]) as [|a l] eqn:E; [by destruct z|].
    change (rev l ++ [a]) with (rev (a :: l)).
    rewrite <- E, rev_app_distr. cbn. done.
Qed.

Lemma path_join_isabs (a b : string) : isabs a = true -> isabs (path_join a b) = true.
Proof.
  intros Ha. unfold path_join. destruct (isabs b) eqn:Hb; [done|].
  destruct a as [|c a]; [done|].
  destruct (last _) as [x|]; [destruct (is_slash x)|]; cbn; done.
Qed.

Lemma from_first_slash_suffix (l : list ascii) :
  exists pre, l = pre ++ from_first_slash l.
Proof.
  induction l as [|a l [pre IH]]; [by exists []|]. cbn [from_first_slash].
  destruct (is_slash a); [by exists []|]. exists (a :: pre). cbn. by rewrite <- IH.
Qed.

Lemma lstrip_slashes_suffix (l : list ascii) :
  exists pre, l = pre ++ lstrip_slashes l.
Proof.
  induction l as [|a l [pre IH]]; [by exists []|]. cbn [lstrip_slashes].
  destruct (is_slash a); [|by exists []]. exists (a :: pre). cbn. by rewrite <- IH.
Qed.

(** [dirname] gives a prefix of the path. *)
Lemma dirname_prefix (s : string) :
  exists rest, list_ascii_of_string s = list_ascii_of_string (dirname s) ++ rest.
Proof.
  unfold dirname.
  destruct (from_first_slash_suffix (rev (list_ascii_of_string s))) as [pre Hpre].
  destruct (lstrip_slashes_suffix (from_first_slash (rev (list_ascii_of_string s))))
    as [pre' Hpre'].
  destruct (lstrip_slashes _) as [|a l] eqn:E.
  - exists (rev pre). rewrite list_ascii_of_string_of_list_ascii, <- rev_app_distr, <- Hpre.
    by rewrite rev_involutive.
  - exists (rev (pre ++ pre')).
    rewrite list_ascii_of_string_of_list_ascii, <- rev_app_distr, <- app_assoc, <- Hpre'.
    by rewrite <- Hpre, rev_involutive.
Qed.

Lemma isabs_list (s : string) :
  isabs s = match list_ascii_of_string s with
            | c :: _ => is_slash c
            | [] => false
            end.
Proof. by destruct s. Qed.

Lemma dirname_relative (s : string) : isabs s = false -> isabs (dirname s) = false.
Proof.
  rewrite !isabs_list. destruct (dirname_prefix s) as [rest ->].
  by destruct (list_ascii_of_string (dirname s)).
Qed.

Lemma path_join_relative (a b : string) :
  isabs a = false -> isabs b = false -> isabs (path_join a b) = false.
Proof.
  intros Ha Hb. unfold path_join. rewrite Hb.
  destruct a as [|c a]; [done|].
  destruct (last _) as [x|]; [destruct (is_slash x)|]; cbn; done.
Qed.

(** X12.  Line 229 for an output directory [p/name]: the old results go to
    [p_<time>], the name of the directory itself is dropped.  [name] may be
    empty: for a configured path with a trailing slash, [p/], they go to
    [p_<time>]. *)
Theorem target_dir_drops_last_name (p name t : string) (c : ascii) :
  last (list_ascii_of_string p) = Some c -> is_slash c = false ->
  forallb (fun x => negb (is_slash x)) (list_ascii_of_string name) = true ->
  dirname (p +:+ "/" +:+ name) = p /\
  target_dir (p +:+ "/" +:+ name) t = p +:+ "_" +:+ t.
Proof.
  intros Hlast Hc Hname.
  assert (Hd : dirname (p +:+ "/" +:+ name) = p); [|by unfold target_dir; rewrite Hd].
  unfold dirname. rewrite !list_ascii_of_string_app, rev_app_distr.
  cbn [list_ascii_of_string app rev]. rewrite <- app_assoc. cbn [app].
  rewrite from_first_slash_skip; [| |done].
  2: { rewrite forallb_forall in *. intros x Hx. apply Hname. by apply in_rev. }
  cbn [lstrip_slashes is_slash]. cbn.
  apply last_Some in Hlast as [l' Hl']. rewrite Hl', rev_app_distr. cbn [rev app].
  cbn [lstrip_slashes]. rewrite Hc.
  rewrite rev_involutive, <- Hl'. apply string_of_list_ascii_of_string.
Qed.

Lemma target_dir_drops_last_name_witness :
  dirname ("/data" +:+ "/" +:+ "robot_learning") = "/data" /\
  target_dir ("/data" +:+ "/" +:+ "robot_learning") "1523.4"
  = "/data" +:+ "_" +:+ "1523.4".
Proof.
  apply (target_dir_drops_last_name "/data" "robot_learning" "1523.4" "a"%char);
    vm_compute; reflexivity.
Defined.

(** X13.  The file [include_constructor] opens (lines 34-37).  An absolute
    file name is taken as it is, without normalisation.  A relative one is
    resolved against the directory of the file being read; the working
    directory of the process matters only if that file was itself opened
    under a relative name. *)
Theorem include_path_resolution (normpath : string -> string)
    (cwd stream_name filename : string) :
  include_path normpath cwd stream_name filename
  = if isabs filename then filename
    else if isabs stream_name
         then normpath (path_join (dirname stream_name) filename)
         else normpath (path_join cwd (path_join (dirname stream_name) filename)).
Proof.
  unfold include_path, abspath. destruct (isabs filename) eqn:Hf; cbn [negb]; [done|].
  destruct (isabs stream_name) eqn:Hs.
  - by rewrite (path_join_isabs _ filename (dirname_isabs _ Hs)).
  - by rewrite (path_join_relative _ _ (dirname_relative _ Hs) Hf).
Qed.

(** ** What a dequeued task and a started thread find *)

Lemma cycle_state_bound (c : cycle_run) (n : string) (w : World) :
  is_Some (task_state w !! n) -> is_Some (state (cycle c n w).2).
Proof.
  intros [s Hs]. unfold cycle. unfold_ops. reduce_world.
  rewrite Hs. reduce_world.
  repeat exec1; reduce_world; by eexists.
Qed.

(** With the variable [state] bound, line 78 does not raise. *)
Lemma run_polopt_state_bound (fn : polopt) (l : local_run) (r : remote_run)
    (n : string) (w : World) (x : string) :
  is_Some (state w) ->
  (run_polopt fn l r n w).1 <> Raise (NameError x).
Proof.
  intros [s Hs]. destruct fn; cbn [run_polopt].
  - unfold mc_pilco_polopt. unfold_ops. reduce_world.
    destruct (config_tasks w !! n) as [sp|] eqn:Hsp; reduce_world; [|done].
    rewrite Hs. reduce_world.
    repeat exec1; cbn [fst]; discriminate.
  - unfold http_polopt. unfold_ops. reduce_world.
    repeat exec1; cbn [fst]; discriminate.
Qed.

Lemma step_keeps_specs (g : list string) (a : action) (w w' : World) (n : string) :
  step g a w = Some w' ->
  is_Some (config_tasks w !! n) -> is_Some (config_tasks w' !! n).
Proof.
  intros Hstep [sp Hsp].
  destruct (step_trials g a w w' n sp Hstep Hsp) as (sp' & -> & _). by eexists.
Qed.

Lemma step_wired (g : list string) (a : action) (w w' : World) :
  wired w -> step g a w = Some w' -> wired w'.
Proof.
  intros [Hkeys Hstate] Hstep.
  assert (Hsched : (forall n, scheduled n w' -> scheduled n w) /\
                   (started w' <> [] -> is_Some (state w'))).
  { destruct a as [c | i l r]; cbn [step] in Hstep.
    - unfold main_step in Hstep. destruct (main w); try discriminate.
      destruct (loop_guard w); [|by injection Hstep as <-].
      destruct (tasks w) as [|n0 q] eqn:Hq; [discriminate|].
      set (w1 := set_log (set_tasks w q) (log w ++ [(n0, Get)])) in *.
      assert (Hn0 : scheduled n0 w) by (left; rewrite Hq; apply elem_of_cons; by left).
      destruct (Hkeys n0 Hn0) as [Hts Hcf].
      assert (H : (forall n, scheduled n (loop_body g c n0 w1).2 -> scheduled n w) /\
                  (started (loop_body g c n0 w1).2 <> [] ->
                   is_Some (state (loop_body g c n0 w1).2))).
      { unfold loop_body, lookup_global, bind.
        destruct (existsb (String.eqb "task_id") g).
        - unfold ret.
          pose proof (cycle_state_bound c n0 w1 Hts) as Hsb.
          destruct (cycle_effect_holds c n0 w1) as [Et _ _ _ _ _ _ Es _].
          assert (H : (forall n, scheduled n (cycle c n0 w1).2 -> scheduled n w) /\
                      (started (cycle c n0 w1).2 <> [] ->
                       is_Some (state (cycle c n0 w1).2))); [|by destruct (cycle c n0 w1) as [[]]].
          split; [|done]. intros n [Hn|Hn].
          + left. rewrite Et in Hn. cbn in Hn. rewrite Hq.
            apply elem_of_cons. by right.
          + destruct Es as [Es | [(fn & Es & _) _]]; rewrite Es in Hn.
            * by right.
            * rewrite fmap_app in Hn. apply elem_of_app in Hn as [Hn|Hn]; [by right|].
              cbn in Hn. apply list_elem_of_singleton in Hn as ->. done.
        - unfold raise. cbn [snd started state w1 set_log set_tasks]. split; [|done].
          intros n [Hn|Hn]; [|by right]. left. cbn in Hn. rewrite Hq.
          apply elem_of_cons. by right. }
      destruct (loop_body g c n0 w1) as [[] w2]; injection Hstep as <-; exact H.
    - destruct (thread_step_cases i l r w w' Hstep) as (fn & n0 & res & Hi & E).
      destruct E as [Est Estd _ _ _ _ Etasks _ _ _ _ _ _ _ _].
      cbn in Est, Estd, Etasks.
      assert (Hn0 : n0 ∈ (started w).*2).
      { apply list_elem_of_fmap. exists (fn, n0). split; [done|].
        by eapply list_elem_of_lookup_2. }
      split.
      + intros n [Hn|Hn].
        * rewrite Etasks in Hn. apply elem_of_app in Hn as [Hn|Hn]; [by left|].
          right. destruct (is_ok res); [|by apply elem_of_nil in Hn].
          by apply list_elem_of_singleton in Hn as ->.
        * right. rewrite Estd in Hn. rewrite list_fmap_delete in Hn.
          eapply elem_of_sublist; [exact Hn|]. apply sublist_delete.
      + intros _. rewrite Est. apply Hstate. intros Hnil.
        rewrite Hnil in Hi. done. }
  destruct Hsched as [Hs1 Hs2]. split; [|done].
  intros n Hn. destruct (Hkeys n (Hs1 n Hn)) as [H1 H2]. split.
  - by eapply step_keeps_keys.
  - by eapply step_keeps_specs.
Qed.

Lemma for_each_populate_wired (disk : string -> option ExperienceDataset)
    (rs : string -> remote_run) (items : list (string * bool)) (w : World) :
  wired w -> started w = [] ->
  (forall n, n ∈ items.*1 -> is_Some (config_tasks w !! n)) ->
  wired (for_each (populate_task disk rs) items w).2.
Proof.
  revert w. induction items as [|[n given] items IH]; intros w Hw Hstd Hcfg.
  - done.
  - cbn [for_each]. unfold bind at 1.
    assert (Hn : is_Some (config_tasks w !! n)).
    { apply Hcfg. rewrite fmap_cons. apply elem_of_cons. by left. }
    pose proof (populate_task_keeps_trials disk rs n given w) as Htr.
    destruct (populate_task_effect disk rs n given w)
      as [_ Estd _ Eoth _ Etasks _ Ew Erec _].
    assert (Hkeys : forall m, is_Some (config_tasks w !! m) ->
              is_Some (config_tasks (populate_task disk rs (n, given) w).2 !! m)).
    { intros m [sp Hm]. apply (f_equal (fun c => c !! m)) in Htr.
      rewrite !lookup_fmap, Hm in Htr.
      destruct (config_tasks _ !! m); [by eexists|done]. }
    assert (Hw1 : wired (populate_task disk rs (n, given) w).2).
    { destruct Hw as [Hk _]. split; [|by rewrite Estd, Hstd].
      intros m [Hm|Hm]; [|by rewrite Estd, Hstd in Hm; apply elem_of_nil in Hm].
      rewrite Etasks in Hm. apply elem_of_app in Hm as [Hm|Hm].
      - destruct (Hk m (or_introl Hm)) as [H1 H2]. split; [|by apply Hkeys].
        destruct (decide (m = n)) as [->|Hne].
        + rewrite Erec. destruct (last _); [by eexists|done].
        + by destruct (Eoth m Hne) as [-> _].
      - destruct (is_ok _) eqn:Hok; [|by apply elem_of_nil in Hm].
        apply list_elem_of_singleton in Hm as ->. split; [|by apply Hkeys].
        rewrite Erec. destruct Ew as [[_ ?] | ->]; [congruence|by eexists]. }
    destruct (populate_task disk rs (n, given) w) as [[[]|e] w1]; cbn [fst snd] in *.
    + apply IH; [done | by rewrite Estd | ].
      intros m Hm. apply Hkeys, Hcfg. rewrite fmap_cons. apply elem_of_cons. by right.
    + done.
Qed.

Lemma boot_wired (cfg : gmap string task_entry) (default : option polopt)
    (disk : string -> option ExperienceDataset) (rs : string -> remote_run) :
  wired (boot cfg default disk rs).
Proof.
  unfold boot, populate.
  pose proof (for_each_populate_wired disk rs
                (prod_map id entry_has_experience <$> map_to_list cfg)
                (initial_world cfg default)) as Hw.
  destruct (for_each _ _ _) as [[[]|e] w]; cbn [snd] in Hw.
  all: assert (wired w) as [H1 H2];
    [apply Hw;
     [ split; cbn; [|done]; intros n [Hn|Hn]; by apply elem_of_nil in Hn
     | done
     | intros n Hn; rewrite <- list_fmap_compose in Hn;
       apply list_elem_of_fmap in Hn as ([k e'] & -> & Hk);
       apply elem_of_map_to_list in Hk; cbn; rewrite lookup_fmap, Hk; by eexists ]
    | by split ].
Qed.

Lemma run_wired (cfg : gmap string task_entry) (default : option polopt)
    (disk : string -> option ExperienceDataset) (rs : string -> remote_run)
    (g : list string) (sched : list action) :
  wired (exec g sched (boot cfg default disk rs)).
Proof.
  pose proof (boot_wired cfg default disk rs) as Hw.
  revert Hw. generalize (boot cfg default disk rs).
  induction sched as [|a sched IH]; intros w Hw; [done|].
  cbn [exec]. destruct (step g a w) as [w'|] eqn:Hstep; [|by apply IH].
  eapply IH, step_wired; eauto.
Qed.

(** X14.  In every run of the script, a task on the queue is recorded as
    [init], [ready] or [done]: the look-up [task_state[name]] of line 284
    never raises [KeyError], and the loop never takes a task off the queue
    in a state a pass is still working through ([compile_polopt],
    [update_polopt]). *)
Theorem queued_task_has_recorded_state (cfg : gmap string task_entry)
    (default : option polopt) (disk : string -> option ExperienceDataset)
    (rs : string -> remote_run) (g : list string) (sched : list action)
    (n : string) :
  let w := exec g sched (boot cfg default disk rs) in
  n ∈ tasks w ->
  exists s, task_state w !! n = Some s /\
            (s = "init" \/ s = "ready" \/ s = "done") /\
            (read_task_state n w).1 = Ok s.
Proof.
  intros w Hn.
  pose proof (run_inv cfg default disk rs g sched) as Hinv. fold w in Hinv.
  destruct (Hinv n) as [_ _ _ I4 _ _ _ _].
  assert (Hs : exists s, task_state w !! n = Some s /\
                         (s = "init" \/ s = "ready" \/ s = "done")).
  { destruct I4 as [H | [H | H]]; [|eauto..].
    unfold tokens. apply occurrences_pos in Hn. lia. }
  destruct Hs as (s & Hs & Hcases). exists s. split; [done|]. split; [done|].
  unfold read_task_state. by rewrite Hs.
Qed.

Lemma queued_task_has_recorded_state_witness :
  let w := Cartpole.finished in
  "cartpole" ∈ tasks w /\
  exists s, task_state w !! "cartpole" = Some s /\
            (s = "init" \/ s = "ready" \/ s = "done") /\
            (read_task_state "cartpole" w).1 = Ok s.
Proof.
  assert (H : "cartpole" ∈ tasks Cartpole.finished)
    by (vm_compute; apply elem_of_cons; by left).
  split; [exact H|].
  exact (queued_task_has_recorded_state (Cartpole.cfg (Some Fn_mc_pilco_polopt)) None
           Cartpole.no_disk (fun _ => Cartpole.remote_ok) Cartpole.with_task_id
           (Cartpole.rounds 5) "cartpole" H).
Defined.

(** X15.  In every run of the script, when a thread has been started the
    variable [state] is bound (line 284 comes before line 339), so the
    read of line 78 never raises [NameError]; and the task of the thread
    has a recorded state. *)
Theorem started_thread_finds_state (cfg : gmap string task_entry)
    (default : option polopt) (disk : string -> option ExperienceDataset)
    (rs : string -> remote_run) (g : list string) (sched : list action)
    (i : nat) (fn : polopt) (n : string) :
  let w := exec g sched (boot cfg default disk rs) in
  started w !! i = Some (fn, n) ->
  is_Some (state w) /\
  is_Some (task_state w !! n) /\
  forall l r x,
    (run_polopt fn l r n (set_started w (delete i (started w)))).1
    <> Raise (NameError x).
Proof.
  intros w Hi.
  destruct (run_wired cfg default disk rs g sched) as [Hkeys Hstate].
  fold w in Hkeys, Hstate.
  assert (Hs : is_Some (state w)).
  { apply Hstate. intros Hnil. rewrite Hnil in Hi. done. }
  split; [done|]. split.
  - apply Hkeys. right. apply list_elem_of_fmap. exists (fn, n). split; [done|].
    by eapply list_elem_of_lookup_2.
  - intros l r x. by apply run_polopt_state_bound.
Qed.

Lemma started_thread_finds_state_witness :
  let w := Race.overtaken in
  is_Some (state w) /\
  is_Some (task_state w !! "cartpole") /\
  forall l r x,
    (run_polopt Fn_mc_pilco_polopt l r "cartpole"
                (set_started w (delete 0%nat (started w)))).1
    <> Raise (NameError x).
Proof.
  apply (started_thread_finds_state Race.cfg None Cartpole.no_disk
           (fun _ => Cartpole.remote_ok) Cartpole.with_task_id
           [ MainLoop Cartpole.cycle_ok;
             RunThread 0 Cartpole.local_ok Cartpole.remote_ok;
             MainLoop Cartpole.cycle_ok;
             RunThread 0 Cartpole.local_ok Cartpole.remote_ok;
             MainLoop Cartpole.cycle_ok;
             MainLoop Cartpole.cycle_ok ]
           0%nat Fn_mc_pilco_polopt "cartpole").
  vm_compute. reflexivity.
Defined.

(** ** When every task is done *)




(** ** When a pass of [mc_pilco_polopt] records [done] *)

(** X17.  In every run of the script, when a thread started on
    [mc_pilco_polopt] returns (its task is on the queue again), the task is
    recorded as [done] exactly if the count of line 145 over the experience
    the thread found has reached [n_opt], whether or not the pass
    trained. *)
Theorem local_pass_marks_done_iff (cfg : gmap string task_entry)
    (default : option polopt) (disk : string -> option ExperienceDataset)
    (rs : string -> remote_run) (g : list string) (sched : list action)
    (i : nat) (n : string) (l : local_run) (r : remote_run) (sp : TaskSpec)
    (w' : World) :
  let w := exec g sched (boot cfg default disk rs) in
  started w !! i = Some (Fn_mc_pilco_polopt, n) ->
  config_tasks w !! n = Some sp ->
  thread_step i l r w = Some w' ->
  tasks w' = tasks w ++ [n] ->
  (task_state w' !! n = Some "done" <-> n_opt sp <= n_polopt_iters (experience sp)).
Proof.
  intros w Hi Hsp Hstep Hput.
  pose proof (run_inv cfg default disk rs g sched) as Hinv. fold w in Hinv.
  assert (Hnd : task_state w !! n <> Some "done").
  { destruct (Hinv n) as [_ _ _ _ I5 _ _ _]. apply I5.
    apply list_elem_of_fmap. exists (Fn_mc_pilco_polopt, n). split; [done|].
    by eapply list_elem_of_lookup_2. }
  destruct (thread_step_cases i l r w w' Hstep) as (fn & n0 & res & Hi' & E).
  destruct E as [_ _ _ _ _ _ Etasks _ _ _ _ _ _ _ _]. cbn in Etasks.
  rewrite Hi in Hi'. injection Hi' as <- <-.
  unfold thread_step in Hstep. rewrite Hi in Hstep. injection Hstep as Hw'.
  cbn [run_polopt] in Hw'.
  set (w1 := set_started w (delete i (started w))) in *.
  destruct (run_polopt_spec_against_ops Fn_mc_pilco_polopt l r n w1 sp Hsp)
    as (sp' & Hsp' & _ & Hexp & Hn).
  cbn [run_polopt] in Hsp'. rewrite Hw' in Hsp'.
  destruct (mc_pilco_polopt l n w1) as [[[]|e] w2] eqn:Hrun; cbn [snd] in Hw'; subst w2.
  - destruct (mc_pilco_polopt_done_iff l n w1 w' Hnd Hrun) as (sp2 & Hsp2 & Hiff).
    rewrite Hsp' in Hsp2. injection Hsp2 as <-. by rewrite Hiff, Hexp, Hn.
  - exfalso.
    destruct (mc_pilco_polopt_effect l n w1) as [_ _ _ _ _ _ Et _ _ _ _ _ _ _ _].
    rewrite Hrun in Et. cbn in Et. rewrite Et, app_nil_r in Hput.
    apply (f_equal length) in Hput. rewrite length_app in Hput. cbn in Hput. lia.
Qed.

Lemma local_pass_marks_done_iff_witness :
  let sp := {| experience := {| episodes := [[0]; [0]; [0]; [0]; [0]];
                                policy_parameters := [[]; []; []; []; [2]] |};
               policy := {| has_params := true; pol_params := [2] |};
               loss_fn := Some tt; extra_in := Some []; n_opt := 1;
               initial_random_trials := 0;
               polopt_fn := Some Fn_mc_pilco_polopt |} in
  task_state Cartpole.finished !! "cartpole" = Some "done" <->
  n_opt sp <= n_polopt_iters (experience sp).
Proof.
  intros sp.
  apply (local_pass_marks_done_iff (Cartpole.cfg (Some Fn_mc_pilco_polopt)) None
           Cartpole.no_disk (fun _ => Cartpole.remote_ok) Cartpole.with_task_id
           (Cartpole.rounds 4 ++ [MainLoop Cartpole.cycle_ok])
           0%nat "cartpole" Cartpole.local_ok Cartpole.remote_ok sp
           Cartpole.finished);
    vm_compute; reflexivity.
Defined.
